(** * massiveWiki: a shallow embedding of the wiki server core

    The development follows the server source: the global page index
    ([buildPageIndex]), the wikilink resolver ([processWikilinks]), the
    tree builder ([buildTree]), the reference rewriter
    ([updatePageReferences]) and the page handlers (read, save, create,
    delete, rename).

    Modelling conventions.
    - A JavaScript string is a [string] of 8-bit characters.  Case
      mapping, the whitespace class and the case folding of patterns are
      those of ASCII, which is what the source computes on ASCII text;
      characters above 127 are carried through unchanged, which is not
      what the source does with them.  Every statement that rests on
      these operations therefore carries the hypothesis that the text is
      ASCII ([JS.isAscii]).
    - The global [pageIndex] object is a [gmap string string] holding its
      own properties.  A read [pageIndex[k]] is [indexGet], which also
      sees the properties inherited from [Object.prototype]; a write
      [pageIndex[k] = v] is [indexSet].
    - The pages directory is a tree of directory entries whose order is
      the order [fs.readdir] returns them in.  Entries are regular files
      or directories.
    - Handlers are functions from a server state to a response and a new
      state. *)

From Stdlib Require Import Ascii String.
From stdpp Require Import base gmap strings list.

Set Warnings "-register-all".

(** ** JavaScript string primitives *)

Module JS.

Definition dquote : string := String "034"%char "".
Definition newline : string := String "010"%char "".

(** A text of ASCII characters. *)
Fixpoint isAscii (s : string) : bool :=
  match s with
  | EmptyString => true
  | String c s' => (nat_of_ascii c <? 128) && isAscii s'
  end.

(** [\s] and the characters [trim] strips, among the ASCII characters:
    TAB, LF, VT, FF, CR, SPACE.  (The source also counts U+00A0, U+FEFF,
    the line and paragraph separators and the space separators.) *)
Definition isWhiteSpace (c : ascii) : bool :=
  let n := nat_of_ascii c in
  ((9 <=? n) && (n <=? 13)) || (n =? 32).

(** [toLowerCase] on an ASCII character.  (The source also maps the
    capital letters above 127.) *)
Definition lowerChar (c : ascii) : ascii :=
  let n := nat_of_ascii c in
  if (65 <=? n) && (n <=? 90) then ascii_of_nat (n + 32) else c.

Fixpoint toLowerCase (s : string) : string :=
  match s with
  | EmptyString => EmptyString
  | String c s' => String (lowerChar c) (toLowerCase s')
  end.

Fixpoint trimStart (s : string) : string :=
  match s with
  | EmptyString => EmptyString
  | String c s' => if isWhiteSpace c then trimStart s' else s
  end.

Fixpoint trimEnd (s : string) : string :=
  match s with
  | EmptyString => EmptyString
  | String c s' =>
      match trimEnd s' with
      | EmptyString => if isWhiteSpace c then EmptyString else String c EmptyString
      | r => String c r
      end
  end.

Definition trim (s : string) : string := trimEnd (trimStart s).

(** [s.replace(/\s+/g, '-')]: [inRun] records that the previous
    character already belonged to the whitespace run being replaced. *)
Fixpoint hyphenate (inRun : bool) (s : string) : string :=
  match s with
  | EmptyString => EmptyString
  | String c s' =>
      if isWhiteSpace c
      then (if inRun then hyphenate true s' else String "-" (hyphenate true s'))
      else String c (hyphenate false s')
  end.

Definition replaceWhitespaceRuns (s : string) : string := hyphenate false s.

(** [s.includes(c)] for a one-character needle. *)
Fixpoint includesChar (c : ascii) (s : string) : bool :=
  match s with
  | EmptyString => false
  | String a s' => if Ascii.eqb a c then true else includesChar c s'
  end.

(** [s.split(c)] for a one-character separator; never the empty list. *)
Fixpoint splitChar (c : ascii) (s : string) : list string :=
  match s with
  | EmptyString => [EmptyString]
  | String a s' =>
      if Ascii.eqb a c then EmptyString :: splitChar c s'
      else match splitChar c s' with
           | h :: t => String a h :: t
           | [] => [String a EmptyString]
           end
  end.

(** [s.startsWith(p)], returning what follows the prefix. *)
Fixpoint stripPrefix (p s : string) : option string :=
  match p, s with
  | EmptyString, _ => Some s
  | String a p', String b s' => if Ascii.eqb a b then stripPrefix p' s' else None
  | String _ _, EmptyString => None
  end.

Definition startsWith (p s : string) : bool :=
  match stripPrefix p s with Some _ => true | None => false end.

Fixpoint endsWith (p s : string) : bool :=
  if String.eqb p s then true
  else match s with
       | EmptyString => false
       | String _ s' => endsWith p s'
       end.

(** The text before and after the first occurrence of [p] in [s]. *)
Fixpoint cutAtFirst (p s : string) : option (string * string) :=
  match stripPrefix p s with
  | Some rest => Some (EmptyString, rest)
  | None =>
      match s with
      | EmptyString => None
      | String c s' =>
          match cutAtFirst p s' with
          | Some (before, after) => Some (String c before, after)
          | None => None
          end
      end
  end.

(** GetSubstitution for a string pattern (no capture groups): [$$],
    [$&], [$`] and [$'] are expanded, every other [$] is literal. *)
Fixpoint getSubstitution (matched before after replacement : string) : string :=
  match replacement with
  | EmptyString => EmptyString
  | String c r =>
      if Ascii.eqb c "$" then
        match r with
        | String d r' =>
            if Ascii.eqb d "$" then String "$" (getSubstitution matched before after r')
            else if Ascii.eqb d "&" then matched +:+ getSubstitution matched before after r'
            else if Ascii.eqb d "`" then before +:+ getSubstitution matched before after r'
            else if Ascii.eqb d "'" then after +:+ getSubstitution matched before after r'
            else String c (getSubstitution matched before after r)
        | EmptyString => String c EmptyString
        end
      else String c (getSubstitution matched before after r)
  end.

(** [s.replace(p, replacement)] with a string pattern: the first
    occurrence only. *)
Definition replaceFirst (p replacement s : string) : string :=
  match cutAtFirst p s with
  | Some (before, after) =>
      before +:+ getSubstitution p before after replacement +:+ after
  | None => s
  end.

(** [s.slice(0, -n)] *)
Fixpoint dropEnd (n : nat) (s : string) : string :=
  match s with
  | EmptyString => EmptyString
  | String c s' => if String.length s' <? n then EmptyString else String c (dropEnd n s')
  end.

Fixpoint join (sep : string) (l : list string) : string :=
  match l with
  | [] => EmptyString
  | [x] => x
  | x :: rest => x +:+ sep +:+ join sep rest
  end.

End JS.

(** ** Normalizer *)

(** [.toLowerCase().replace(/\s+/g, '-')] *)
Definition normalizeName (s : string) : string :=
  JS.replaceWhitespaceRuns (JS.toLowerCase s).


(** ** Page index reads and writes *)

(** [pageIndex] is created by the object literal [{}]: a read of a key
    the object does not hold itself falls through to [Object.prototype].
    These are the function-valued properties found there, [constructor]
    apart. *)
Definition prototypeFunctions : list string :=
  ["hasOwnProperty"; "isPrototypeOf"; "propertyIsEnumerable"; "toLocaleString";
   "toString"; "valueOf"; "__defineGetter__"; "__defineSetter__";
   "__lookupGetter__"; "__lookupSetter__"].

(** The value read for an inherited key, as the text a template literal
    prints for it. *)
Definition inheritedText (key : string) : option string :=
  if decide (key = "constructor") then Some "function Object() { [native code] }"
  else if bool_decide (key ∈ prototypeFunctions)
       then Some ("function " +:+ key +:+ "() { [native code] }")
       else None.

(** [pageIndex[key]] as the source tests it ([if (targetPath)],
    [if (!pageIndex[...])]): the result is the value read when it is
    truthy.  A missing key and an empty string are falsy; [__proto__]
    reads the prototype object whatever was stored. *)
Definition indexGet (pageIndex : gmap string string) (key : string) : option string :=
  if decide (key = "__proto__") then Some "[object Object]"
  else
    match pageIndex !! key with
    | Some p => if decide (p = EmptyString) then None else Some p
    | None => inheritedText key
    end.

(** [pageIndex[key] = value]: the setter behind [__proto__] ignores a
    string. *)
Definition indexSet (key value : string) (pageIndex : gmap string string)
    : gmap string string :=
  if decide (key = "__proto__") then pageIndex else <[key := value]> pageIndex.

(** Keys that no object inherits. *)
Definition ordinaryKey (key : string) : bool :=
  negb (bool_decide (key = "__proto__")) && negb (bool_decide (is_Some (inheritedText key))).

(** ** Wikilink resolver *)

(** The longest run of characters other than the closing bracket, and
    what follows it: the [[^\]]+] of the wikilink pattern. *)
Fixpoint spanNotBracket (s : string) : string * string :=
  match s with
  | EmptyString => (EmptyString, EmptyString)
  | String c s' =>
      if Ascii.eqb c "]" then (EmptyString, s)
      else let '(run, rest) := spanNotBracket s' in (String c run, rest)
  end.

(** One attempt of [/\[\[([^\]]+)\]\]/] at the start of [s]: the captured
    group and the text after the match. *)
Definition wikilinkAt (s : string) : option (string * string) :=
  match JS.stripPrefix "[[" s with
  | Some s1 =>
      let '(inner, s2) := spanNotBracket s1 in
      match inner with
      | EmptyString => None
      | String _ _ =>
          match JS.stripPrefix "]]" s2 with
          | Some rest => Some (inner, rest)
          | None => None
          end
      end
  | None => None
  end.

(** [content.matchAll(wikilinkRegex)], as the list of captured groups;
    [skip] counts the characters of the current match still to pass. *)
Fixpoint wikilinkScan (skip : nat) (s : string) {struct s} : list string :=
  match s with
  | EmptyString => []
  | String _ s' =>
      match skip with
      | S k => wikilinkScan k s'
      | O =>
          match wikilinkAt s with
          | Some (inner, _) => inner :: wikilinkScan (String.length inner + 3) s'
          | None => wikilinkScan 0 s'
          end
      end
  end.

Definition wikilinkMatches (content : string) : list string := wikilinkScan 0 content.

(** [pageName] and [displayText] of one match, from [match[1]]. *)
Definition pageNameAndDisplay (inner : string) : string * string :=
  let fullMatch := JS.trim inner in
  if JS.includesChar "|" fullMatch then
    let parts := JS.splitChar "|" fullMatch in
    (normalizeName (JS.trim (default EmptyString (parts !! 0%nat))),
     JS.trim (default EmptyString (parts !! 1%nat)))
  else (normalizeName fullMatch, fullMatch).

(** [!currentPagePath || currentPagePath === 'home'] *)
Definition atRoot (currentPagePath : option string) : bool :=
  match currentPagePath with
  | None => true
  | Some cur => bool_decide (cur = EmptyString) || bool_decide (cur = "home")
  end.

(** [linkPath] and [exists] of one match. *)
Definition linkTarget (pageIndex : gmap string string)
    (currentPagePath : option string) (pageName : string) : string * bool :=
  match indexGet pageIndex pageName with
  | Some targetPath => (targetPath, true)
  | None =>
      if atRoot currentPagePath then (pageName, false)
      else (default EmptyString currentPagePath +:+ "/" +:+ pageName, false)
  end.

Definition boolText (b : bool) : string := if b then "true" else "false".

(** The anchor template of the source. *)
Definition linkHtml (linkPath : string) (exists_ : bool) (displayText : string) : string :=
  let cssClass := if exists_ then "wikilink" else "wikilink wikilink-new" in
  "<a href=" +:+ JS.dquote +:+ "/" +:+ linkPath +:+ JS.dquote +:+
  " class=" +:+ JS.dquote +:+ cssClass +:+ JS.dquote +:+
  " data-page=" +:+ JS.dquote +:+ linkPath +:+ JS.dquote +:+
  " data-exists=" +:+ JS.dquote +:+ boolText exists_ +:+ JS.dquote +:+
  ">" +:+ displayText +:+ "</a>".

(** The anchor emitted for one match. *)
Definition wikilinkHtml (pageIndex : gmap string string)
    (currentPagePath : option string) (inner : string) : string :=
  let '(pageName, displayText) := pageNameAndDisplay inner in
  let '(linkPath, exists_) := linkTarget pageIndex currentPagePath pageName in
  linkHtml linkPath exists_ displayText.

Definition processWikilinks (pageIndex : gmap string string)
    (content : string) (currentPagePath : option string) : string :=
  foldl
    (fun processedContent inner =>
       JS.replaceFirst ("[[" +:+ inner +:+ "]]")
         (wikilinkHtml pageIndex currentPagePath inner) processedContent)
    content (wikilinkMatches content).

(** ** The pages directory *)

Inductive Dirent : Type :=
| File (name : string) (content : string)
| Directory (name : string) (entries : list Dirent).

Definition direntName (e : Dirent) : string :=
  match e with
  | File n _ => n
  | Directory n _ => n
  end.

Definition isDirectory (e : Dirent) : bool :=
  match e with
  | Directory _ _ => true
  | File _ _ => false
  end.

(** Entries with ASCII names, at every depth. *)
Fixpoint asciiNames (e : Dirent) : bool :=
  JS.isAscii (direntName e) &&
  match e with
  | File _ _ => true
  | Directory _ entries => forallb asciiNames entries
  end.

Definition asciiDir (entries : list Dirent) : bool := forallb asciiNames entries.

(** [path.join(base, name)] for a base that is empty or a relative path
    and a name read from a directory. *)
Definition pathJoin (base name : string) : string :=
  if decide (base = EmptyString) then name else base +:+ "/" +:+ name.

(** ** Page index *)

(** The body of the file branch of [scanDirectory]: the leaf key is set
    only when the lookup is falsy, the path key always. *)
Definition indexPage (pageIndex : gmap string string)
    (pageName pagePathWithoutExt : string) : gmap string string :=
  let pageIndex1 :=
    match indexGet pageIndex (JS.toLowerCase pageName) with
    | None => indexSet (JS.toLowerCase pageName) pagePathWithoutExt pageIndex
    | Some _ => pageIndex
    end in
  indexSet (JS.toLowerCase pagePathWithoutExt) pagePathWithoutExt pageIndex1.

(** One iteration of the loop of [scanDirectory], on [entry] of the
    directory whose relative path is [relativePath]. *)
Fixpoint scanEntry (entry : Dirent) (relativePath : string)
    (pageIndex : gmap string string) : gmap string string :=
  let relPath := pathJoin relativePath (direntName entry) in
  match entry with
  | Directory _ entries =>
      foldl (fun idx e => scanEntry e relPath idx) pageIndex entries
  | File name _ =>
      if JS.endsWith ".md" name
      then indexPage pageIndex (JS.dropEnd 3 name) (JS.dropEnd 3 relPath)
      else pageIndex
  end.

Definition scanDirectory (entries : list Dirent) (relativePath : string)
    (pageIndex : gmap string string) : gmap string string :=
  foldl (fun idx e => scanEntry e relativePath idx) pageIndex entries.

(** [buildPageIndex]: the index is emptied, then filled by the scan; when
    the pages directory cannot be read the error is logged and the index
    stays empty. *)
Definition buildPageIndex (pagesDir : option (list Dirent)) : gmap string string :=
  match pagesDir with
  | Some entries => scanDirectory entries EmptyString ∅
  | None => ∅
  end.

(** The pages in the order the scan meets them, as pairs of
    [pageName] and [pagePathWithoutExt]. *)
Fixpoint walkEntry (entry : Dirent) (relativePath : string) : list (string * string) :=
  let relPath := pathJoin relativePath (direntName entry) in
  match entry with
  | Directory _ entries => flat_map (fun e => walkEntry e relPath) entries
  | File name _ =>
      if JS.endsWith ".md" name
      then [(JS.dropEnd 3 name, JS.dropEnd 3 relPath)]
      else []
  end.

Definition walkDirectory (entries : list Dirent) (relativePath : string) : list (string * string) :=
  flat_map (fun e => walkEntry e relativePath) entries.

Definition indexStep (pageIndex : gmap string string) (pg : string * string) : gmap string string :=
  indexPage pageIndex pg.1 pg.2.

(** ** Tree builder *)

Inductive NodeType : Type := page | page_parent | folder.

Inductive TreeNode : Type :=
| mkNode (name path : string) (type : NodeType) (hasContent : bool)
         (children : list TreeNode).

Definition nodeName (n : TreeNode) : string := let 'mkNode x _ _ _ _ := n in x.
Definition nodePath (n : TreeNode) : string := let 'mkNode _ x _ _ _ := n in x.
Definition nodeType (n : TreeNode) : NodeType := let 'mkNode _ _ x _ _ := n in x.
Definition hasContent (n : TreeNode) : bool := let 'mkNode _ _ _ x _ := n in x.
Definition children (n : TreeNode) : list TreeNode := let 'mkNode _ _ _ _ x := n in x.

#[global] Instance NodeType_eq_dec : EqDecision NodeType.
Proof. solve_decision. Defined.

(** Keys of a [Map] or [Set] in insertion order: the first occurrence of
    each name is kept. *)
Fixpoint insertionOrder (l : list string) : list string :=
  match l with
  | [] => []
  | x :: rest => x :: filter (fun y => y ≠ x) (insertionOrder rest)
  end.

(** The value stored first under [key] in a list of pairs. *)
Fixpoint assoc {A : Type} (key : string) (l : list (string * A)) : option A :=
  match l with
  | [] => None
  | (k, v) :: rest => if decide (k = key) then Some v else assoc key rest
  end.

Definition hidden (e : Dirent) : bool := JS.startsWith "." (direntName e).

(** Keys of [mdFiles]: entries that are not directories and end in
    [.md], under [item.name.replace('.md', '')]. *)
Definition mdKey (e : Dirent) : option string :=
  if hidden e then None
  else if isDirectory e then None
  else if JS.endsWith ".md" (direntName e)
       then Some (JS.replaceFirst ".md" EmptyString (direntName e))
       else None.

(** Keys of [directories]. *)
Definition dirKey (e : Dirent) : option string :=
  if hidden e then None
  else if isDirectory e then Some (direntName e) else None.

Section TreeBuilder.

(** [a.localeCompare(b)]: negative, zero or positive. *)
Variable localeCompare : string → string → Z.

Definition compareNodes (a b : TreeNode) : Z :=
  if decide (nodeName a = "home") then (-1)%Z
  else if decide (nodeName b = "home") then 1%Z
  else localeCompare (nodeName a) (nodeName b).

(** [tree.sort(compareNodes)] as a stable insertion sort. *)
Fixpoint insertNode (x : TreeNode) (sorted : list TreeNode) : list TreeNode :=
  match sorted with
  | [] => [x]
  | y :: rest =>
      if (compareNodes x y <=? 0)%Z then x :: y :: rest
      else y :: insertNode x rest
  end.

Definition sortNodes (tree : list TreeNode) : list TreeNode :=
  foldr insertNode [] tree.

(** The node pushed for [name], given the two membership tests and the
    children read from the directory of that name. *)
Definition makeNode (basePath name : string) (hasMdFile hasDirectory : bool)
    (subtree : list TreeNode) : option TreeNode :=
  let itemPath := pathJoin basePath name in
  let children := if hasDirectory then subtree else [] in
  if hasMdFile && hasDirectory then Some (mkNode name itemPath page_parent true children)
  else if hasMdFile then Some (mkNode name itemPath page true [])
  else if hasDirectory then Some (mkNode name itemPath folder false children)
  else None.

(** One call of [buildTree] on the listing [items]; [subtrees] holds, for
    each directory of the listing, the result of the recursive call. *)
Definition buildLevel (basePath : string) (items : list Dirent)
    (subtrees : list (string * list TreeNode)) : list TreeNode :=
  let mdFiles := insertionOrder (omap (M:=list) mdKey items) in
  let directories := insertionOrder (omap (M:=list) dirKey items) in
  let allNames := insertionOrder (mdFiles ++ directories) in
  let tree :=
    omap (M:=list) (fun name =>
            makeNode basePath name
              (bool_decide (name ∈ mdFiles)) (bool_decide (name ∈ directories))
              (default [] (assoc name subtrees)))
         allNames in
  sortNodes tree.

(** [buildTree(path.join(dir, name), itemPath)] for the directory entry
    [e] of [dir]. *)
Fixpoint buildSubtree (e : Dirent) (itemPath : string) : list TreeNode :=
  match e with
  | Directory _ entries =>
      buildLevel itemPath entries
        (omap (M:=list) (fun d =>
                 match d with
                 | Directory n _ => Some (n, buildSubtree d (pathJoin itemPath n))
                 | File _ _ => None
                 end) entries)
  | File _ _ => []
  end.

Definition buildTree (items : list Dirent) (basePath : string) : list TreeNode :=
  buildLevel basePath items
    (omap (M:=list) (fun d =>
             match d with
             | Directory n _ => Some (n, buildSubtree d (pathJoin basePath n))
             | File _ _ => None
             end) items).

End TreeBuilder.

(** ** Page store: paths and file operations *)

(** One more segment of a path, as [path.join] normalizes it: an empty
    segment and [.] are dropped, and [..] takes back the segment before
    it.  A [..] with no segment to take back is kept. *)
Definition joinSegment (acc : list string) (s : string) : list string :=
  if decide (s = EmptyString ∨ s = ".") then acc
  else if decide (s = "..") then
    match last acc with
    | Some prev => if decide (prev = "..") then acc ++ [s] else removelast acc
    | None => acc ++ [s]
    end
  else acc ++ [s].

(** The segments of [path.join(PAGES_DIR, p)] below the pages directory. *)
Definition segments (p : string) : list string :=
  foldl joinSegment [] (JS.splitChar "/" p).

(** The path stays inside the pages directory: no [..] is left.  A path
    with a [..] left leads to files outside the pages directory, which
    the state of this model does not hold; there the model finds nothing,
    and statements that depend on it carry this hypothesis. *)
Definition insidePages (segs : list string) : bool :=
  forallb (fun s => negb (String.eqb s "..")) segs.

Fixpoint findEntry (n : string) (es : list Dirent) : option Dirent :=
  match es with
  | [] => None
  | e :: rest => if decide (direntName e = n) then Some e else findEntry n rest
  end.

(** Replace the first entry named [n]. *)
Fixpoint setEntry (n : string) (e' : Dirent) (es : list Dirent) : list Dirent :=
  match es with
  | [] => []
  | e :: rest => if decide (direntName e = n) then e' :: rest else e :: setEntry n e' rest
  end.

(** The entry a path leads to inside the listing [es]. *)
Fixpoint resolve (segs : list string) (es : list Dirent) : option Dirent :=
  match segs with
  | [] => None
  | n :: rest =>
      match rest with
      | [] => findEntry n es
      | _ :: _ =>
          match findEntry n es with
          | Some (Directory _ sub) => resolve rest sub
          | _ => None
          end
      end
  end.

(** The entry at a path, the pages directory itself for the empty path. *)
Definition lookupPath (pagesDir : option (list Dirent)) (segs : list string) : option Dirent :=
  match pagesDir with
  | None => None
  | Some es =>
      match segs with
      | [] => Some (Directory "pages" es)
      | _ :: _ => resolve segs es
      end
  end.

(** [fs.access(p)] succeeds. *)
Definition access (pagesDir : option (list Dirent)) (segs : list string) : bool :=
  bool_decide (is_Some (lookupPath pagesDir segs)).

(** [pageExists(pagePath)] *)
Definition pageExists (pagesDir : option (list Dirent)) (pagePath : string) : bool :=
  access pagesDir (segments (pagePath +:+ ".md")).

(** [fs.readFile(p)] *)
Definition readFile (pagesDir : option (list Dirent)) (segs : list string) : option string :=
  match lookupPath pagesDir segs with
  | Some (File _ content) => Some content
  | _ => None
  end.

(** Apply [f] to the listing of the directory at [dirSegs], when that
    directory exists. *)
Fixpoint alterDir (dirSegs : list string) (f : list Dirent → list Dirent)
    (es : list Dirent) : list Dirent :=
  match dirSegs with
  | [] => f es
  | n :: rest =>
      match findEntry n es with
      | Some (Directory _ sub) => setEntry n (Directory n (alterDir rest f sub)) es
      | _ => es
      end
  end.

Definition parentSegs (segs : list string) : list string := removelast segs.
Definition leafSeg (segs : list string) : string := List.last segs EmptyString.

(** The entries a removal leaves in a directory: all but those named
    [leaf] that are directories ([kind] true) or files ([kind] false). *)
Definition keptEntry (leaf : string) (kind : bool) (e : Dirent) : Prop :=
  ¬ (direntName e = leaf ∧ isDirectory e = kind).

#[global] Instance keptEntry_dec (leaf : string) (kind : bool) (e : Dirent) :
  Decision (keptEntry leaf kind e).
Proof. unfold keptEntry. apply _. Defined.

(** The content of an entry that is a file. *)
Definition fileOf (o : option Dirent) : option string :=
  match o with
  | Some (File _ content) => Some content
  | _ => None
  end.

(** [fs.unlink(p)]: removes a file; a failure (nothing there, or a
    directory) leaves the listing as it is. *)
Definition unlink (segs : list string) (es : list Dirent) : list Dirent :=
  match segs with
  | [] => es
  | _ :: _ =>
      alterDir (parentSegs segs) (filter (keptEntry (leafSeg segs) false)) es
  end.

(** [fs.stat(p)] says directory, then [fs.rm(p, {recursive, force})]:
    the directory goes with everything below it; the empty path is the
    pages directory itself. *)
Definition removeTree (segs : list string) (pagesDir : option (list Dirent)) : option (list Dirent) :=
  match pagesDir with
  | None => None
  | Some es =>
      match segs with
      | [] => None
      | _ :: _ =>
          Some (alterDir (parentSegs segs) (filter (keptEntry (leafSeg segs) true)) es)
      end
  end.

(** [fs.mkdir(p, {recursive: true})]: [None] when a component of the
    path is a file.  A new entry is put at the end of the listing; where
    [fs.readdir] shows it is up to the file system. *)
Fixpoint mkdirp (segs : list string) (es : list Dirent) : option (list Dirent) :=
  match segs with
  | [] => Some es
  | n :: rest =>
      match findEntry n es with
      | None =>
          match mkdirp rest [] with
          | Some sub => Some (es ++ [Directory n sub])
          | None => None
          end
      | Some (Directory _ sub) =>
          match mkdirp rest sub with
          | Some sub' => Some (setEntry n (Directory n sub') es)
          | None => None
          end
      | Some (File _ _) => None
      end
  end.

(** [fs.writeFile(p, content)] into an existing directory: [None] when
    the directory is missing or the target is a directory. *)
Definition writeFile (segs : list string) (content : string) (es : list Dirent)
    : option (list Dirent) :=
  match segs with
  | [] => None
  | _ :: _ =>
      let n := leafSeg segs in
      match lookupPath (Some es) (parentSegs segs) with
      | Some (Directory _ dir) =>
          match findEntry n dir with
          | Some (Directory _ _) => None
          | Some (File _ _) =>
              Some (alterDir (parentSegs segs) (setEntry n (File n content)) es)
          | None =>
              Some (alterDir (parentSegs segs) (fun d => d ++ [File n content]) es)
          end
      | _ => None
      end
  end.

(** [mkdir(dirname(filePath), {recursive: true})] followed by
    [writeFile(filePath, content)]. *)
Definition writePage (pagesDir : option (list Dirent)) (fileSegs : list string)
    (content : string) : option (list Dirent) :=
  match mkdirp (parentSegs fileSegs) (default [] pagesDir) with
  | Some es => writeFile fileSegs content es
  | None => None
  end.

(** ** Server state and responses *)

Record Server : Type := mkServer {
  pagesDir : option (list Dirent);
  pageIndex : gmap string string
}.

(** Failure responses, by the status and message the handlers send. *)
Inductive Failure : Type :=
| Required        (* 400, "... is required" / "... are required" *)
| Forbidden       (* 400, "Cannot delete home page" / "Cannot rename the home page" *)
| InvalidName     (* 400, "Page name can only contain letters, numbers, and hyphens" *)
| AlreadyExists   (* 400, "Page already exists" / "A page with this name already exists" *)
| NotFound        (* 404, "Page not found" *)
| ServerError.    (* 500 *)

Inductive Response (A : Type) : Type :=
| Success (body : A)
| Fail (failure : Failure).
Arguments Success {A} body.
Arguments Fail {A} failure.

(** [if (pagePath.startsWith('/')) pagePath = pagePath.slice(1)] *)
Definition stripLeadingSlash (p : string) : string :=
  match JS.stripPrefix "/" p with
  | Some rest => rest
  | None => p
  end.

(** ** Reading a page: body and footer *)

Fixpoint spanHyphens (s : string) : nat * string :=
  match s with
  | EmptyString => (0, EmptyString)
  | String c s' =>
      if Ascii.eqb c "-" then let '(n, rest) := spanHyphens s' in (S n, rest)
      else (0, s)
  end.

(** One attempt of [/\n---+\n/] at the start of [s]: the number of
    hyphens matched and the text after the match. *)
Definition ruleAt (s : string) : option (nat * string) :=
  match s with
  | String c s1 =>
      if Ascii.eqb c "010" then
        let '(n, s2) := spanHyphens s1 in
        if 3 <=? n then
          match s2 with
          | String d rest => if Ascii.eqb d "010" then Some (n, rest) else None
          | EmptyString => None
          end
        else None
      else None
  | EmptyString => None
  end.

(** [content.split(/\n---+\n/)]; [skip] counts the characters of the
    current delimiter still to pass. *)
Fixpoint splitRule (skip : nat) (s : string) {struct s} : list string :=
  match s with
  | EmptyString => [EmptyString]
  | String c s' =>
      match skip with
      | S k => splitRule k s'
      | O =>
          match ruleAt s with
          | Some (n, _) => EmptyString :: splitRule (S n) s'
          | None =>
              match splitRule 0 s' with
              | h :: t => String c h :: t
              | [] => [String c EmptyString]
              end
          end
      end
  end.

(** [mainContent] and [footerContent] of the page handler. *)
Definition splitFooter (content : string) : string * string :=
  let parts := splitRule 0 content in
  if 1 <? length parts
  then (JS.join (JS.newline +:+ "---" +:+ JS.newline) (removelast parts),
        List.last parts EmptyString)
  else (content, EmptyString).

Section Handlers.

(** [marked.parse], the external markdown renderer. *)
Variable marked : string → string.

Record PageBody : Type := mkPageBody {
  body_path : string;
  body_content : string;
  body_footer : string;
  body_raw : string
}.

(** GET /api/page/* *)
Definition getPage (param : string) (st : Server) : Response PageBody :=
  let pagePath := stripLeadingSlash (if decide (param = EmptyString) then "home" else param) in
  let fileSegs := segments (pagePath +:+ ".md") in
  if access (pagesDir st) fileSegs then
    match readFile (pagesDir st) fileSegs with
    | Some content =>
        let '(mainContent, footerContent) := splitFooter content in
        let processedMain := processWikilinks (pageIndex st) mainContent (Some pagePath) in
        let processedFooter :=
          if decide (footerContent = EmptyString) then EmptyString
          else processWikilinks (pageIndex st) footerContent (Some pagePath) in
        Success (mkPageBody pagePath (marked processedMain)
                   (if decide (processedFooter = EmptyString) then EmptyString
                    else marked processedFooter)
                   content)
    | None => Fail ServerError
    end
  else Fail NotFound.

(** POST /api/page/* : the page is written; the index is not rebuilt. *)
Definition savePage (param content : string) (st : Server) : Response string * Server :=
  let pagePath := stripLeadingSlash (if decide (param = EmptyString) then "home" else param) in
  if decide (content = EmptyString) then (Fail Required, st)
  else
    match writePage (pagesDir st) (segments (pagePath +:+ ".md")) content with
    | Some es => (Success pagePath, mkServer (Some es) (pageIndex st))
    | None => (Fail ServerError, st)
    end.

(** POST /api/create *)
Definition createPage (pagePath title : string) (st : Server) : Response string * Server :=
  if decide (pagePath = EmptyString) then (Fail Required, st)
  else
    let fileSegs := segments (pagePath +:+ ".md") in
    if access (pagesDir st) fileSegs then (Fail AlreadyExists, st)
    else
      let initialContent :=
        "# " +:+ (if decide (title = EmptyString) then "New Page" else title) +:+
        JS.newline +:+ JS.newline +:+ "Start writing your content here..." +:+ JS.newline in
      match writePage (pagesDir st) fileSegs initialContent with
      | Some es => (Success pagePath, mkServer (Some es) (buildPageIndex (Some es)))
      | None => (Fail ServerError, st)
      end.

(** DELETE /api/page/* *)
Definition deletePage (param : string) (st : Server) : Response unit * Server :=
  let pagePath := stripLeadingSlash param in
  if decide (pagePath = "home") then (Fail Forbidden, st)
  else
    let afterUnlink := unlink (segments (pagePath +:+ ".md")) <$> pagesDir st in
    let afterRm :=
      match lookupPath afterUnlink (segments pagePath) with
      | Some (Directory _ _) => removeTree (segments pagePath) afterUnlink
      | _ => afterUnlink
      end in
    (Success (), mkServer afterRm (buildPageIndex afterRm)).

End Handlers.

(** ** Regular expressions

    [new RegExp(source, 'gi')] for the fragment of the pattern syntax the
    server can build from a page name: pattern characters, escaped
    punctuation, [.], character classes, capturing groups, alternation,
    the greedy quantifiers [*], [+], [?] and the anchors [^] and [$].
    A source outside this fragment (a lazy or counted quantifier, a
    letter or digit escape, a group that opens with [?], a [*] or [+]
    over a term with a capturing group, whose captures are reset at each
    iteration) is reported as [Unmodelled]; a source the constructor
    rejects is reported as [Throws]. *)

Inductive Outcome (A : Type) : Type :=
| Done (a : A)
| Throws        (* an exception, as SyntaxError: Invalid regular expression *)
| Unmodelled.
Arguments Done {A} a.
Arguments Throws {A}.
Arguments Unmodelled {A}.

Definition bindOutcome {A B : Type} (o : Outcome A) (f : A → Outcome B) : Outcome B :=
  match o with
  | Done a => f a
  | Throws => Throws
  | Unmodelled => Unmodelled
  end.

Module Regex.

Inductive regex : Type :=
| Eps
| Chr (c : ascii)
| Dot
| Cls (negated : bool) (ranges : list (ascii * ascii))
| Bol
| Eol
| Cat (r1 r2 : regex)
| Alt (r1 r2 : regex)
| Star (r : regex)
| Grp (index : nat) (r : regex).

(** Canonicalize under the [i] flag, on ASCII: a letter is compared by
    its capital.  (The source also folds the letters above 127; a
    character above 127 never folds to an ASCII one.) *)
Definition canon (c : ascii) : ascii :=
  let n := nat_of_ascii c in
  if (97 <=? n) && (n <=? 122) then ascii_of_nat (n - 32) else c.

Definition sameChar (a c : ascii) : bool := Ascii.eqb (canon a) (canon c).

Definition inRange (a : ascii) (range : ascii * ascii) : bool :=
  let lo := nat_of_ascii range.1 in
  let hi := nat_of_ascii range.2 in
  let within n := (lo <=? n) && (n <=? hi) in
  within (nat_of_ascii a) || within (nat_of_ascii (canon a))
  || within (nat_of_ascii (JS.lowerChar a)).

Definition inClass (negated : bool) (ranges : list (ascii * ascii)) (a : ascii) : bool :=
  xorb negated (existsb (inRange a) ranges).

Definition isLineTerminator (a : ascii) : bool :=
  Ascii.eqb a "010" || Ascii.eqb a "013".

(** The first [length s - length rest] characters of [s]. *)
Fixpoint consumed (s rest : string) : string :=
  match s with
  | EmptyString => EmptyString
  | String c s' =>
      if String.length s <=? String.length rest then EmptyString
      else String c (consumed s' rest)
  end.

Section Matcher.

Context {A : Type}.

(** Length of the whole input, to recognise its start. *)
Variable total : nat.

(** The loop of a greedy star over the matcher [m] of its body: an
    iteration that consumes nothing is refused; [n] bounds the number of
    iterations by the length of the input. *)
Definition starLoop
    (m : string → gmap nat string → (string → gmap nat string → option A) → option A)
    (k : string → gmap nat string → option A)
    : nat → string → gmap nat string → option A :=
  fix loop (n : nat) (s : string) (caps : gmap nat string) : option A :=
    match n with
    | O => k s caps
    | S n' =>
        match m s caps
                (fun s' caps' =>
                   if String.length s' <? String.length s
                   then loop n' s' caps' else None) with
        | Some x => Some x
        | None => k s caps
        end
    end.

(** The backtracking matcher: [k] is what remains to be matched after
    [r]; the first successful path is the result. *)
Fixpoint matchRe (r : regex) (s : string) (caps : gmap nat string)
    (k : string → gmap nat string → option A) {struct r} : option A :=
  match r with
  | Eps => k s caps
  | Chr c =>
      match s with
      | String a s' => if sameChar a c then k s' caps else None
      | EmptyString => None
      end
  | Dot =>
      match s with
      | String a s' => if isLineTerminator a then None else k s' caps
      | EmptyString => None
      end
  | Cls negated ranges =>
      match s with
      | String a s' => if inClass negated ranges a then k s' caps else None
      | EmptyString => None
      end
  | Bol => if String.length s =? total then k s caps else None
  | Eol =>
      match s with
      | EmptyString => k s caps
      | String _ _ => None
      end
  | Cat r1 r2 => matchRe r1 s caps (fun s' caps' => matchRe r2 s' caps' k)
  | Alt r1 r2 =>
      match matchRe r1 s caps k with
      | Some x => Some x
      | None => matchRe r2 s caps k
      end
  | Star r1 => starLoop (matchRe r1) k (String.length s) s caps
  | Grp index r1 =>
      matchRe r1 s caps (fun s' caps' => k s' (<[index := consumed s s']> caps'))
  end.

End Matcher.

(** One attempt at the position where [s] starts, [pre] being the input
    before it: the text after the match and the captures. *)
Definition exec (r : regex) (pre s : string) : option (string * gmap nat string) :=
  matchRe (String.length pre + String.length s) r s ∅ (fun rest caps => Some (rest, caps)).

(** *** The pattern parser *)

Inductive LastTerm : Type := NoTerm | Atom | Quantified.

Inductive ClassPending : Type :=
| NoAtom
| OneAtom (c : ascii)
| AtomDash (c : ascii).

Inductive Mode : Type :=
| Normal
| Escape
| AfterOpen
| ClassStart
| InClass (negated : bool) (ranges : list (ascii * ascii)) (pending : ClassPending)
| ClassEscape (negated : bool) (ranges : list (ascii * ascii)) (pending : ClassPending).

(** A group being read: its index, the alternatives completed so far and
    the terms of the current alternative, both latest first. *)
Record Frame : Type := mkFrame {
  frameIndex : nat;
  frameAlts : list regex;
  frameSeq : list regex
}.

Record PState : Type := mkPState {
  mode : Mode;
  stack : list Frame;
  current : Frame;
  nextGroup : nat;
  lastTerm : LastTerm
}.

Definition seqRegex (terms : list regex) : regex := foldr Cat Eps terms.

Fixpoint altRegex (first : regex) (others : list regex) : regex :=
  match others with
  | [] => first
  | r :: rest => Alt first (altRegex r rest)
  end.

(** The disjunction a frame stands for. *)
Definition frameRegex (f : Frame) : regex :=
  match rev (seqRegex (rev (frameSeq f)) :: frameAlts f) with
  | [] => Eps
  | first :: others => altRegex first others
  end.

Definition isAlphaNum (c : ascii) : bool :=
  let n := nat_of_ascii c in
  ((48 <=? n) && (n <=? 57)) || ((65 <=? n) && (n <=? 90)) || ((97 <=? n) && (n <=? 122)).

(** Characters with a meaning of their own in a pattern. *)
Definition isSyntaxChar (c : ascii) : bool :=
  existsb (Ascii.eqb c)
    ["\"; "^"; "$"; "."; "*"; "+"; "?"; "("; ")"; "["; "]"; "{"; "}"; "|"]%char.

Definition pushTerm (t : regex) (st : PState) : PState :=
  mkPState Normal (stack st)
    (mkFrame (frameIndex (current st)) (frameAlts (current st)) (t :: frameSeq (current st)))
    (nextGroup st) Atom.

Definition pushAssertion (t : regex) (st : PState) : PState :=
  mkPState Normal (stack st)
    (mkFrame (frameIndex (current st)) (frameAlts (current st)) (t :: frameSeq (current st)))
    (nextGroup st) NoTerm.

Definition quantify (q : regex → regex) (st : PState) : Outcome PState :=
  match lastTerm st, frameSeq (current st) with
  | Atom, t :: terms =>
      Done (mkPState Normal (stack st)
              (mkFrame (frameIndex (current st)) (frameAlts (current st)) (q t :: terms))
              (nextGroup st) Quantified)
  | _, _ => Throws
  end.

(** A capturing group occurs in the term. *)
Fixpoint hasGroup (r : regex) : bool :=
  match r with
  | Cat r1 r2 | Alt r1 r2 => hasGroup r1 || hasGroup r2
  | Star r1 => hasGroup r1
  | Grp _ _ => true
  | _ => false
  end.

(** [*] and [+]: only over a term without capturing groups. *)
Definition quantifyLoop (q : regex → regex) (st : PState) : Outcome PState :=
  match lastTerm st, frameSeq (current st) with
  | Atom, t :: _ => if hasGroup t then Unmodelled else quantify q st
  | _, _ => Throws
  end.

Definition closeClass (negated : bool) (ranges : list (ascii * ascii))
    (pending : ClassPending) : regex :=
  Cls negated
    (rev match pending with
         | NoAtom => ranges
         | OneAtom c => (c, c) :: ranges
         | AtomDash c => ("-"%char, "-"%char) :: (c, c) :: ranges
         end).

(** A class atom [x] read in class mode. *)
Definition classAtom (negated : bool) (ranges : list (ascii * ascii))
    (pending : ClassPending) (x : ascii) (st : PState) : Outcome PState :=
  match pending with
  | NoAtom =>
      Done (mkPState (InClass negated ranges (OneAtom x)) (stack st) (current st)
              (nextGroup st) (lastTerm st))
  | OneAtom c =>
      Done (mkPState (InClass negated ((c, c) :: ranges) (OneAtom x)) (stack st) (current st)
              (nextGroup st) (lastTerm st))
  | AtomDash c =>
      if nat_of_ascii x <? nat_of_ascii c then Throws
      else Done (mkPState (InClass negated ((c, x) :: ranges) NoAtom) (stack st) (current st)
                   (nextGroup st) (lastTerm st))
  end.

Definition setMode (m : Mode) (st : PState) : PState :=
  mkPState m (stack st) (current st) (nextGroup st) (lastTerm st).

(** One character of the source in normal mode. *)
Definition stepNormal (c : ascii) (st : PState) : Outcome PState :=
  if isSyntaxChar c then
    if Ascii.eqb c "\" then Done (setMode Escape st)
    else if Ascii.eqb c "[" then Done (setMode ClassStart st)
    else if Ascii.eqb c "(" then
      Done (mkPState AfterOpen (current st :: stack st)
              (mkFrame (nextGroup st) [] []) (S (nextGroup st)) NoTerm)
    else if Ascii.eqb c ")" then
      match stack st with
      | [] => Throws
      | parent :: below =>
          Done (mkPState Normal below
                  (mkFrame (frameIndex parent) (frameAlts parent)
                     (Grp (frameIndex (current st)) (frameRegex (current st))
                      :: frameSeq parent))
                  (nextGroup st) Atom)
      end
    else if Ascii.eqb c "|" then
      Done (mkPState Normal (stack st)
              (mkFrame (frameIndex (current st))
                 (seqRegex (rev (frameSeq (current st))) :: frameAlts (current st)) [])
              (nextGroup st) NoTerm)
    else if Ascii.eqb c "*" then
      match lastTerm st with
      | Quantified => Throws
      | _ => quantifyLoop Star st
      end
    else if Ascii.eqb c "+" then
      match lastTerm st with
      | Quantified => Throws
      | _ => quantifyLoop (fun t => Cat t (Star t)) st
      end
    else if Ascii.eqb c "?" then
      match lastTerm st with
      | Quantified => Unmodelled
      | _ => quantify (fun t => Alt t Eps) st
      end
    else if Ascii.eqb c "." then Done (pushTerm Dot st)
    else if Ascii.eqb c "^" then Done (pushAssertion Bol st)
    else if Ascii.eqb c "$" then Done (pushAssertion Eol st)
    else if Ascii.eqb c "{" then Unmodelled
    else Done (pushTerm (Chr c) st)
  else Done (pushTerm (Chr c) st).

Definition step (c : ascii) (st : PState) : Outcome PState :=
  match mode st with
  | Normal => stepNormal c st
  | Escape => if isAlphaNum c then Unmodelled else Done (pushTerm (Chr c) st)
  | AfterOpen => if Ascii.eqb c "?" then Unmodelled else stepNormal c (setMode Normal st)
  | ClassStart =>
      if Ascii.eqb c "^" then Done (setMode (InClass true [] NoAtom) st)
      else if Ascii.eqb c "]" then Done (pushTerm (closeClass false [] NoAtom) st)
      else if Ascii.eqb c "\" then Done (setMode (ClassEscape false [] NoAtom) st)
      else classAtom false [] NoAtom c st
  | InClass negated ranges pending =>
      if Ascii.eqb c "]" then Done (pushTerm (closeClass negated ranges pending) st)
      else if Ascii.eqb c "\" then Done (setMode (ClassEscape negated ranges pending) st)
      else if Ascii.eqb c "-" then
        match pending with
        | OneAtom a => Done (setMode (InClass negated ranges (AtomDash a)) st)
        | _ => classAtom negated ranges pending c st
        end
      else classAtom negated ranges pending c st
  | ClassEscape negated ranges pending =>
      if isAlphaNum c then Unmodelled else classAtom negated ranges pending c st
  end.

Fixpoint parseFrom (st : PState) (source : string) : Outcome regex :=
  match source with
  | EmptyString =>
      match mode st, stack st with
      | Normal, [] => Done (frameRegex (current st))
      | _, _ => Throws
      end
  | String c rest =>
      match step c st with
      | Done st' => parseFrom st' rest
      | Throws => Throws
      | Unmodelled => Unmodelled
      end
  end.

(** The state after the pattern characters of [name] were read. *)
Fixpoint pushChars (name : string) (st : PState) : PState :=
  match name with
  | EmptyString => st
  | String c rest => pushChars rest (pushTerm (Chr c) st)
  end.

(** The terms a run of pattern characters stands for. *)
Fixpoint chrs (name : string) : list regex :=
  match name with
  | EmptyString => []
  | String c rest => Chr c :: chrs rest
  end.

(** The states a source leads through. *)
Fixpoint run (source : string) (st : PState) : Outcome PState :=
  match source with
  | EmptyString => Done st
  | String c rest =>
      match step c st with
      | Done st' => run rest st'
      | Throws => Throws
      | Unmodelled => Unmodelled
      end
  end.

(** The class [[^\]]]. *)
Definition notBracket : regex := Cls true [("]"%char, "]"%char)].

(** A star over [notBracket], written out: the longest run first, then
    shorter ones. *)
Fixpoint backtrackRun {A : Type} (k : string → option A) (s : string) : option A :=
  match s with
  | EmptyString => k EmptyString
  | String a s' =>
      if Ascii.eqb a "]" then k s
      else match backtrackRun k s' with
           | Some x => Some x
           | None => k s
           end
  end.

Definition initial : PState := mkPState Normal [] (mkFrame 0 [] []) 1 NoTerm.

(** [new RegExp(source, 'gi')] *)
Definition compile (source : string) : Outcome regex := parseFrom initial source.

End Regex.

(** ** Replacement with a regular expression *)

Definition isDigit (c : ascii) : bool :=
  let n := nat_of_ascii c in (48 <=? n) && (n <=? 57).

Definition digitValue (c : ascii) : nat := nat_of_ascii c - 48.

(** Number of capturing groups of a pattern. *)
Fixpoint groupCount (r : Regex.regex) : nat :=
  match r with
  | Regex.Cat r1 r2 | Regex.Alt r1 r2 => max (groupCount r1) (groupCount r2)
  | Regex.Star r1 => groupCount r1
  | Regex.Grp index r1 => max index (groupCount r1)
  | _ => 0
  end.

Definition captureText (caps : gmap nat string) (index : nat) : string :=
  default EmptyString (caps !! index).

(** GetSubstitution for a pattern with [m] capturing groups. *)
Fixpoint substitute (matched before after : string) (caps : gmap nat string) (m : nat)
    (replacement : string) : string :=
  match replacement with
  | EmptyString => EmptyString
  | String c r =>
      if Ascii.eqb c "$" then
        match r with
        | String d r' =>
            if Ascii.eqb d "$" then String "$" (substitute matched before after caps m r')
            else if Ascii.eqb d "&" then matched +:+ substitute matched before after caps m r'
            else if Ascii.eqb d "`" then before +:+ substitute matched before after caps m r'
            else if Ascii.eqb d "'" then after +:+ substitute matched before after caps m r'
            else if isDigit d then
              let one := digitValue d in
              match r' with
              | String e r'' =>
                  let two := 10 * one + digitValue e in
                  if isDigit e && (1 <=? two) && (two <=? m)
                  then captureText caps two +:+ substitute matched before after caps m r''
                  else if (1 <=? one) && (one <=? m)
                  then captureText caps one +:+ substitute matched before after caps m r'
                  else String c (substitute matched before after caps m r)
              | EmptyString =>
                  if (1 <=? one) && (one <=? m)
                  then captureText caps one
                  else String c (substitute matched before after caps m r)
              end
            else String c (substitute matched before after caps m r)
        | EmptyString => String c EmptyString
        end
      else String c (substitute matched before after caps m r)
  end.

Section Replace.

(** One attempt at a position: the input before it and from it on give
    the text after the match and what replaces the match. *)
Variable attempt : string → string → option (string * Outcome string).

(** [s.replace(rx, replacer)] for a global pattern, with the flag that a
    match was found; [skip] counts the characters of the current match
    still to pass, [pre] is the input already passed. *)
Fixpoint replaceScan (skip : nat) (pre s : string) {struct s} : Outcome (string * bool) :=
  match skip with
  | S k =>
      match s with
      | String c s' => replaceScan k (pre +:+ String c EmptyString) s'
      | EmptyString => Done (EmptyString, false)
      end
  | O =>
      match attempt pre s with
      | Some (rest, replaced) =>
          bindOutcome replaced (fun replacement =>
            match s with
            | EmptyString => Done (replacement, true)
            | String c s' =>
                let matchedLength := String.length s - String.length rest in
                bindOutcome (replaceScan (matchedLength - 1) (pre +:+ String c EmptyString) s')
                  (fun out =>
                     Done (replacement +:+
                           (if matchedLength =? 0 then String c out.1 else out.1), true))
            end)
      | None =>
          match s with
          | EmptyString => Done (EmptyString, false)
          | String c s' =>
              bindOutcome (replaceScan 0 (pre +:+ String c EmptyString) s')
                (fun out => Done (String c out.1, out.2))
          end
      end
  end.

End Replace.

(** The attempt of a compiled pattern whose replacement is computed by
    [replacer] from the matched text, the captures and the context. *)
Definition regexAttempt (rx : Regex.regex)
    (replacer : string → gmap nat string → string → string → Outcome string)
    (pre s : string) : option (string * Outcome string) :=
  match Regex.exec rx pre s with
  | Some (rest, caps) => Some (rest, replacer (Regex.consumed s rest) caps pre rest)
  | None => None
  end.

Definition replaceRegex (rx : Regex.regex)
    (replacer : string → gmap nat string → string → string → Outcome string)
    (s : string) : Outcome (string * bool) :=
  replaceScan (regexAttempt rx replacer) 0 EmptyString s.

(** A replacement string as replacer. *)
Definition stringReplacer (rx : Regex.regex) (replacement : string)
    (matched : string) (caps : gmap nat string) (before after : string) : Outcome string :=
  Done (substitute matched before after caps (groupCount rx) replacement).

(** ** Reference rewriter *)

(** Argument of a callback as a template literal prints it. *)
Definition templateText (caps : gmap nat string) (index : nat) : string :=
  default "undefined" (caps !! index).

(** [oldPath.replace(/\//g, '\\/')] *)
Fixpoint escapeSlashes (p : string) : string :=
  match p with
  | EmptyString => EmptyString
  | String c p' =>
      if Ascii.eqb c "/" then String "\" (String "/" (escapeSlashes p'))
      else String c (escapeSlashes p')
  end.

Definition wikilinkSource (oldName : string) : string :=
  "\[\[([^\]]*" +:+ oldName +:+ "[^\]]*)\]\]".

Definition mdLinkSource (oldPath : string) : string :=
  "(\[[^\]]+\]\()/?" +:+ escapeSlashes oldPath +:+ "(\))".

(** The callback of the wikilink replacement: the name is replaced
    inside the captured link text. *)
Definition wikilinkReplacer (oldName newName : string)
    (matched : string) (caps : gmap nat string) (before after : string) : Outcome string :=
  match caps !! 1 with
  | None => Throws
  | Some linkText =>
      bindOutcome (Regex.compile oldName) (fun nameRx =>
      bindOutcome (replaceRegex nameRx (stringReplacer nameRx newName) linkText) (fun out =>
      Done ("[[" +:+ out.1 +:+ "]]")))
  end.

Definition mdLinkReplacer (newPath : string)
    (matched : string) (caps : gmap nat string) (before after : string) : Outcome string :=
  Done (templateText caps 1 +:+ newPath +:+ templateText caps 2).

(** The two substitutions on the content of one page, and [modified]. *)
Definition rewriteContent (oldName newName oldPath newPath content : string)
    : Outcome (string * bool) :=
  bindOutcome (Regex.compile (wikilinkSource oldName)) (fun wikilinkPattern =>
  bindOutcome (replaceRegex wikilinkPattern (wikilinkReplacer oldName newName) content)
    (fun newContent =>
  bindOutcome (Regex.compile (mdLinkSource oldPath)) (fun mdLinkPattern =>
  bindOutcome (replaceRegex mdLinkPattern (mdLinkReplacer newPath) newContent.1)
    (fun finalContent =>
  Done (finalContent.1, newContent.2 || finalContent.2))))).

(** The outcome of a walk: the directory as the walk leaves it, the
    pages recorded so far, and whether the walk ended or threw. *)
Record Walk : Type := mkWalk {
  walkEntries : list Dirent;
  walkUpdates : list string;
  walkStatus : Outcome unit
}.

(** The loop of [updateDirectory] over a listing, [body] being one
    iteration: a throw ends the loop and leaves the rest untouched. *)
Fixpoint walkList (body : Dirent → Dirent * list string * Outcome unit)
    (items : list Dirent) : Walk :=
  match items with
  | [] => mkWalk [] [] (Done tt)
  | item :: rest =>
      match body item with
      | (item', updates, Done _) =>
          let w := walkList body rest in
          mkWalk (item' :: walkEntries w) (updates ++ walkUpdates w) (walkStatus w)
      | (item', updates, status) => mkWalk (item' :: rest) updates status
      end
  end.

Section UpdateReferences.

Variables oldName newName oldPath newPath : string.

(** One iteration of the loop of [updateDirectory]. *)
Fixpoint updateEntry (item : Dirent) (basePath : string) : Dirent * list string * Outcome unit :=
  if hidden item then (item, [], Done tt)
  else
    let relativePath := pathJoin basePath (direntName item) in
    match item with
    | Directory n entries =>
        let walked := walkList (fun e => updateEntry e relativePath) entries in
        (Directory n (walkEntries walked), walkUpdates walked, walkStatus walked)
    | File n content =>
        if JS.endsWith ".md" n then
          match rewriteContent oldName newName oldPath newPath content with
          | Done (finalContent, true) =>
              (File n finalContent, [JS.replaceFirst ".md" EmptyString relativePath], Done tt)
          | Done (_, false) => (item, [], Done tt)
          | Throws => (item, [], Throws)
          | Unmodelled => (item, [], Unmodelled)
          end
        else (item, [], Done tt)
    end.

Definition updateDirectory (entries : list Dirent) (basePath : string) : Walk :=
  walkList (fun e => updateEntry e basePath) entries.

End UpdateReferences.

Definition lastSegment (p : string) : string :=
  List.last (JS.splitChar "/" p) EmptyString.

(** [updatePageReferences(oldPath, newPath)] on the pages directory. *)
Definition updatePageReferences (entries : list Dirent) (oldPath newPath : string) : Walk :=
  updateDirectory (lastSegment oldPath) (lastSegment newPath) oldPath newPath
    entries EmptyString.

(** ** Renaming a page *)

Definition isNameChar (c : ascii) : bool := Regex.isAlphaNum c || Ascii.eqb c "-".

Fixpoint allChars (p : ascii → bool) (s : string) : bool :=
  match s with
  | EmptyString => true
  | String c s' => p c && allChars p s'
  end.

(** [/^[a-z0-9-]+$/i.test(newName)] *)
Definition validName (newName : string) : bool :=
  negb (bool_decide (newName = EmptyString)) && allChars isNameChar newName.

(** [newParts[newParts.length - 1] = newName.toLowerCase()], joined. *)
Definition renamedPath (oldPath newName : string) : string :=
  JS.join "/" (removelast (JS.splitChar "/" oldPath) ++ [JS.toLowerCase newName]).

Definition setName (n : string) (e : Dirent) : Dirent :=
  match e with
  | File _ content => File n content
  | Directory _ entries => Directory n entries
  end.

(** [fs.rename] of the entry named [from] to the name [to] inside one
    listing: a missing source, or a target that cannot be replaced, is
    an error and changes nothing. *)
Definition renameIn (from to : string) (es : list Dirent) : option (list Dirent) :=
  match findEntry from es with
  | None => None
  | Some source =>
      if decide (from = to) then Some es
      else
        match findEntry to es with
        | None => Some (setEntry from (setName to source) es)
        | Some target =>
            match source, target with
            | File _ _, File _ _ | Directory _ _, Directory _ [] =>
                Some (setEntry from (setName to source)
                        (filter (fun e => direntName e ≠ to) es))
            | _, _ => None
            end
        end
  end.

(** [fs.rename(oldSegs, ...)] to the sibling name [to]. *)
Definition renameSibling (oldSegs : list string) (to : string) (es : list Dirent)
    : option (list Dirent) :=
  match oldSegs with
  | [] => None
  | _ :: _ =>
      match lookupPath (Some es) (parentSegs oldSegs) with
      | Some (Directory _ dir) =>
          match renameIn (leafSeg oldSegs) to dir with
          | Some dir' => Some (alterDir (parentSegs oldSegs) (fun _ => dir') es)
          | None => None
          end
      | _ => None
      end
  end.

Record RenameBody : Type := mkRenameBody {
  rename_oldPath : string;
  rename_newPath : string;
  rename_updatedPages : list string
}.

(** POST /api/rename.  The result is [None] when a pattern built from
    [oldPath] lies outside the modelled fragment.  The folder of the new
    path is the sibling of the old folder that carries the new name,
    unless the old path ends in an empty segment, in [.] or in a [..]
    that takes a segment back: then the old folder holds the new one,
    [fs.rename] fails and the failure is ignored. *)
Definition renamePage (oldPath newName : string) (st : Server)
    : option (Response RenameBody * Server) :=
  if decide (oldPath = EmptyString ∨ newName = EmptyString) then Some (Fail Required, st)
  else if decide (oldPath = "home") then Some (Fail Forbidden, st)
  else if negb (validName newName) then Some (Fail InvalidName, st)
  else
    let newPath := renamedPath oldPath newName in
    if pageExists (pagesDir st) newPath then Some (Fail AlreadyExists, st)
    else if negb (access (pagesDir st) (segments (oldPath +:+ ".md"))) then Some (Fail NotFound, st)
    else
      match pagesDir st with
      | None => Some (Fail ServerError, st)
      | Some entries =>
          let w := updatePageReferences entries oldPath newPath in
          match walkStatus w with
          | Unmodelled => None
          | Throws => Some (Fail ServerError, mkServer (Some (walkEntries w)) (pageIndex st))
          | Done _ =>
              let newLeaf := JS.toLowerCase newName in
              match renameSibling (segments (oldPath +:+ ".md")) (newLeaf +:+ ".md")
                      (walkEntries w) with
              | None => Some (Fail ServerError, mkServer (Some (walkEntries w)) (pageIndex st))
              | Some renamed =>
                  let final :=
                    if decide (segments oldPath `prefix_of` segments newPath)
                    then renamed
                    else default renamed (renameSibling (segments oldPath) newLeaf renamed) in
                  Some (Success (mkRenameBody oldPath newPath (walkUpdates w)),
                        mkServer (Some final) (buildPageIndex (Some final)))
              end
          end
      end.

(** ** The specification's wording, for comparison *)

(** The split of a wikilink as the specification words it: the inner
    text as written is cut at its first [|]; the left side, normalized,
    is the target and the right side is the display text; without a [|]
    the display text is the inner text as written. *)
Definition specNameAndDisplay (inner : string) : string * string :=
  match JS.cutAtFirst "|" inner with
  | Some (target, display) => (normalizeName target, display)
  | None => (normalizeName inner, inner)
  end.

(** [n] hyphens, and the delimiter they form between two newlines. *)
Fixpoint hyphens (n : nat) : string :=
  match n with
  | O => EmptyString
  | S k => String "-" (hyphens k)
  end.

Definition rule (n : nat) : string := String "010" (hyphens n +:+ JS.newline).

(** No line of [s] that has a line before it and a newline after it
    consists of three or more hyphens. *)
Definition noRule (s : string) : Prop :=
  ∀ a n b, 3 ≤ n → s ≠ a +:+ rule n +:+ b.

(** The body and footer as the specification words them: the delimiter
    is a line of three or more hyphens with a blank line before it and a
    blank line after it; the last such line separates body and footer. *)
Definition isRuleLine (l : string) : bool :=
  (3 <=? String.length l) && bool_decide (l = hyphens (String.length l)).

Definition isBlankLine (l : string) : bool :=
  bool_decide (JS.trim l = EmptyString).

Fixpoint specCut (seen lines : list string) : option (list string * list string) :=
  match lines with
  | [] => None
  | l :: rest =>
      match specCut (seen ++ [l]) rest with
      | Some cut => Some cut
      | None =>
          if isRuleLine l
             && match last seen with Some p => isBlankLine p | None => false end
             && match rest with q :: _ => isBlankLine q | [] => false end
          then Some (seen, rest) else None
      end
  end.

Definition specSplitFooter (content : string) : string * string :=
  match specCut [] (JS.splitChar "010" content) with
  | Some (before, after) => (JS.join JS.newline before, JS.join JS.newline after)
  | None => (content, EmptyString)
  end.

(** *** The index after a rebuild, key by key *)

(** The pages, in walk order, that write [key] as their path key and as
    their leaf key. *)
Definition pathWriters (key : string) (pages : list (string * string))
    : list (string * string) :=
  filter (fun pg => JS.toLowerCase pg.2 = key) pages.

Definition leafWriters (key : string) (pages : list (string * string))
    : list (string * string) :=
  filter (fun pg => JS.toLowerCase pg.1 = key) pages.

(** What a key reads after the rebuild: the path of the last page that
    has the key as its lowercased path; without such a page, the path of
    the first page that has the key as its lowercased leaf name. *)
Definition specIndexRead (key : string) (pages : list (string * string)) : option string :=
  match last (pathWriters key pages) with
  | Some pg => Some pg.2
  | None =>
      match head (leafWriters key pages) with
      | Some pg => Some pg.2
      | None => None
      end
  end.

(** Nodes of a tree at any depth. *)
Inductive occursIn (n : TreeNode) : list TreeNode → Prop :=
| occurs_here (tree : list TreeNode) : n ∈ tree → occursIn n tree
| occurs_below (m : TreeNode) (tree : list TreeNode) :
    m ∈ tree → occursIn n (children m) → occursIn n tree.

(** The tree invariant as the specification words it. *)
Definition specTreeInvariant (n : TreeNode) : Prop :=
  (nodeType n = page ↔ hasContent n = true ∧ children n = []) ∧
  (nodeType n = page_parent ↔ hasContent n = true ∧ children n ≠ []) ∧
  (nodeType n = folder ↔ hasContent n = false).

(** The invariant the tree builder keeps. *)
Definition treeInvariant (n : TreeNode) : Prop :=
  (nodeType n = folder ↔ hasContent n = false) ∧
  (nodeType n = page → hasContent n = true ∧ children n = []) ∧
  (nodeType n = page_parent → hasContent n = true) ∧
  (hasContent n = true → children n ≠ [] → nodeType n = page_parent).

(** A comparison by character codes, standing for [localeCompare] in
    evaluations. *)
Definition compareByCode (a b : string) : Z :=
  match String.compare a b with
  | Lt => (-1)%Z
  | Eq => 0%Z
  | Gt => 1%Z
  end.

(** *** The reference rewriter in the specification's words *)

(** [p] at the start of [s], letter case apart: what follows it. *)
Fixpoint stripPrefixCI (p s : string) : option string :=
  match p, s with
  | EmptyString, _ => Some s
  | String a p', String b s' =>
      if Regex.sameChar b a then stripPrefixCI p' s' else None
  | String _ _, EmptyString => None
  end.

(** [p] occurs in [s], letter case apart. *)
Fixpoint containsCI (p s : string) : bool :=
  match stripPrefixCI p s with
  | Some _ => true
  | None =>
      match s with
      | EmptyString => false
      | String _ s' => containsCI p s'
      end
  end.

Section SubstituteAll.

(** What is found at a position: the text after it and its replacement. *)
Variable found : string → option (string * string).

(** Every finding replaced, from left to right, and whether there was
    one; [skip] counts the characters of the current finding still to
    pass. *)
Fixpoint substituteAll (skip : nat) (s : string) {struct s} : string * bool :=
  match skip with
  | S k =>
      match s with
      | String _ s' => substituteAll k s'
      | EmptyString => (EmptyString, false)
      end
  | O =>
      match found s with
      | Some (rest, replacement) =>
          match s with
          | EmptyString => (replacement, true)
          | String c s' =>
              let foundLength := String.length s - String.length rest in
              let out := substituteAll (foundLength - 1) s' in
              (replacement +:+ (if foundLength =? 0 then String c out.1 else out.1), true)
          end
      | None =>
          match s with
          | EmptyString => (EmptyString, false)
          | String c s' =>
              let out := substituteAll 0 s' in (String c out.1, out.2)
          end
      end
  end.

End SubstituteAll.

(** Every occurrence of [oldName] in [text], letter case apart, replaced
    by [newName]. *)
Definition replaceOccurrences (oldName newName text : string) : string :=
  (substituteAll
     (fun s => match stripPrefixCI oldName s with
               | Some rest => Some (rest, newName)
               | None => None
               end) 0 text).1.

(** A wikilink bracket pair at the start of [s]: its inner text and the
    text after it. *)
Definition bracketPairAt (s : string) : option (string * string) :=
  match JS.stripPrefix "[[" s with
  | Some s1 =>
      let '(inner, s2) := spanNotBracket s1 in
      match JS.stripPrefix "]]" s2 with
      | Some rest => Some (inner, rest)
      | None => None
      end
  | None => None
  end.

(** (a) a bracket pair whose inner text contains [oldName] has every
    occurrence of it replaced by [newName]. *)
Definition specWikilinkAt (oldName newName s : string) : option (string * string) :=
  match bracketPairAt s with
  | Some (inner, rest) =>
      if containsCI oldName inner
      then Some (rest, "[[" +:+ replaceOccurrences oldName newName inner +:+ "]]")
      else None
  | None => None
  end.

(** A markdown link at the start of [s] with a non-empty label free of
    closing brackets: the label, the text after the opening parenthesis. *)
Definition mdLinkAt (s : string) : option (string * string) :=
  match JS.stripPrefix "[" s with
  | Some s1 =>
      let '(label, s2) := spanNotBracket s1 in
      match label with
      | EmptyString => None
      | String _ _ =>
          match JS.stripPrefix "](" s2 with
          | Some s3 => Some (label, s3)
          | None => None
          end
      end
  | None => None
  end.

(** The target [oldPath], letter case apart, up to the closing
    parenthesis: the text after the link. *)
Definition targetAt (oldPath s : string) : option string :=
  match stripPrefixCI oldPath s with
  | Some s' => JS.stripPrefix ")" s'
  | None => None
  end.

(** (b) a markdown link whose target is [oldPath], with or without a
    leading slash, has the target replaced by [newPath]. *)
Definition specMdLinkAt (oldPath newPath s : string) : option (string * string) :=
  match mdLinkAt s with
  | Some (label, s3) =>
      let replacement := "[" +:+ label +:+ "](" +:+ newPath +:+ ")" in
      match
        match JS.stripPrefix "/" s3 with
        | Some s4 => targetAt oldPath s4
        | None => None
        end
      with
      | Some rest => Some (rest, replacement)
      | None =>
          match targetAt oldPath s3 with
          | Some rest => Some (rest, replacement)
          | None => None
          end
      end
  | None => None
  end.

(** The two substitutions on one page, and whether either applied. *)
Definition specRewriteContent (oldName newName oldPath newPath content : string)
    : string * bool :=
  let newContent := substituteAll (specWikilinkAt oldName newName) 0 content in
  let finalContent := substituteAll (specMdLinkAt oldPath newPath) 0 newContent.1 in
  (finalContent.1, newContent.2 || finalContent.2).

Section SpecWalk.

Variables oldName newName oldPath newPath : string.

(** The walk over the visible pages: a page is rewritten and recorded
    exactly when a substitution applied to it. *)
Fixpoint specUpdateEntry (item : Dirent) (basePath : string) : Dirent * list string :=
  if hidden item then (item, [])
  else
    let relativePath := pathJoin basePath (direntName item) in
    match item with
    | Directory n entries =>
        let walked := map (fun e => specUpdateEntry e relativePath) entries in
        (Directory n (fst <$> walked), concat (snd <$> walked))
    | File n content =>
        if JS.endsWith ".md" n then
          let '(finalContent, modified) :=
            specRewriteContent oldName newName oldPath newPath content in
          if modified
          then (File n finalContent, [JS.replaceFirst ".md" EmptyString relativePath])
          else (item, [])
        else (item, [])
    end.

End SpecWalk.

Definition specUpdatePageReferences (entries : list Dirent) (oldPath newPath : string)
    : list Dirent * list string :=
  let walked :=
    map (fun e => specUpdateEntry (lastSegment oldPath) (lastSegment newPath)
                    oldPath newPath e EmptyString) entries in
  (fst <$> walked, concat (snd <$> walked)).

(** Characters that stand for themselves in a pattern and are no path
    separator. *)
Definition plainChar (c : ascii) : bool :=
  negb (Regex.isSyntaxChar c) && negb (Ascii.eqb c "/").

Definition plainName (s : string) : bool := allChars plainChar s.

Definition plainPath (s : string) : bool :=
  allChars (fun c => plainChar c || Ascii.eqb c "/") s.

(** A replacement text without [$]. *)
Definition dollarFree (s : string) : bool := negb (JS.includesChar "$" s).

(** The patterns of the rewriter as compiled for plain names. *)
Definition wikilinkRegex (name : string) : Regex.regex :=
  Regex.seqRegex
    [Regex.Chr "["; Regex.Chr "[";
     Regex.Grp 1
       (Regex.seqRegex
          (Regex.Star Regex.notBracket ::
           Regex.chrs name ++ [Regex.Star Regex.notBracket]));
     Regex.Chr "]"; Regex.Chr "]"].

Definition mdLinkRegex (path : string) : Regex.regex :=
  Regex.seqRegex
    (Regex.Grp 1
       (Regex.seqRegex
          [Regex.Chr "["; Regex.Cat Regex.notBracket (Regex.Star Regex.notBracket);
           Regex.Chr "]"; Regex.Chr "("]) ::
     Regex.Alt (Regex.Chr "/") Regex.Eps ::
     Regex.chrs path ++ [Regex.Grp 2 (Regex.seqRegex [Regex.Chr ")"])]).

(** An entry with the contents of its files erased. *)
Fixpoint shape (e : Dirent) : Dirent :=
  match e with
  | File n _ => File n EmptyString
  | Directory n entries => Directory n (map shape entries)
  end.

(** ** Start-up arguments *)

(** [args.indexOf(x)] *)
Fixpoint indexOf (x : string) (args : list string) : option nat :=
  match args with
  | [] => None
  | a :: rest => if decide (a = x) then Some 0 else S <$> indexOf x rest
  end.

Section ParseArgs.

(** [path.resolve], which depends on the working directory. *)
Variable resolve : string → string.

(** [parseArgs()], [args] being [process.argv.slice(2)]. *)
Definition parseArgs (args : list string) : string :=
  match indexOf "--home" args with
  | Some homeIndex =>
      match args !! (homeIndex + 1) with
      | Some value =>
          if decide (value = EmptyString) then resolve "./wiki-data" else resolve value
      | None => resolve "./wiki-data"
      end
  | None => resolve "./wiki-data"
  end.

End ParseArgs.

(** ** More handlers *)

Section MoreHandlers.

Variable marked : string → string.

(** POST /api/preview *)
Definition previewPage (content : string) (currentPage : option string) (st : Server)
    : Response string :=
  if decide (content = EmptyString) then Fail Required
  else
    let current :=
      match currentPage with
      | Some c => if decide (c = EmptyString) then "home" else c
      | None => "home"
      end in
    Success (marked (processWikilinks (pageIndex st) content (Some current))).

End MoreHandlers.

(** GET /api/tree *)
Definition getTree (localeCompare : string → string → Z) (st : Server)
    : Response (list TreeNode) :=
  match pagesDir st with
  | Some items => Success (buildTree localeCompare items EmptyString)
  | None => Fail ServerError
  end.

(** GET /api/exists/* *)
Definition existsPage (param : string) (st : Server) : bool :=
  pageExists (pagesDir st) (stripLeadingSlash param).

(** One iteration of the loop of [scanChildren]; the path of an item is
    built by the template [`${relativePath}/${item.name}`]. *)
Fixpoint scanChildren (item : Dirent) (relativePath : string) : list string :=
  if hidden item then []
  else
    let itemPath :=
      if decide (relativePath = EmptyString) then direntName item
      else relativePath +:+ "/" +:+ direntName item in
    match item with
    | File n _ =>
        if JS.endsWith ".md" n then [JS.replaceFirst ".md" EmptyString itemPath] else []
    | Directory _ entries => flat_map (fun e => scanChildren e itemPath) entries
    end.

(** GET /api/children/* : the child pages below a folder; a path that is
    no directory has none. *)
Definition getChildren (param : string) (st : Server) : list string :=
  let pagePath := stripLeadingSlash param in
  match lookupPath (pagesDir st) (segments pagePath) with
  | Some (Directory _ entries) => flat_map (fun e => scanChildren e pagePath) entries
  | _ => []
  end.

(** ** References to a page *)

Section MatchAll.

(** One attempt at a position: the text after the match. *)
Variable attempt : string → string → option string.

(** The number of matches [s.matchAll(rx)] yields; [skip] counts the
    characters of the current match still to pass. *)
Fixpoint matchScan (skip : nat) (pre s : string) {struct s} : nat :=
  match skip with
  | S k =>
      match s with
      | String c s' => matchScan k (pre +:+ String c EmptyString) s'
      | EmptyString => 0
      end
  | O =>
      match attempt pre s with
      | Some rest =>
          match s with
          | EmptyString => 1
          | String c s' =>
              let matchedLength := String.length s - String.length rest in
              S (matchScan (matchedLength - 1) (pre +:+ String c EmptyString) s')
          end
      | None =>
          match s with
          | EmptyString => 0
          | String c s' => matchScan 0 (pre +:+ String c EmptyString) s'
          end
      end
  end.

End MatchAll.

(** [[...s.matchAll(rx)].length] *)
Definition countMatches (rx : Regex.regex) (s : string) : nat :=
  matchScan (fun pre t => fst <$> Regex.exec rx pre t) 0 EmptyString s.

Definition mdLinkFindSource (pagePath : string) : string :=
  "\[[^\]]+\]\(/?" +:+ escapeSlashes pagePath +:+ "\)".

Record Reference : Type := mkReference {
  ref_file : string;
  ref_filePath : string;
  ref_wikilinks : nat;
  ref_mdlinks : nat;
  ref_total : nat
}.

(** The two counts for the content of one page. *)
Definition countReferences (pageName pagePath content : string) : Outcome (nat * nat) :=
  bindOutcome (Regex.compile (wikilinkSource pageName)) (fun wikilinkPattern =>
  bindOutcome (Regex.compile (mdLinkFindSource pagePath)) (fun mdLinkPattern =>
  Done (countMatches wikilinkPattern content, countMatches mdLinkPattern content))).

(** The loop of [scanDirectory] over a listing: a throw ends the scan. *)
Fixpoint scanList (body : Dirent → Outcome (list Reference)) (items : list Dirent)
    : Outcome (list Reference) :=
  match items with
  | [] => Done []
  | item :: rest =>
      bindOutcome (body item) (fun found =>
      bindOutcome (scanList body rest) (fun more => Done (found ++ more)))
  end.

Section FindReferences.

Variables pageName pagePath : string.

(** One iteration of the loop of [scanDirectory] in [findPageReferences],
    on an item of the directory [dir]; [path.join(dir, item.name)] is
    written out for a [dir] that is an absolute path below the root, as
    [PAGES_DIR] is, and a name read from a directory. *)
Fixpoint referencesIn (item : Dirent) (dir basePath : string) : Outcome (list Reference) :=
  if hidden item then Done []
  else
    let fullPath := dir +:+ "/" +:+ direntName item in
    let relativePath := pathJoin basePath (direntName item) in
    match item with
    | Directory _ entries => scanList (fun e => referencesIn e fullPath relativePath) entries
    | File n content =>
        if JS.endsWith ".md" n then
          bindOutcome (countReferences pageName pagePath content) (fun counts =>
            if (0 <? counts.1) || (0 <? counts.2)
            then Done [mkReference (JS.replaceFirst ".md" EmptyString relativePath) fullPath
                         counts.1 counts.2 (counts.1 + counts.2)]
            else Done [])
        else Done []
    end.

End FindReferences.

(** [findPageReferences(pagePath)] on the pages directory, whose own
    path is [PAGES_DIR]. *)
Definition findPageReferences (PAGES_DIR : string) (entries : list Dirent)
    (pagePath : string) : Outcome (list Reference) :=
  scanList (fun e => referencesIn (lastSegment pagePath) pagePath e PAGES_DIR EmptyString)
    entries.

(** ** Image list *)

(** [rx.test(s)] for a pattern without the [g] flag: a match at some
    position of [s], [pre] being the input before it. *)
Fixpoint searchFrom (rx : Regex.regex) (pre s : string) : bool :=
  match Regex.exec rx pre s with
  | Some _ => true
  | None =>
      match s with
      | EmptyString => false
      | String c s' => searchFrom rx (pre +:+ String c EmptyString) s'
      end
  end.

Definition imageSource : string := "\.(jpg|jpeg|png|gif|svg|webp)$".

(** [files.filter(f => /\.(jpg|jpeg|png|gif|svg|webp)$/i.test(f))] *)
Definition imageFiles (files : list string) : Outcome (list string) :=
  bindOutcome (Regex.compile imageSource) (fun rx =>
  Done (filter (fun f => searchFrom rx EmptyString f = true) files)).

(** The extensions the image list admits, and the test in plain words. *)
Definition imageExtensions : list string :=
  [".jpg"; ".jpeg"; ".png"; ".gif"; ".svg"; ".webp"].

Definition hasImageExtension (f : string) : bool :=
  existsb (fun ext => JS.endsWith ext (JS.toLowerCase f)) imageExtensions.

(** ** Helpers of the hierarchy test *)

(** [findNode(tree, path)]: the children of the node a path leads to. *)
Fixpoint findNodeFrom (current : list TreeNode) (parts : list string)
    : option (list TreeNode) :=
  match parts with
  | [] => Some current
  | part :: rest =>
      match list_find (fun n => nodeName n = part) current with
      | Some (_, node) => findNodeFrom (children node) rest
      | None => None
      end
  end.

Definition findNode (tree : list TreeNode) (path : string) : option (list TreeNode) :=
  findNodeFrom tree (JS.splitChar "/" path).

(** [findNodeByName(tree, name)]: the first node of that name, a node
    before its children and these before the nodes after it. *)
Fixpoint findInNode (name : string) (node : TreeNode) : option TreeNode :=
  if decide (nodeName node = name) then Some node
  else
    let 'mkNode _ _ _ _ below := node in
    foldr (fun child found =>
             match findInNode name child with
             | Some n => Some n
             | None => found
             end) None below.

Definition findNodeByName (tree : list TreeNode) (name : string) : option TreeNode :=
  foldr (fun node found =>
           match findInNode name node with
           | Some n => Some n
           | None => found
           end) None tree.

(** ** Directory listings as a file system gives them *)

(** A name a directory entry can carry. *)
Definition properName (n : string) : bool :=
  negb (bool_decide (n = EmptyString)) && negb (bool_decide (n = "."))
  && negb (bool_decide (n = "..")) && negb (JS.includesChar "/" n).

(** Entries with proper names, no name twice in a directory. *)
Fixpoint wellFormed (e : Dirent) : bool :=
  properName (direntName e) &&
  match e with
  | File _ _ => true
  | Directory _ entries =>
      bool_decide (NoDup (map direntName entries)) && forallb wellFormed entries
  end.

Definition wellFormedDir (entries : list Dirent) : bool :=
  bool_decide (NoDup (map direntName entries)) && forallb wellFormed entries.

(** A key that holds a path with that key as its lowercased form. *)
Definition holdsPath (idx : gmap string string) (key : string) : Prop :=
  ∃ p, idx !! key = Some p ∧ p ≠ EmptyString ∧ JS.toLowerCase p = key.

(** The path of a page as [path.join] leaves it: without empty segments,
    [.] segments and the segments a [..] takes back. *)
Definition normalPath (pagePath : string) : string :=
  JS.dropEnd 3 (JS.join "/" (segments (pagePath +:+ ".md"))).

(** A node placed below [basePath]: its name is no hidden one, its path
    is the base path joined with its name, and its children are placed
    below its own path. *)
Inductive wellPlaced (basePath : string) (n : TreeNode) : Prop :=
| placed :
    JS.startsWith "." (nodeName n) = false →
    nodePath n = pathJoin basePath (nodeName n) →
    Forall (wellPlaced (nodePath n)) (children n) →
    wellPlaced basePath n.

(** The names one call of [buildTree] makes nodes for: the keys of
    [allNames]. *)
Definition levelNames (items : list Dirent) : list string :=
  insertionOrder (insertionOrder (omap (M:=list) mdKey items) ++
                  insertionOrder (omap (M:=list) dirKey items)).

(** The image pattern as compiled. *)
Definition imageRegex : Regex.regex :=
  Regex.seqRegex
    [Regex.Chr ".";
     Regex.Grp 1
       (Regex.altRegex (Regex.seqRegex (Regex.chrs "jpg"))
          (map (fun w => Regex.seqRegex (Regex.chrs w)) ["jpeg"; "png"; "gif"; "svg"; "webp"]));
     Regex.Eol].

(** [ext] is all of [s], letter case apart. *)
Definition matchesCI (ext s : string) : bool :=
  match stripPrefixCI ext s with
  | Some EmptyString => true
  | _ => false
  end.

(** The markdown link pattern of [findPageReferences] as compiled for a
    plain path. *)
Definition mdLinkFindRegex (path : string) : Regex.regex :=
  Regex.seqRegex
    ([Regex.Chr "["; Regex.Cat Regex.notBracket (Regex.Star Regex.notBracket);
      Regex.Chr "]"; Regex.Chr "("; Regex.Alt (Regex.Chr "/") Regex.Eps] ++
     Regex.chrs path ++ [Regex.Chr ")"]).

(** * Properties *)

#[local] Arguments String.append !_ _ / : simpl nomatch.

(** ** Sample evaluations *)

Example normalizeName_ex : normalizeName "Getting  Started" = "getting-started".
Proof. reflexivity. Qed.

Example wikilinkMatches_ex :
  wikilinkMatches "see [[Atari]] and [[ a | b ]], not [[]] nor [x]" = ["Atari"; " a | b "].
Proof. reflexivity. Qed.

Example processWikilinks_hit :
  processWikilinks {[ "atari" := "computers/atari" ]} "see [[Atari]]." (Some "docs") =
  "see " +:+ linkHtml "computers/atari" true "Atari" +:+ ".".
Proof. vm_compute. reflexivity. Qed.

Example processWikilinks_miss_child :
  processWikilinks ∅ "[[Nintendo]]" (Some "systems/retro") =
  linkHtml "systems/retro/nintendo" false "Nintendo".
Proof. vm_compute. reflexivity. Qed.

Example processWikilinks_miss_home :
  processWikilinks ∅ "[[Nintendo]]" (Some "home") = linkHtml "nintendo" false "Nintendo".
Proof. vm_compute. reflexivity. Qed.

(** ** String lemmas *)

Lemma append_String (c : ascii) (s t : string) : String c s +:+ t = String c (s +:+ t).
Proof. reflexivity. Qed.

Lemma append_empty_r (s : string) : s +:+ EmptyString = s.
Proof. induction s as [|c s IH]; [done | rewrite append_String; by f_equal]. Qed.

Lemma append_assoc (s t u : string) : (s +:+ t) +:+ u = s +:+ t +:+ u.
Proof. induction s as [|c s IH]; [done | rewrite !append_String; by f_equal]. Qed.

Lemma length_append (s t : string) :
  String.length (s +:+ t) = String.length s + String.length t.
Proof. induction s as [|c s IH]; simpl; [done | by rewrite IH]. Qed.

Lemma includesChar_app (c : ascii) (l r : string) :
  JS.includesChar c (l +:+ r) = JS.includesChar c l || JS.includesChar c r.
Proof.
  induction l as [|a l IH]; [done |].
  rewrite append_String. simpl.
  destruct (Ascii.eqb a c); [done | exact IH].
Qed.

Lemma splitChar_without (c : ascii) (s : string) :
  JS.includesChar c s = false → JS.splitChar c s = [s].
Proof.
  induction s as [|a s IH]; simpl; [done |].
  destruct (Ascii.eqb a c); [done |].
  intros H. by rewrite (IH H).
Qed.

Lemma splitChar_first (c : ascii) (l r : string) :
  JS.includesChar c l = false →
  JS.splitChar c (l +:+ String c r) = l :: JS.splitChar c r.
Proof.
  induction l as [|a l IH].
  - intros _. change (EmptyString +:+ String c r) with (String c r).
    simpl. by rewrite Ascii.eqb_refl.
  - rewrite append_String. simpl.
    destruct (Ascii.eqb a c); [done |].
    intros H. by rewrite (IH H).
Qed.

(** ** Wikilink resolution *)

Lemma wikilinkHtml_unfold (pageIndex : gmap string string)
    (currentPagePath : option string) (inner : string) :
  wikilinkHtml pageIndex currentPagePath inner =
  linkHtml (linkTarget pageIndex currentPagePath (pageNameAndDisplay inner).1).1
           (linkTarget pageIndex currentPagePath (pageNameAndDisplay inner).1).2
           (pageNameAndDisplay inner).2.
Proof.
  unfold wikilinkHtml.
  destruct (pageNameAndDisplay inner) as [pageName displayText]; simpl.
  by destruct (linkTarget pageIndex currentPagePath pageName).
Qed.

(** *** One wikilink in a text *)

Lemma spanNotBracket_run (run rest : string) :
  JS.includesChar "]" run = false →
  spanNotBracket (run +:+ String "]" rest) = (run, String "]" rest).
Proof.
  induction run as [|c run IH]; [done |].
  rewrite append_String. cbn [JS.includesChar spanNotBracket].
  destruct (Ascii.eqb c "]"); [done |]. intros H. by rewrite (IH H).
Qed.

Lemma wikilinkAt_link (inner post : string) :
  inner ≠ EmptyString → JS.includesChar "]" inner = false →
  wikilinkAt ("[[" +:+ inner +:+ "]]" +:+ post) = Some (inner, post).
Proof.
  intros Hne Hinner. unfold wikilinkAt.
  change (JS.stripPrefix "[[" ("[[" +:+ inner +:+ "]]" +:+ post))
    with (Some (inner +:+ String "]" (String "]" post))).
  cbv beta iota. rewrite (spanNotBracket_run _ _ Hinner).
  by destruct inner.
Qed.

Lemma wikilinkAt_other (c : ascii) (s : string) :
  Ascii.eqb c "[" = false → wikilinkAt (String c s) = None.
Proof.
  intros Hc. unfold wikilinkAt. cbn [JS.stripPrefix].
  by rewrite Ascii.eqb_sym, Hc.
Qed.

Lemma wikilinkScan_skip (a t : string) :
  wikilinkScan (String.length a) (a +:+ t) = wikilinkScan 0 t.
Proof.
  induction a as [|c a IH]; [by destruct t |].
  rewrite append_String. exact IH.
Qed.

Lemma wikilinkScan_pre (pre t : string) :
  JS.includesChar "[" pre = false → wikilinkScan 0 (pre +:+ t) = wikilinkScan 0 t.
Proof.
  induction pre as [|c pre IH]; [done |].
  rewrite append_String. cbn [JS.includesChar wikilinkScan].
  destruct (Ascii.eqb c "[") eqn:Hc; [done |].
  intros H. by rewrite (wikilinkAt_other _ _ Hc), (IH H).
Qed.

(** The matches of a text whose first bracket opens a wikilink. *)
Lemma wikilinkMatches_link (pre inner post : string) :
  JS.includesChar "[" pre = false →
  inner ≠ EmptyString → JS.includesChar "]" inner = false →
  wikilinkMatches (pre +:+ "[[" +:+ inner +:+ "]]" +:+ post) =
  inner :: wikilinkMatches post.
Proof.
  intros Hpre Hne Hinner. unfold wikilinkMatches.
  rewrite (wikilinkScan_pre _ _ Hpre).
  change ("[[" +:+ inner +:+ "]]" +:+ post)
    with (String "[" ("[" +:+ inner +:+ "]]" +:+ post)).
  cbn [wikilinkScan].
  change (String "[" ("[" +:+ inner +:+ "]]" +:+ post))
    with ("[[" +:+ inner +:+ "]]" +:+ post).
  rewrite (wikilinkAt_link _ _ Hne Hinner). f_equal.
  assert ("[" +:+ inner +:+ "]]" +:+ post = ("[" +:+ inner +:+ "]]") +:+ post) as ->
    by (by rewrite !append_assoc).
  assert (String.length inner + 3 = String.length ("[" +:+ inner +:+ "]]")) as ->.
  { rewrite !length_append. simpl. lia. }
  apply wikilinkScan_skip.
Qed.

Lemma stripPrefix_app (p rest : string) : JS.stripPrefix p (p +:+ rest) = Some rest.
Proof.
  induction p as [|a p IH]; [done |].
  rewrite append_String. cbn [JS.stripPrefix]. by rewrite Ascii.eqb_refl.
Qed.

(** The first occurrence of a text that starts with a bracket, after a
    text without brackets. *)
Lemma cutAtFirst_pre (pre p post : string) :
  JS.includesChar "[" pre = false →
  JS.cutAtFirst (String "[" p) (pre +:+ String "[" p +:+ post) = Some (pre, post).
Proof.
  induction pre as [|c pre IH]; intros Hpre.
  - change (EmptyString +:+ String "[" p +:+ post) with (String "[" p +:+ post).
    destruct (String "[" p +:+ post) eqn:Hs; [done |].
    cbn [JS.cutAtFirst]. by rewrite <- Hs, stripPrefix_app.
  - rewrite append_String. cbn [JS.includesChar] in Hpre.
    destruct (Ascii.eqb c "[") eqn:Hc; [done |].
    cbn [JS.cutAtFirst JS.stripPrefix]. rewrite Ascii.eqb_sym, Hc.
    by rewrite (IH Hpre).
Qed.

(** A replacement text without dollar signs is used as it is. *)
Lemma getSubstitution_dollarFree (matched before after replacement : string) :
  dollarFree replacement = true →
  JS.getSubstitution matched before after replacement = replacement.
Proof.
  unfold dollarFree. induction replacement as [|c r IH]; [done |].
  cbn [JS.includesChar JS.getSubstitution].
  destruct (Ascii.eqb c "$"); [done |].
  intros H. by rewrite IH.
Qed.

(** A text with one wikilink: the anchor takes the place of the link. *)
Lemma processWikilinks_link (pageIndex : gmap string string)
    (currentPagePath : option string) (pre inner post : string) :
  JS.includesChar "[" pre = false →
  inner ≠ EmptyString → JS.includesChar "]" inner = false →
  wikilinkMatches post = [] →
  dollarFree (wikilinkHtml pageIndex currentPagePath inner) = true →
  processWikilinks pageIndex (pre +:+ "[[" +:+ inner +:+ "]]" +:+ post) currentPagePath =
  pre +:+ wikilinkHtml pageIndex currentPagePath inner +:+ post.
Proof.
  intros Hpre Hne Hinner Hpost Hanchor. unfold processWikilinks.
  rewrite (wikilinkMatches_link _ _ _ Hpre Hne Hinner), Hpost. cbn [foldl].
  unfold JS.replaceFirst.
  assert (pre +:+ "[[" +:+ inner +:+ "]]" +:+ post =
          pre +:+ ("[[" +:+ inner +:+ "]]") +:+ post) as ->
    by (by rewrite !append_assoc).
  change ("[[" +:+ inner +:+ "]]") with (String "[" ("[" +:+ inner +:+ "]]")).
  rewrite (cutAtFirst_pre _ _ _ Hpre).
  by rewrite (getSubstitution_dollarFree _ _ _ _ Hanchor).
Qed.

(** The anchor of a hit and of a miss. *)
Lemma wikilinkHtml_cases (pageIndex : gmap string string)
    (currentPagePath : option string) (inner : string) :
  let name := (pageNameAndDisplay inner).1 in
  let text := (pageNameAndDisplay inner).2 in
  (∀ p, indexGet pageIndex name = Some p →
        wikilinkHtml pageIndex currentPagePath inner = linkHtml p true text) ∧
  (indexGet pageIndex name = None →
   (currentPagePath = None ∨ currentPagePath = Some EmptyString ∨
    currentPagePath = Some "home" →
    wikilinkHtml pageIndex currentPagePath inner = linkHtml name false text) ∧
   (∀ cur, currentPagePath = Some cur → cur ≠ EmptyString → cur ≠ "home" →
    wikilinkHtml pageIndex currentPagePath inner =
    linkHtml (cur +:+ "/" +:+ name) false text)).
Proof.
  intros name text. subst name text.
  rewrite wikilinkHtml_unfold. unfold linkTarget.
  split.
  - intros p Hp. by rewrite Hp.
  - intros Hmiss. rewrite Hmiss. split.
    + intros [-> | [-> | ->]]; reflexivity.
    + intros cur -> Hne Hhome. unfold atRoot.
      rewrite !bool_decide_eq_false_2 by done. reflexivity.
Qed.

(** A dollar pattern in the anchor is expanded by the replacement that
    puts the anchor into the text: the link emitted for a name with two
    dollar signs points to a name with one. *)
Lemma dollar_pattern_in_anchor :
  wikilinkHtml ∅ (Some "home") "US$$" = linkHtml "us$$" false "US$$" ∧
  processWikilinks ∅ "[[US$$]]" (Some "home") = linkHtml "us$" false "US$" ∧
  processWikilinks ∅ "[[US$$]]" (Some "home") ≠ linkHtml "us$$" false "US$$".
Proof. split; [| split]; [vm_compute; reflexivity .. | discriminate]. Qed.

(** A name that every object inherits is read from the empty index as a
    hit. *)
Lemma inherited_key_is_a_hit :
  processWikilinks ∅ "[[constructor]]" (Some "home") =
    linkHtml "function Object() { [native code] }" true "constructor" ∧
  processWikilinks ∅ "[[constructor]]" (Some "home") ≠
    linkHtml "constructor" false "constructor".
Proof. split; [vm_compute; reflexivity | discriminate]. Qed.

(** C1. The index is read as a plain object and the anchor is put into
    the text by a replacement that expands dollar patterns.  With an index
    rebuilt from a pages directory that holds the home page only, the
    normalized target [constructor] is absent from the index, yet the
    link is emitted as an existing one, to the text of the function every
    object inherits under that name; and the link to the absent target
    [us$$] is emitted with the target [us$].  The claim says that an absent
    target gives a link marked as non-existing whose target is the bare
    normalized name on the home page, as the link to [nintendo] is. *)
Theorem absent_target_marked_existing :
  let index := buildPageIndex (Some [File "home.md" "Welcome"]) in
  let q := JS.dquote in
  index = {[ "home" := "home" ]} ∧
  normalizeName "Constructor" = "constructor" ∧
  processWikilinks index "See [[Nintendo]]." (Some "home") =
    "See <a href=" +:+ q +:+ "/nintendo" +:+ q +:+
    " class=" +:+ q +:+ "wikilink wikilink-new" +:+ q +:+
    " data-page=" +:+ q +:+ "nintendo" +:+ q +:+
    " data-exists=" +:+ q +:+ "false" +:+ q +:+ ">Nintendo</a>." ∧
  processWikilinks index "See [[Constructor]]." (Some "home") =
    "See <a href=" +:+ q +:+ "/function Object() { [native code] }" +:+ q +:+
    " class=" +:+ q +:+ "wikilink" +:+ q +:+
    " data-page=" +:+ q +:+ "function Object() { [native code] }" +:+ q +:+
    " data-exists=" +:+ q +:+ "true" +:+ q +:+ ">Constructor</a>." ∧
  processWikilinks index "See [[US$$]]." (Some "home") =
    "See <a href=" +:+ q +:+ "/us$" +:+ q +:+
    " class=" +:+ q +:+ "wikilink wikilink-new" +:+ q +:+
    " data-page=" +:+ q +:+ "us$" +:+ q +:+
    " data-exists=" +:+ q +:+ "false" +:+ q +:+ ">US$</a>.".
Proof. repeat split; vm_compute; reflexivity. Qed.

(** ** Target and display text of a wikilink *)

(** The display text is not the inner text as written: it is trimmed. *)
Lemma display_text_is_trimmed :
  pageNameAndDisplay " Atari " = ("atari", "Atari") ∧
  specNameAndDisplay " Atari " = ("-atari-", " Atari ") ∧
  pageNameAndDisplay " Atari " ≠ specNameAndDisplay " Atari ".
Proof. split; [reflexivity | split; [reflexivity | discriminate]]. Qed.

(** C8, amended. The inner text of a match, taken as ASCII text, is
    trimmed first.  Without a [|] the display text is the trimmed inner
    text and the target its normalized form.  With a [|] the target is
    the normalized, trimmed text before the first [|] and the display
    text is the trimmed text between the first [|] and the second one, or
    the end. *)
Theorem target_and_display (inner : string) :
  JS.isAscii inner = true →
  let t := JS.trim inner in
  (JS.includesChar "|" t = false →
   pageNameAndDisplay inner = (normalizeName t, t)) ∧
  (∀ l r, t = l +:+ "|" +:+ r →
     JS.includesChar "|" l = false → JS.includesChar "|" r = false →
     pageNameAndDisplay inner = (normalizeName (JS.trim l), JS.trim r)) ∧
  (∀ l r r', t = l +:+ "|" +:+ r +:+ "|" +:+ r' →
     JS.includesChar "|" l = false → JS.includesChar "|" r = false →
     pageNameAndDisplay inner = (normalizeName (JS.trim l), JS.trim r)).
Proof.
  intros _ t. subst t. unfold pageNameAndDisplay. split; [| split].
  - intros H. by rewrite H.
  - intros l r Ht Hl Hr. rewrite Ht.
    change (l +:+ "|" +:+ r) with (l +:+ String "|" r).
    rewrite includesChar_app. simpl. rewrite orb_true_r.
    rewrite (splitChar_first _ _ _ Hl), (splitChar_without _ _ Hr). reflexivity.
  - intros l r r' Ht Hl Hr. rewrite Ht.
    change (l +:+ "|" +:+ r +:+ "|" +:+ r') with (l +:+ String "|" (r +:+ String "|" r')).
    rewrite includesChar_app. simpl. rewrite orb_true_r.
    rewrite (splitChar_first _ _ _ Hl), (splitChar_first _ _ _ Hr). reflexivity.
Qed.

Lemma target_and_display_witness :
  pageNameAndDisplay " Old Page " = ("old-page", "Old Page") ∧
  pageNameAndDisplay "Getting Started | the guide " = ("getting-started", "the guide") ∧
  pageNameAndDisplay "a|b|c" = ("a", "b").
Proof.
  split; [| split].
  - apply (proj1 (target_and_display " Old Page " eq_refl)). reflexivity.
  - apply (proj1 (proj2 (target_and_display "Getting Started | the guide " eq_refl))
             "Getting Started " " the guide"); reflexivity.
  - apply (proj2 (proj2 (target_and_display "a|b|c" eq_refl)) "a" "b" "c"); reflexivity.
Defined.

(** ** Body and footer of a page *)

Lemma spanHyphens_hyphens (n : nat) (r : string) :
  spanHyphens (hyphens n +:+ String "010" r) = (n, String "010" r).
Proof. induction n as [|n IH]; simpl; [done | by rewrite IH]. Qed.

Lemma spanHyphens_inv (s : string) (n : nat) (r : string) :
  spanHyphens s = (n, r) → s = hyphens n +:+ r.
Proof.
  revert n r. induction s as [|c s IH]; intros n r; simpl.
  - by intros [= <- <-].
  - destruct (Ascii.eqb c "-") eqn:Hc.
    + destruct (spanHyphens s) as [k rest] eqn:Hs. intros [= <- <-].
      apply Ascii.eqb_eq in Hc as ->. simpl. f_equal. by apply IH.
    + by intros [= <- <-].
Qed.

Lemma rule_app (n : nat) (r : string) :
  rule n +:+ r = String "010" (hyphens n +:+ String "010" r).
Proof. unfold rule, JS.newline. simpl. by rewrite append_assoc. Qed.

Lemma ruleAt_rule (n : nat) (r : string) :
  3 ≤ n → ruleAt (rule n +:+ r) = Some (n, r).
Proof.
  intros Hn. rewrite rule_app. unfold ruleAt.
  rewrite Ascii.eqb_refl, spanHyphens_hyphens.
  destruct (3 <=? n) eqn:Hle; [by rewrite Ascii.eqb_refl |].
  apply Nat.leb_gt in Hle. lia.
Qed.

Lemma ruleAt_inv (s : string) (n : nat) (r : string) :
  ruleAt s = Some (n, r) → 3 ≤ n ∧ s = rule n +:+ r.
Proof.
  unfold ruleAt. destruct s as [|c s1]; [done |].
  destruct (Ascii.eqb c "010") eqn:Hc; [| done].
  destruct (spanHyphens s1) as [k s2] eqn:Hs.
  destruct (3 <=? k) eqn:Hk; [| done].
  destruct s2 as [|d rest]; [done |].
  destruct (Ascii.eqb d "010") eqn:Hd; [| done].
  intros [= <- <-].
  apply Ascii.eqb_eq in Hc as ->. apply Ascii.eqb_eq in Hd as ->.
  apply Nat.leb_le in Hk. split; [done |].
  rewrite rule_app. f_equal. by apply spanHyphens_inv.
Qed.

Lemma splitRule_skip (d s : string) :
  splitRule (String.length d) (d +:+ s) = splitRule 0 s.
Proof. induction d as [|c d IH]; [reflexivity | exact IH]. Qed.

Lemma splitRule_nonempty (k : nat) (s : string) : splitRule k s ≠ [].
Proof.
  revert k. induction s as [|c s IH]; intros k; cbn [splitRule]; [done |].
  destruct k as [|k]; [| apply IH].
  destruct (ruleAt (String c s)) as [[n rest]|]; [done |].
  by destruct (splitRule 0 s).
Qed.

Lemma length_hyphens (n : nat) : String.length (hyphens n) = n.
Proof. induction n as [|n IH]; simpl; [done | by rewrite IH]. Qed.

(** At a delimiter the current piece is closed and the scan resumes
    after it. *)
Lemma splitRule_at_rule (s : string) (n : nat) (rest : string) :
  ruleAt s = Some (n, rest) → splitRule 0 s = EmptyString :: splitRule 0 rest.
Proof.
  intros Hr. destruct (ruleAt_inv _ _ _ Hr) as [_ Hs].
  rewrite rule_app in Hs. subst s. cbn [splitRule]. rewrite Hr.
  f_equal.
  change (hyphens n +:+ String "010" rest) with (hyphens n +:+ (JS.newline +:+ rest)).
  rewrite <- append_assoc.
  replace (S n) with (String.length (hyphens n +:+ JS.newline)).
  - apply splitRule_skip.
  - rewrite length_append, length_hyphens. simpl. lia.
Qed.

(** Elsewhere the character joins the current piece. *)
Lemma splitRule_no_rule (c : ascii) (s : string) :
  ruleAt (String c s) = None →
  ∃ h t, splitRule 0 s = h :: t ∧ splitRule 0 (String c s) = String c h :: t.
Proof.
  intros Hr. cbn [splitRule]. rewrite Hr.
  destruct (splitRule 0 s) as [|h t] eqn:Hs; [by apply splitRule_nonempty in Hs |].
  by exists h, t.
Qed.

(** A text free of delimiters is a single piece. *)
Lemma splitRule_noRule (s : string) : noRule s → splitRule 0 s = [s].
Proof.
  induction s as [|c s IH]; intros Hno; [done |].
  destruct (ruleAt (String c s)) as [[n rest]|] eqn:Hr.
  - destruct (ruleAt_inv _ _ _ Hr) as [Hn Hs].
    by destruct (Hno EmptyString n rest Hn).
  - destruct (splitRule_no_rule _ _ Hr) as (h & t & Hs & ->).
    rewrite IH in Hs.
    + by injection Hs as <- <-.
    + intros a n b Hn ->. by apply (Hno (String c a) n b Hn).
Qed.

(** A text holding a delimiter is cut at least once. *)
Lemma splitRule_rule (a : string) (n : nat) (b : string) :
  3 ≤ n → 1 < length (splitRule 0 (a +:+ rule n +:+ b)).
Proof.
  intros Hn. induction a as [|c a IH].
  - change (EmptyString +:+ rule n +:+ b) with (rule n +:+ b).
    rewrite (splitRule_at_rule _ _ _ (ruleAt_rule n b Hn)).
    pose proof (splitRule_nonempty 0 b). destruct (splitRule 0 b); [done | simpl; lia].
  - rewrite append_String.
    destruct (ruleAt (String c (a +:+ rule n +:+ b))) as [[k rest]|] eqn:Hr.
    + rewrite (splitRule_at_rule _ _ _ Hr).
      pose proof (splitRule_nonempty 0 rest). destruct (splitRule 0 rest); [done | simpl; lia].
    + destruct (splitRule_no_rule _ _ Hr) as (h & t & Hs & ->).
      rewrite Hs in IH. simpl in *. lia.
Qed.

Lemma splitRule_single (s : string) :
  length (splitRule 0 s) = 1 → noRule s.
Proof.
  intros Hlen a n b Hn ->.
  pose proof (splitRule_rule a n b Hn). lia.
Qed.

(** With more than one piece, the last piece follows the last delimiter
    the scan matched, and the pieces before it are the pieces of the
    text before that delimiter. *)
Lemma splitRule_cut (m : nat) (s : string) :
  String.length s ≤ m → 1 < length (splitRule 0 s) →
  ∃ pre n footer,
    3 ≤ n ∧ s = pre +:+ rule n +:+ footer ∧
    splitRule 0 s = splitRule 0 pre ++ [footer] ∧ noRule footer.
Proof.
  revert s. induction m as [|m IH]; intros s Hlen Hparts.
  - destruct s; [simpl in Hparts; lia | simpl in Hlen; lia].
  - destruct s as [|c s]; [simpl in Hparts; lia |].
    destruct (ruleAt (String c s)) as [[n rest]|] eqn:Hr.
    + destruct (ruleAt_inv _ _ _ Hr) as [Hn Hs].
      rewrite (splitRule_at_rule _ _ _ Hr).
      assert (String.length rest ≤ m) as Hrest.
      { apply (f_equal String.length) in Hs.
        rewrite length_append in Hs. unfold rule in Hs. simpl in *. lia. }
      destruct (decide (1 < length (splitRule 0 rest))) as [Hmore | Hone].
      * destruct (IH rest Hrest Hmore) as (pre & k & footer & Hk & Hrest' & Hsplit & Hno).
        exists (rule n +:+ pre), k, footer. split; [done |]. split; [| split; [| done]].
        -- rewrite Hs, Hrest'. by rewrite append_assoc.
        -- rewrite (splitRule_at_rule _ _ _ (ruleAt_rule n pre Hn)).
           by rewrite Hsplit.
      * assert (length (splitRule 0 rest) = 1) as Hlen1.
        { pose proof (splitRule_nonempty 0 rest).
          destruct (splitRule 0 rest); [done | simpl in *; lia]. }
        pose proof (splitRule_single _ Hlen1) as Hno.
        exists EmptyString, n, rest. split; [done |]. split; [done |].
        split; [| done]. by rewrite (splitRule_noRule _ Hno).
    + destruct (splitRule_no_rule _ _ Hr) as (h & t & Hs & Hcs).
      rewrite Hcs in Hparts |- *.
      assert (1 < length (splitRule 0 s)) as Hmore by (rewrite Hs; simpl in *; lia).
      assert (String.length s ≤ m) as Hle by (simpl in Hlen; lia).
      destruct (IH s Hle Hmore) as (pre & k & footer & Hk & Hs' & Hsplit & Hno).
      exists (String c pre), k, footer. split; [done |]. split; [| split; [| done]].
      * by rewrite Hs'.
      * assert (ruleAt (String c pre) = None) as Hpre.
        { destruct (ruleAt (String c pre)) as [[j r]|] eqn:Hp; [| done].
          destruct (ruleAt_inv _ _ _ Hp) as [Hj Hcp].
          assert (String c s = rule j +:+ (r +:+ rule k +:+ footer)) as Hcs'.
          { rewrite Hs'. rewrite <- append_String, Hcp. by rewrite append_assoc. }
          rewrite Hcs', (ruleAt_rule j _ Hj) in Hr. done. }
        destruct (splitRule_no_rule _ _ Hpre) as (h' & t' & Hp & ->).
        rewrite Hs, Hp in Hsplit. simpl in Hsplit.
        injection Hsplit as -> ->. done.
Qed.

Lemma join_cons_char (sep : string) (c : ascii) (h : string) (t : list string) :
  JS.join sep (String c h :: t) = String c (JS.join sep (h :: t)).
Proof. destruct t; reflexivity. Qed.

Lemma join_cons_two (sep a b : string) (l : list string) :
  JS.join sep (a :: b :: l) = a +:+ sep +:+ JS.join sep (b :: l).
Proof. reflexivity. Qed.

(** Joining the pieces with a three-hyphen delimiter gives the text back
    when every delimiter in it has exactly three hyphens. *)
Lemma join_splitRule (m : nat) (s : string) :
  String.length s ≤ m →
  (∀ a n b, 3 ≤ n → s = a +:+ rule n +:+ b → n = 3) →
  JS.join (rule 3) (splitRule 0 s) = s.
Proof.
  revert s. induction m as [|m IH]; intros s Hlen Hthree.
  - destruct s; [done | simpl in Hlen; lia].
  - destruct s as [|c s]; [done |].
    destruct (ruleAt (String c s)) as [[n rest]|] eqn:Hr.
    + destruct (ruleAt_inv _ _ _ Hr) as [Hn Hs].
      rewrite (splitRule_at_rule _ _ _ Hr).
      assert (n = 3) as -> by (by apply (Hthree EmptyString n rest)).
      assert (String.length rest ≤ m) as Hrest.
      { apply (f_equal String.length) in Hs.
        rewrite length_append in Hs. unfold rule in Hs. simpl in *. lia. }
      assert (JS.join (rule 3) (splitRule 0 rest) = rest) as Hjoin.
      { apply IH; [done |]. intros a k b Hk ->.
        apply (Hthree (rule 3 +:+ a) k b Hk). rewrite Hs. by rewrite append_assoc. }
      pose proof (splitRule_nonempty 0 rest).
      destruct (splitRule 0 rest) as [|x l] eqn:Hp; [done |].
      rewrite Hs, join_cons_two, Hjoin. reflexivity.
    + destruct (splitRule_no_rule _ _ Hr) as (h & t & Hs & ->).
      rewrite join_cons_char, <- Hs. f_equal.
      apply IH; [simpl in Hlen; lia |].
      intros a k b Hk ->. by apply (Hthree (String c a) k b Hk).
Qed.

(** The delimiter needs no blank line around it. *)
Lemma footer_without_blank_lines :
  let content := "a" +:+ JS.newline +:+ "---" +:+ JS.newline +:+ "b" in
  splitFooter content = ("a", "b") ∧
  specSplitFooter content = (content, EmptyString) ∧
  splitFooter content ≠ specSplitFooter content.
Proof. split; [reflexivity | split; [reflexivity | discriminate]]. Qed.

(** C7, amended. The delimiters are the successive matches, from left
    to right, of a newline, three or more hyphens and a newline; no blank
    line is needed around them.  Without a delimiter the footer is empty
    and the body is the whole content.  Otherwise the footer is the text
    after the last matched delimiter and holds no delimiter; the body is
    the pieces of the text before that delimiter joined again with a
    three-hyphen delimiter, which is that text itself when each of its
    delimiters has exactly three hyphens. *)
Theorem body_and_footer (content : string) :
  (noRule content → splitFooter content = (content, EmptyString)) ∧
  (∀ a n b, 3 ≤ n → content = a +:+ rule n +:+ b →
     ∃ pre k,
       3 ≤ k ∧
       content = pre +:+ rule k +:+ (splitFooter content).2 ∧
       splitRule 0 content = splitRule 0 pre ++ [(splitFooter content).2] ∧
       noRule (splitFooter content).2 ∧
       (splitFooter content).1 = JS.join (rule 3) (splitRule 0 pre) ∧
       ((∀ a' n' b', 3 ≤ n' → pre = a' +:+ rule n' +:+ b' → n' = 3) →
        (splitFooter content).1 = pre)).
Proof.
  split.
  - intros Hno. unfold splitFooter. by rewrite (splitRule_noRule _ Hno).
  - intros a n b Hn Hcontent.
    assert (1 < length (splitRule 0 content)) as Hmore
      by (rewrite Hcontent; by apply splitRule_rule).
    destruct (splitRule_cut (String.length content) content (le_n _) Hmore)
      as (pre & k & footer & Hk & Hcut & Hsplit & Hno).
    assert (splitFooter content = (JS.join (rule 3) (splitRule 0 pre), footer)) as Hsf.
    { unfold splitFooter. apply Nat.ltb_lt in Hmore. rewrite Hmore, Hsplit.
      by rewrite List.removelast_last, List.last_last. }
    rewrite Hsf. simpl. exists pre, k.
    repeat (split; [done |]).
    intros Hthree. by apply (join_splitRule (String.length pre)).
Qed.

Lemma body_and_footer_witness :
  let content :=
    "Body" +:+ rule 3 +:+ "more" +:+ rule 5 +:+ "Footer" in
  content = "Body" +:+ rule 3 +:+ "more" +:+ rule 5 +:+ "Footer" ∧
  splitFooter content = ("Body" +:+ rule 3 +:+ "more", "Footer") ∧
  splitFooter "no rule here" = ("no rule here", EmptyString).
Proof.
  intros content. split; [reflexivity |]. split.
  - destruct (proj2 (body_and_footer content)
                ("Body" +:+ rule 3 +:+ "more") 5 "Footer")
      as (pre & k & _ & _ & _ & _ & _ & _).
    + lia.
    + reflexivity.
    + reflexivity.
  - apply (proj1 (body_and_footer "no rule here")).
    apply splitRule_single. reflexivity.
Defined.

(** ** Page index *)

Lemma Dirent_nested_ind (P : Dirent → Prop) :
  (∀ n c, P (File n c)) →
  (∀ n es, Forall P es → P (Directory n es)) →
  ∀ e, P e.
Proof.
  intros Hfile Hdir. fix IH 1. intros [n c | n es].
  - apply Hfile.
  - apply Hdir. induction es as [|e es IHes]; constructor; [apply IH | exact IHes].
Qed.

(** The scan is a left fold of [indexStep] over the pages in walk order. *)
Lemma scanEntry_walk (e : Dirent) :
  ∀ relativePath idx,
    scanEntry e relativePath idx = foldl indexStep idx (walkEntry e relativePath).
Proof.
  induction e as [n c | n es IH] using Dirent_nested_ind; intros rel idx.
  - simpl. by destruct (JS.endsWith ".md" n).
  - cbn [scanEntry walkEntry direntName].
    generalize (pathJoin rel n). intros relPath. revert idx.
    induction IH as [|e es He _ IHes]; intros idx; [done |].
    cbn [foldl flat_map]. rewrite foldl_app, <- He. apply IHes.
Qed.

Lemma scanDirectory_walk (entries : list Dirent) (relativePath : string)
    (idx : gmap string string) :
  scanDirectory entries relativePath idx =
  foldl indexStep idx (walkDirectory entries relativePath).
Proof.
  unfold scanDirectory, walkDirectory. revert idx.
  induction entries as [|e es IH]; intros idx; [done |].
  cbn [foldl flat_map]. by rewrite foldl_app, <- scanEntry_walk, IH.
Qed.

(** *** Reads and writes *)

Lemma indexSet_eq (key value : string) (idx : gmap string string) :
  key ≠ "__proto__" → indexSet key value idx !! key = Some value.
Proof. intros Hkey. unfold indexSet. by rewrite decide_False, lookup_insert_eq. Qed.

Lemma indexSet_ne (key value k : string) (idx : gmap string string) :
  key ≠ k → indexSet key value idx !! k = idx !! k.
Proof.
  intros Hne. unfold indexSet. destruct (decide (key = "__proto__")); [done |].
  by rewrite lookup_insert_ne.
Qed.

(** A key the object holds itself, with a non-empty path, is read as
    that path. *)
Lemma indexGet_own (idx : gmap string string) (key v : string) :
  key ≠ "__proto__" → idx !! key = Some v → v ≠ EmptyString → indexGet idx key = Some v.
Proof.
  intros Hkey Hv Hne. unfold indexGet. rewrite decide_False by done.
  by rewrite Hv, decide_False.
Qed.

(** A key the object does not hold, and that no object inherits, is
    read as nothing. *)
Lemma indexGet_absent (idx : gmap string string) (key : string) :
  ordinaryKey key = true → idx !! key = None → indexGet idx key = None.
Proof.
  unfold ordinaryKey, indexGet. intros Hkey Hnone.
  apply andb_prop in Hkey as [Hproto Hinherit].
  apply negb_true_iff, bool_decide_eq_false in Hproto, Hinherit.
  rewrite decide_False, Hnone by done.
  destruct (inheritedText key) as [t|]; [| done]. by destruct Hinherit.
Qed.

Lemma indexGet_None_proto (idx : gmap string string) (key : string) :
  indexGet idx key = None → key ≠ "__proto__".
Proof. unfold indexGet. by destruct (decide (key = "__proto__")). Qed.

(** A read depends on the key and on what the object holds under it. *)
Lemma indexGet_ext (idx idx' : gmap string string) (key : string) :
  idx' !! key = idx !! key → indexGet idx' key = indexGet idx key.
Proof. unfold indexGet. by intros ->. Qed.

(** *** The scan *)

(** What a key holds is kept through every page whose path key differs,
    once the key reads as truthy. *)
Lemma indexStep_keep (idx : gmap string string) (pg : string * string) (key : string) :
  is_Some (indexGet idx key) → JS.toLowerCase pg.2 ≠ key →
  indexStep idx pg !! key = idx !! key.
Proof.
  intros [v Hv] Hpath. unfold indexStep, indexPage.
  rewrite indexSet_ne by done.
  destruct (indexGet idx (JS.toLowerCase pg.1)) eqn:Hleaf; [done |].
  destruct (decide (JS.toLowerCase pg.1 = key)) as [Heq | Hneq]; [congruence |].
  by rewrite indexSet_ne.
Qed.

Lemma foldl_indexStep_keep (pages : list (string * string)) (idx : gmap string string)
    (key : string) :
  is_Some (indexGet idx key) →
  (∀ q, q ∈ pages → JS.toLowerCase q.2 ≠ key) →
  foldl indexStep idx pages !! key = idx !! key.
Proof.
  revert idx. induction pages as [|pg pages IH]; intros idx Hv Hpages; [done |].
  assert (indexStep idx pg !! key = idx !! key) as Hstep.
  { apply indexStep_keep; [done |]. apply Hpages. by left. }
  simpl. rewrite IH; [done | |].
  - by rewrite (indexGet_ext idx).
  - intros q Hq. apply Hpages. by right.
Qed.

Lemma indexStep_path_key (idx : gmap string string) (pageName pagePath : string) :
  JS.toLowerCase pagePath ≠ "__proto__" →
  indexStep idx (pageName, pagePath) !! JS.toLowerCase pagePath = Some pagePath.
Proof. intros Hkey. unfold indexStep, indexPage. simpl. by rewrite indexSet_eq. Qed.

Lemma indexStep_leaf_key (idx : gmap string string) (pageName pagePath : string) :
  indexGet idx (JS.toLowerCase pageName) = None →
  indexStep idx (pageName, pagePath) !! JS.toLowerCase pageName = Some pagePath.
Proof.
  intros Hfree. pose proof (indexGet_None_proto _ _ Hfree) as Hkey.
  unfold indexStep, indexPage. simpl. rewrite Hfree.
  destruct (decide (JS.toLowerCase pagePath = JS.toLowerCase pageName)) as [-> | Hne].
  - by rewrite indexSet_eq.
  - by rewrite indexSet_ne, indexSet_eq.
Qed.

(** A later root-level page takes over the leaf key of an earlier page. *)
Lemma leaf_key_overwritten :
  let entries := [Directory "games" [File "zelda.md" "Zelda"]; File "zelda.md" "Top"] in
  walkDirectory entries EmptyString = [("zelda", "games/zelda"); ("zelda", "zelda")] ∧
  indexGet (buildPageIndex (Some entries)) "zelda" = Some "zelda" ∧
  indexGet (buildPageIndex (Some entries)) "zelda" ≠ Some "games/zelda".
Proof. repeat (split; [reflexivity |]). discriminate. Qed.

(** *** The index key by key *)

Lemma dropEnd_empty (n : nat) (s : string) :
  JS.dropEnd n s = EmptyString → String.length s ≤ n.
Proof.
  destruct s as [|c s]; cbn [JS.dropEnd String.length]; [lia |].
  destruct (String.length s <? n) eqn:Hlt; [| done].
  apply Nat.ltb_lt in Hlt. lia.
Qed.

Lemma dropEnd_short (n : nat) (s : string) :
  String.length s ≤ n → JS.dropEnd n s = EmptyString.
Proof.
  destruct s as [|c s]; cbn [JS.dropEnd String.length]; [done |].
  intros Hlen. destruct (String.length s <? n) eqn:Hlt; [done |].
  apply Nat.ltb_ge in Hlt. lia.
Qed.

(** Only a file named [.md] in the pages root has the empty path, and
    its name is empty as well. *)
Lemma walkEntry_empty_path (e : Dirent) :
  ∀ rel n p, (n, p) ∈ walkEntry e rel → p = EmptyString → n = EmptyString.
Proof.
  induction e as [name c | name es IH] using Dirent_nested_ind; intros rel n p.
  - cbn [walkEntry direntName]. destruct (JS.endsWith ".md" name); [| by intros ?%not_elem_of_nil].
    intros Hin%list_elem_of_singleton Hp. injection Hin as -> ->.
    apply dropEnd_empty in Hp. apply dropEnd_short.
    unfold pathJoin in Hp. destruct (decide (rel = EmptyString)); [done |].
    rewrite !length_append in Hp. lia.
  - cbn [walkEntry direntName]. generalize (pathJoin rel name). intros relPath Hin.
    apply list_elem_of_In, in_flat_map in Hin as (e & He & Hin).
    apply list_elem_of_In in He, Hin.
    by apply (proj1 (Forall_forall _ _) IH e He relPath).
Qed.

Lemma walkDirectory_empty_path (entries : list Dirent) (rel n p : string) :
  (n, p) ∈ walkDirectory entries rel → p = EmptyString → n = EmptyString.
Proof.
  unfold walkDirectory. intros Hin.
  apply list_elem_of_In, in_flat_map in Hin as (e & _ & Hin).
  apply list_elem_of_In in Hin. by apply (walkEntry_empty_path e rel).
Qed.

(** One page more in the walk. *)
Lemma specIndexRead_snoc (key : string) (pages : list (string * string)) (n p : string) :
  specIndexRead key (pages ++ [(n, p)]) =
  if decide (JS.toLowerCase p = key) then Some p
  else match specIndexRead key pages with
       | Some v => Some v
       | None => if decide (JS.toLowerCase n = key) then Some p else None
       end.
Proof.
  unfold specIndexRead, pathWriters, leafWriters.
  rewrite !filter_app, !filter_cons, !filter_nil. cbn [fst snd].
  destruct (decide (JS.toLowerCase p = key)) as [Hp | Hp].
  - by rewrite last_snoc.
  - rewrite app_nil_r.
    destruct (last (filter _ pages)) as [pg|]; [done |].
    destruct (filter (λ pg : string * string, JS.toLowerCase pg.1 = key) pages) as [|x l].
    + by destruct (decide (JS.toLowerCase n = key)).
    + done.
Qed.

Lemma foldl_indexStep_spec (key : string) (pages : list (string * string)) :
  ordinaryKey key = true → key ≠ EmptyString →
  (∀ n p, (n, p) ∈ pages → p = EmptyString → n = EmptyString) →
  foldl indexStep ∅ pages !! key = specIndexRead key pages ∧
  ∀ v, specIndexRead key pages = Some v → v ≠ EmptyString.
Proof.
  intros Hkey Hne.
  assert (key ≠ "__proto__") as Hproto.
  { unfold ordinaryKey in Hkey. apply andb_prop in Hkey as [H _].
    by apply negb_true_iff, bool_decide_eq_false in H. }
  induction pages as [|[n p] pages IH] using rev_ind; intros Hpages; [done |].
  destruct IH as [Hidx Hvalues].
  { intros n' p' Hin. apply Hpages, elem_of_app. by left. }
  set (idx := foldl indexStep ∅ pages) in *.
  assert (indexGet idx key = specIndexRead key pages) as Hget.
  { destruct (specIndexRead key pages) as [v|] eqn:Hspec.
    - apply indexGet_own; [done | done | by apply Hvalues].
    - by apply indexGet_absent. }
  rewrite foldl_app, specIndexRead_snoc. cbn [foldl]. fold idx.
  unfold indexStep, indexPage. cbn [fst snd].
  destruct (decide (JS.toLowerCase p = key)) as [Hp | Hp].
  - split; [subst key; by apply indexSet_eq |].
    intros v [= <-] ->. by apply Hne.
  - rewrite indexSet_ne by done.
    destruct (decide (JS.toLowerCase n = key)) as [Hn | Hn].
    + rewrite Hn, Hget.
      destruct (specIndexRead key pages) as [v|] eqn:Hspec; [done |].
      split; [by apply indexSet_eq |].
      intros v [= <-] ->. apply Hne. rewrite <- Hn.
      rewrite (Hpages n EmptyString); [done | | done].
      apply elem_of_app. right. by apply list_elem_of_singleton.
    + assert (match indexGet idx (JS.toLowerCase n) with
              | Some _ => idx
              | None => indexSet (JS.toLowerCase n) p idx
              end !! key = idx !! key) as ->.
      { destruct (indexGet idx (JS.toLowerCase n)); [done | by apply indexSet_ne]. }
      destruct (specIndexRead key pages) as [v|]; [done |]. done.
Qed.

(** C3, amended. After a rebuild of the page index over a pages
    directory with ASCII names, a read of a key that is not empty and
    that is no name every object inherits gives: the path of the last
    page met by the walk whose lowercased full path is the key, when
    there is such a page (the insert of the path key is unconditional, so
    the last writer wins, also over a leaf mapping registered earlier,
    by another page or by the same one); otherwise the path of the first
    page met by the walk whose lowercased leaf name is the key (the first
    registered leaf mapping is kept); otherwise nothing. *)
Theorem index_after_rebuild (entries : list Dirent) (key : string) :
  asciiDir entries = true →
  ordinaryKey key = true →
  key ≠ EmptyString →
  indexGet (buildPageIndex (Some entries)) key =
  specIndexRead key (walkDirectory entries EmptyString).
Proof.
  intros _ Hkey Hne. unfold buildPageIndex. rewrite scanDirectory_walk.
  destruct (foldl_indexStep_spec key (walkDirectory entries EmptyString) Hkey Hne)
    as [Hidx Hvalues].
  { intros n p. apply walkDirectory_empty_path. }
  destruct (specIndexRead key _) as [v|] eqn:Hspec.
  - apply indexGet_own; [| done | by apply Hvalues].
    unfold ordinaryKey in Hkey. apply andb_prop in Hkey as [H _].
    by apply negb_true_iff, bool_decide_eq_false in H.
  - by apply indexGet_absent.
Qed.

Lemma index_after_rebuild_witness :
  let entries :=
    [Directory "games" [File "zelda.md" "Zelda"; File "Mario.md" "M"];
     File "zelda.md" "Top";
     Directory "retro" [File "mario.md" "m"; File "Games.md" "G"; File "notes.txt" "n"]] in
  walkDirectory entries EmptyString =
    [("zelda", "games/zelda"); ("Mario", "games/Mario"); ("zelda", "zelda");
     ("mario", "retro/mario"); ("Games", "retro/Games")] ∧
  indexGet (buildPageIndex (Some entries)) "zelda" = Some "zelda" ∧
  indexGet (buildPageIndex (Some entries)) "mario" = Some "games/Mario" ∧
  indexGet (buildPageIndex (Some entries)) "retro/mario" = Some "retro/mario" ∧
  indexGet (buildPageIndex (Some entries)) "games" = Some "retro/Games" ∧
  indexGet (buildPageIndex (Some entries)) "notes" = None.
Proof.
  intros entries. split; [reflexivity |].
  assert (∀ key, ordinaryKey key = true → key ≠ EmptyString →
                 indexGet (buildPageIndex (Some entries)) key =
                 specIndexRead key (walkDirectory entries EmptyString)) as Hread.
  { intros key. by apply (index_after_rebuild entries). }
  split; [| split; [| split; [| split]]];
    (etransitivity; [apply Hread; [reflexivity | discriminate] | reflexivity]).
Defined.

(** Keys every object inherits: a page below the root whose name is such
    a key never gets its leaf key, and a page named [__proto__] gets no
    key at all. *)
Lemma inherited_keys_not_indexed :
  let entries :=
    [Directory "js" [File "constructor.md" "C"]; File "__proto__.md" "P"] in
  buildPageIndex (Some entries) = {[ "js/constructor" := "js/constructor" ]} ∧
  indexGet (buildPageIndex (Some entries)) "constructor" =
    Some "function Object() { [native code] }" ∧
  indexGet (buildPageIndex (Some entries)) "__proto__" = Some "[object Object]".
Proof. split; [| split]; reflexivity. Qed.

(** C9. The scan of [buildPageIndex] does not skip entries whose name
    starts with a dot: a hidden markdown file and a markdown file inside
    a hidden directory both reach the rebuilt index. *)
Theorem hidden_entries_are_indexed :
  let entries := [File ".draft.md" "x"; Directory ".git" [File "notes.md" "y"]] in
  buildPageIndex (Some entries) !! ".draft" = Some ".draft" ∧
  buildPageIndex (Some entries) !! ".git/notes" = Some ".git/notes" ∧
  buildPageIndex (Some entries) !! "notes" = Some ".git/notes".
Proof. repeat (split; [reflexivity |]). reflexivity. Qed.

(** ** Tree builder *)

Section TreeInvariant.

Variable localeCompare : string → string → Z.

Lemma insertNode_elem (x n : TreeNode) (l : list TreeNode) :
  n ∈ insertNode localeCompare x l ↔ n = x ∨ n ∈ l.
Proof.
  induction l as [|y l IH]; simpl.
  - rewrite list_elem_of_singleton. split; [by left | intros [? | H]; [done | by apply not_elem_of_nil in H]].
  - destruct (compareNodes localeCompare x y <=? 0)%Z.
    + by rewrite elem_of_cons.
    + rewrite !elem_of_cons, IH. tauto.
Qed.

(** Sorting keeps the nodes. *)
Lemma sortNodes_elem (n : TreeNode) (l : list TreeNode) :
  n ∈ sortNodes localeCompare l ↔ n ∈ l.
Proof.
  induction l as [|x l IH]; [done |].
  cbn [sortNodes foldr]. fold (sortNodes localeCompare l).
  by rewrite insertNode_elem, IH, elem_of_cons.
Qed.

Lemma makeNode_invariant (basePath name : string) (hasMdFile hasDirectory : bool)
    (subtree : list TreeNode) (n : TreeNode) :
  makeNode basePath name hasMdFile hasDirectory subtree = Some n →
  treeInvariant n ∧ (children n = [] ∨ children n = subtree) ∧
  (nodeType n = page_parent ↔ hasMdFile = true ∧ hasDirectory = true) ∧
  (nodeType n = page ↔ hasMdFile = true ∧ hasDirectory = false) ∧
  (nodeType n = folder ↔ hasMdFile = false ∧ hasDirectory = true).
Proof.
  unfold makeNode, treeInvariant.
  destruct hasMdFile, hasDirectory; simpl; intros [= <-]; simpl;
    repeat split; try done; try tauto; try (by intros []); try (by right); try (by left).
Qed.

Lemma assoc_elem {A : Type} (key : string) (l : list (string * A)) (v : A) :
  assoc key l = Some v → (key, v) ∈ l.
Proof.
  induction l as [|[k w] l IH]; simpl; [done |].
  destruct (decide (k = key)) as [-> | Hne].
  - intros [= ->]. by left.
  - intros H. right. by apply IH.
Qed.

(** Each node of a level satisfies the invariant and carries no child or
    the subtree read for one of the directories. *)
Lemma buildLevel_elem (basePath : string) (items : list Dirent)
    (subtrees : list (string * list TreeNode)) (n : TreeNode) :
  n ∈ buildLevel localeCompare basePath items subtrees →
  treeInvariant n ∧
  (children n = [] ∨ ∃ name, (name, children n) ∈ subtrees).
Proof.
  unfold buildLevel. rewrite sortNodes_elem, list_elem_of_omap.
  intros (name & _ & Hnode).
  destruct (makeNode_invariant _ _ _ _ _ _ Hnode) as (Hinv & Hchildren & _).
  split; [done |].
  destruct Hchildren as [Hnil | Hsub]; [by left |].
  destruct (assoc name subtrees) as [sub|] eqn:Hassoc; simpl in Hsub.
  - right. exists name. rewrite Hsub. by apply assoc_elem.
  - by left.
Qed.

Lemma occursIn_nil (n : TreeNode) : ¬ occursIn n [].
Proof.
  intros H. inversion H as [tree Hin | m tree Hin _]; subst;
    by apply not_elem_of_nil in Hin.
Qed.

Lemma buildLevel_invariant (basePath : string) (items : list Dirent)
    (subtrees : list (string * list TreeNode)) :
  (∀ name sub, (name, sub) ∈ subtrees → ∀ n, occursIn n sub → treeInvariant n) →
  ∀ n, occursIn n (buildLevel localeCompare basePath items subtrees) → treeInvariant n.
Proof.
  intros Hsubs n Hn. inversion Hn as [tree Hin | m tree Hin Hbelow]; subst.
  - by apply buildLevel_elem in Hin as [].
  - apply buildLevel_elem in Hin as [_ [Hnil | [name Hsub]]].
    + rewrite Hnil in Hbelow. by apply occursIn_nil in Hbelow.
    + by apply (Hsubs name (children m)).
Qed.

Lemma buildSubtree_invariant (e : Dirent) :
  ∀ itemPath n, occursIn n (buildSubtree localeCompare e itemPath) → treeInvariant n.
Proof.
  induction e as [name c | name es IH] using Dirent_nested_ind; intros itemPath n.
  - simpl. intros H. by apply occursIn_nil in H.
  - cbn [buildSubtree]. apply buildLevel_invariant.
    intros k sub Hk. apply list_elem_of_omap in Hk as (d & Hd & Hsome).
    rewrite Forall_forall in IH. specialize (IH d Hd).
    destruct d as [? ? | dn des]; [done |].
    injection Hsome as <- <-. apply IH.
Qed.

End TreeInvariant.

(** C2. A page with a same-named directory that holds nothing eligible
    (as is left when the last child of a page is deleted) is given the
    type [page_parent] with an empty list of children.  The claim, the
    comment on that branch and the tests of the repository say that a
    page-parent has children. *)
Theorem page_parent_without_children :
  let n := mkNode "systems" "systems" page_parent true [] in
  buildTree compareByCode [File "systems.md" "S"; Directory "systems" []] EmptyString = [n] ∧
  occursIn n (buildTree compareByCode [File "systems.md" "S"; Directory "systems" []] EmptyString) ∧
  ¬ specTreeInvariant n.
Proof.
  split; [reflexivity |]. split.
  - apply occurs_here. vm_compute. apply list_elem_of_here.
  - intros (_ & Hpp & _). simpl in Hpp. by destruct (proj1 Hpp eq_refl) as [_ []].
Qed.

(** X25. For every node the tree builder produces, at any depth: the
    type is [folder] if and only if [hasContent] is false; a [page] has
    [hasContent] true and no children; a [page_parent] has [hasContent]
    true; a node with [hasContent] true and some child is a
    [page_parent]. *)
Theorem tree_invariant (localeCompare : string → string → Z) (items : list Dirent)
    (basePath : string) (n : TreeNode) :
  occursIn n (buildTree localeCompare items basePath) → treeInvariant n.
Proof.
  unfold buildTree. apply buildLevel_invariant.
  intros k sub Hk m. apply list_elem_of_omap in Hk as (d & Hd & Hsome).
  destruct d as [? ? | dn des]; [done |].
  assert (sub = buildSubtree localeCompare (Directory dn des) (pathJoin basePath dn))
    as -> by congruence.
  apply buildSubtree_invariant.
Qed.

Lemma tree_invariant_witness :
  treeInvariant (mkNode "tips" "guides/advanced/tips" page true []).
Proof.
  apply (tree_invariant compareByCode
           [File "guides.md" "G";
            Directory "guides" [File "intro.md" "I"; Directory "advanced" [File "tips.md" "T"]]]
           EmptyString).
  apply occurs_below with
    (m := mkNode "guides" "guides" page_parent true
            [mkNode "advanced" "guides/advanced" folder false
               [mkNode "tips" "guides/advanced/tips" page true []];
             mkNode "intro" "guides/intro" page true []]).
  - vm_compute. apply list_elem_of_here.
  - apply occurs_below with
      (m := mkNode "advanced" "guides/advanced" folder false
              [mkNode "tips" "guides/advanced/tips" page true []]).
    + apply list_elem_of_here.
    + apply occurs_here. apply list_elem_of_here.
Defined.

(** ** Page store *)

Lemma findEntry_name (n : string) (es : list Dirent) (e : Dirent) :
  findEntry n es = Some e → direntName e = n.
Proof.
  induction es as [|x es IH]; simpl; [done |].
  destruct (decide (direntName x = n)); [by intros [= <-] | exact IH].
Qed.

Lemma findEntry_setEntry_eq (n : string) (e' : Dirent) (es : list Dirent) :
  direntName e' = n → is_Some (findEntry n es) →
  findEntry n (setEntry n e' es) = Some e'.
Proof.
  intros Hname. induction es as [|x es IH]; simpl; [by intros [? ?] |].
  destruct (decide (direntName x = n)) as [Hx | Hx]; simpl.
  - intros _. by rewrite decide_True.
  - intros H. rewrite decide_False by done. by apply IH.
Qed.

Lemma findEntry_setEntry_ne (n m : string) (e' : Dirent) (es : list Dirent) :
  direntName e' = n → m ≠ n →
  findEntry m (setEntry n e' es) = findEntry m es.
Proof.
  intros Hname Hne. induction es as [|x es IH]; simpl; [done |].
  destruct (decide (direntName x = n)) as [Hx | Hx]; simpl.
  - rewrite !decide_False by congruence. done.
  - destruct (decide (direntName x = m)); [done | exact IH].
Qed.

Lemma findEntry_app_None (n : string) (es : list Dirent) (e : Dirent) :
  findEntry n es = None → direntName e = n → findEntry n (es ++ [e]) = Some e.
Proof.
  intros Hnone Hname. induction es as [|x es IH]; simpl in *.
  - by rewrite decide_True.
  - destruct (decide (direntName x = n)); [done | by apply IH].
Qed.

Lemma findEntry_filter_ne (P : Dirent → Prop) `{!∀ e, Decision (P e)}
    (n : string) (es : list Dirent) :
  (∀ e, direntName e = n → P e) →
  findEntry n (filter P es) = findEntry n es.
Proof.
  intros Hkeep. induction es as [|x es IH]; [done |].
  rewrite filter_cons. destruct (decide (P x)) as [HP | HP]; simpl.
  - destruct (decide (direntName x = n)); [done | exact IH].
  - rewrite decide_False; [exact IH |]. intros Hx. by apply HP, Hkeep.
Qed.

Lemma findEntry_filter_Some (P : Dirent → Prop) `{!∀ e, Decision (P e)}
    (n : string) (es : list Dirent) (e : Dirent) :
  findEntry n (filter P es) = Some e → P e.
Proof.
  induction es as [|x es IH]; [done |].
  rewrite filter_cons. destruct (decide (P x)) as [HP | HP]; simpl.
  - destruct (decide (direntName x = n)); [by intros [= <-] | exact IH].
  - exact IH.
Qed.

(** Resolution of a path in two stages. *)
Lemma resolve_app (front back : list string) (es : list Dirent) :
  front ≠ [] → back ≠ [] →
  resolve (front ++ back) es =
  match resolve front es with
  | Some (Directory _ sub) => resolve back sub
  | _ => None
  end.
Proof.
  revert es. induction front as [|n front IH]; intros es Hfront Hback; [done |].
  destruct front as [|m front].
  - destruct back as [|b back]; [done |]. reflexivity.
  - change ((n :: m :: front) ++ back) with (n :: (m :: front) ++ back).
    cbn [resolve app].
    destruct (findEntry n es) as [[? ? | ? sub]|]; [done | | done].
    by apply IH.
Qed.

Lemma lookupPath_below (dir : option (list Dirent)) (segs below : list string) :
  below ≠ [] →
  lookupPath dir (segs ++ below) =
  match lookupPath dir segs with
  | Some (Directory _ sub) => resolve below sub
  | _ => None
  end.
Proof.
  intros Hbelow. destruct dir as [es|]; [| done].
  destruct segs as [|n segs].
  - simpl. by destruct below.
  - change (lookupPath (Some es) ((n :: segs) ++ below))
      with (resolve ((n :: segs) ++ below) es).
    by rewrite resolve_app.
Qed.

(** The file read at a path inside a listing. *)
Lemma readFile_resolve (es : list Dirent) (segs : list string) :
  readFile (Some es) segs =
  match resolve segs es with
  | Some (File _ content) => Some content
  | _ => None
  end.
Proof. unfold readFile, lookupPath. by destruct segs. Qed.

Lemma resolve_cons (n : string) (rest : list string) (es : list Dirent) :
  rest ≠ [] →
  resolve (n :: rest) es =
  match findEntry n es with
  | Some (Directory _ sub) => resolve rest sub
  | _ => None
  end.
Proof. by destruct rest. Qed.

Lemma segs_split (segs : list string) :
  segs ≠ [] → segs = parentSegs segs ++ [leafSeg segs].
Proof. intros H. by apply app_removelast_last. Qed.

Section Removal.

(** Removal of the entries named [leaf] that are directories ([kind]
    true) or files ([kind] false) from the directory at [parent]. *)
Variable kind : bool.
Variable leaf : string.

#[local] Abbreviation kept := (keptEntry leaf kind).

Lemma removed_kind (parent : list string) (es : list Dirent) (e : Dirent) :
  resolve (parent ++ [leaf]) (alterDir parent (filter kept) es) = Some e →
  isDirectory e ≠ kind.
Proof.
  revert es. induction parent as [|a ps IH]; intros es.
  - simpl. intros Hfind Hkind.
    apply (findEntry_filter_Some kept _ _ _ Hfind).
    split; [by apply findEntry_name in Hfind | done].
  - change ((a :: ps) ++ [leaf]) with (a :: (ps ++ [leaf])).
    rewrite resolve_cons by (by destruct ps).
    cbn [alterDir].
    destruct (findEntry a es) as [[fn fc | dn sub]|] eqn:Hfind.
    + by rewrite Hfind.
    + rewrite findEntry_setEntry_eq by (done || by rewrite Hfind). apply IH.
    + by rewrite Hfind.
Qed.

Lemma removed_kind_at (segs parent : list string) (es : list Dirent) (e : Dirent) :
  segs = parent ++ [leaf] →
  resolve segs (alterDir parent (filter kept) es) = Some e →
  isDirectory e ≠ kind.
Proof. intros ->. apply removed_kind. Qed.

Lemma removal_frame (parent segs : list string) (es : list Dirent) :
  ¬ (parent ++ [leaf]) `prefix_of` segs →
  fileOf (resolve segs (alterDir parent (filter kept) es)) = fileOf (resolve segs es).
Proof.
  revert segs es. induction parent as [|a ps IH]; intros segs es Hprefix.
  - destruct segs as [|n rest]; [done |].
    assert (n ≠ leaf) as Hn.
    { intros ->. apply Hprefix. by exists rest. }
    assert (findEntry n (filter kept es) = findEntry n es) as Hsame.
    { apply findEntry_filter_ne. intros e He [Hleaf _]. congruence. }
    cbn [alterDir resolve]. by rewrite Hsame.
  - cbn [alterDir].
    destruct (findEntry a es) as [[fn fc | dn sub]|] eqn:Hfind; [done | | done].
    destruct segs as [|n rest]; [done |].
    destruct (decide (n = a)) as [-> | Hna].
    + destruct rest as [|m rest].
      * cbn [resolve]. rewrite findEntry_setEntry_eq by (done || by rewrite Hfind).
        by rewrite Hfind.
      * rewrite !resolve_cons by done.
        rewrite findEntry_setEntry_eq by (done || by rewrite Hfind).
        rewrite Hfind. apply IH.
        intros [k Hk]. apply Hprefix. exists k. simpl. by rewrite Hk.
    + assert (findEntry n (setEntry a (Directory a (alterDir ps (filter kept) sub)) es)
              = findEntry n es) as Hsame by (by apply findEntry_setEntry_ne).
      cbn [resolve]. by rewrite Hsame.
Qed.

End Removal.

(** After [unlink] no file is read at the path. *)
Lemma unlink_gone (segs : list string) (es : list Dirent) :
  readFile (Some (unlink segs es)) segs = None.
Proof.
  rewrite readFile_resolve. destruct segs as [|n rest]; [done |].
  unfold unlink. set (segs := n :: rest).
  rewrite (segs_split segs) at 1 by done.
  destruct (resolve _ _) as [[fn fc | dn sub]|] eqn:Hres; [| done | done].
  by apply removed_kind in Hres.
Qed.

Lemma unlink_frame (segs other : list string) (es : list Dirent) :
  ¬ segs `prefix_of` other →
  readFile (Some (unlink segs es)) other = readFile (Some es) other.
Proof.
  intros Hprefix. rewrite !readFile_resolve.
  destruct segs as [|n rest]; [done |].
  unfold unlink. set (segs := n :: rest) in *.
  apply (removal_frame false (leafSeg segs) (parentSegs segs) other es).
  by rewrite <- segs_split.
Qed.

(** After [removeTree] the path is no directory and nothing lies below. *)
Lemma removeTree_gone (segs below : list string) (dir : option (list Dirent)) :
  match lookupPath (removeTree segs dir) (segs ++ below) with
  | Some e => below = [] ∧ isDirectory e = false
  | None => True
  end.
Proof.
  destruct dir as [es|]; [| done].
  destruct segs as [|n rest]; [done |].
  set (segs := n :: rest).
  assert (∀ e, lookupPath (removeTree segs (Some es)) segs = Some e → isDirectory e = false)
    as Hhere.
  { intros e Hres. unfold removeTree, lookupPath in Hres. subst segs.
    eapply removed_kind_at in Hres; [| by apply segs_split].
    by destruct (isDirectory e). }
  destruct below as [|b below].
  - rewrite app_nil_r. destruct (lookupPath _ segs) as [e|] eqn:He; [| done].
    split; [done | by apply Hhere].
  - rewrite lookupPath_below by done.
    destruct (lookupPath _ segs) as [[fn fc | dn sub]|] eqn:He; [done | | done].
    by specialize (Hhere _ eq_refl).
Qed.

Lemma removeTree_frame (segs other : list string) (dir : option (list Dirent)) :
  ¬ segs `prefix_of` other →
  readFile (removeTree segs dir) other = readFile dir other.
Proof.
  intros Hprefix. destruct dir as [es|]; [| reflexivity].
  destruct segs as [|n rest].
  - destruct Hprefix. by exists other.
  - unfold removeTree. rewrite !readFile_resolve.
    set (segs := n :: rest) in *.
    apply (removal_frame true (leafSeg segs) (parentSegs segs) other es).
    by rewrite <- segs_split.
Qed.

(** A suffix without separator extends the last piece of a split. *)
Lemma splitChar_append_last (c : ascii) (s t : string) :
  JS.includesChar c t = false →
  ∃ init lst, JS.splitChar c s = init ++ [lst] ∧
              JS.splitChar c (s +:+ t) = init ++ [lst +:+ t].
Proof.
  intros Ht. induction s as [|a s (init & lst & Hs & Hst)].
  - exists [], EmptyString. split; [done |]. by apply splitChar_without.
  - simpl. rewrite Hs, Hst. destruct (Ascii.eqb a c).
    + by exists (EmptyString :: init), lst.
    + destruct init as [|i init]; simpl.
      * by exists [], (String a lst).
      * by exists (String a i :: init), lst.
Qed.

(** *** Segments of a path *)

Lemma joinSegment_name (acc : list string) (s : string) :
  s ≠ EmptyString → s ≠ "." → s ≠ ".." → joinSegment acc s = acc ++ [s].
Proof.
  intros H1 H2 H3. unfold joinSegment.
  rewrite decide_False by (by intros [? | ?]). by rewrite decide_False.
Qed.

(** What one more segment does to the segments so far. *)
Lemma joinSegment_cases (acc : list string) (s : string) :
  joinSegment acc s = acc ∨ joinSegment acc s = acc ++ [s] ∨
  ∃ x, x ≠ ".." ∧ s = ".." ∧ acc = joinSegment acc s ++ [x].
Proof.
  unfold joinSegment.
  destruct (decide (s = EmptyString ∨ s = ".")); [by left |].
  destruct (decide (s = "..")) as [-> | Hup]; [| by right; left].
  destruct (last acc) as [prev|] eqn:Hlast; [| by right; left].
  destruct (decide (prev = "..")); [by right; left |].
  apply last_Some in Hlast as [front ->].
  right; right. exists prev. by rewrite removelast_last.
Qed.

Lemma segments_snoc (p : string) (init : list string) (lst : string) :
  JS.splitChar "/" p = init ++ [lst] →
  segments p = joinSegment (foldl joinSegment [] init) lst.
Proof. intros Hp. unfold segments. by rewrite Hp, foldl_app. Qed.

Lemma md_name (x : string) :
  x +:+ ".md" ≠ EmptyString ∧ x +:+ ".md" ≠ "." ∧ x +:+ ".md" ≠ "..".
Proof.
  repeat split; intros H; apply (f_equal String.length) in H;
    rewrite length_append in H; simpl in H; lia.
Qed.

(** The file path of a page is its folder path with [.md] added to the
    last segment, or the folder path followed by a segment of its own;
    when the page path ends in a [..] that takes a segment back, the file
    lies one directory below the folder path. *)
Lemma segments_md (p : string) :
  ∃ parent leaf,
    segments (p +:+ ".md") = parent ++ [leaf +:+ ".md"] ∧
    (segments p = parent ∨ segments p = parent ++ [leaf] ∨
     ∃ x, x ≠ ".." ∧ leaf = ".." ∧ parent = segments p ++ [x]).
Proof.
  destruct (splitChar_append_last "/" p ".md" eq_refl) as (init & lst & Hp & Hmd).
  exists (foldl joinSegment [] init), lst.
  rewrite (segments_snoc _ _ _ Hmd), (segments_snoc _ _ _ Hp).
  destruct (md_name lst) as (H1 & H2 & H3).
  split; [by apply joinSegment_name | apply joinSegment_cases].
Qed.

Lemma append_md_ne (leaf : string) : leaf ≠ leaf +:+ ".md".
Proof.
  intros H. apply (f_equal String.length) in H.
  rewrite length_append in H. simpl in H. lia.
Qed.

(** C6. The guard of the delete handler compares the text of the path
    with [home].  A path that leads to the file of the home page by
    another text is not refused: the request succeeds and the home page
    is removed.  The claim says that deleting the home page fails with
    Forbidden. *)
Theorem home_page_is_deleted :
  let st :=
    mkServer (Some [File "home.md" "Welcome"; File "about.md" "About"])
             (buildPageIndex (Some [File "home.md" "Welcome"; File "about.md" "About"])) in
  deletePage "home" st = (Fail Forbidden, st) ∧
  deletePage "./home" st =
    (Success (), mkServer (Some [File "about.md" "About"]) {[ "about" := "about" ]}) ∧
  deletePage "x/../home" st =
    (Success (), mkServer (Some [File "about.md" "About"]) {[ "about" := "about" ]}) ∧
  pageExists (pagesDir (deletePage "./home" st).2) "home" = false.
Proof. repeat split; vm_compute; reflexivity. Qed.

(** A file written into a directory is read back. *)
Lemma resolve_alterDir_leaf (parent : list string) (n : string)
    (f : list Dirent → list Dirent) (dir : list Dirent) :
  ∀ es x, lookupPath (Some es) parent = Some (Directory x dir) →
          resolve (parent ++ [n]) (alterDir parent f es) = findEntry n (f dir).
Proof.
  induction parent as [|a ps IH]; intros es x Hlook.
  - simpl in Hlook. by injection Hlook as _ ->.
  - change ((a :: ps) ++ [n]) with (a :: (ps ++ [n])).
    rewrite resolve_cons by (by destruct ps).
    cbn [alterDir]. cbn [lookupPath] in Hlook.
    destruct ps as [|b ps].
    + cbn [resolve] in Hlook. rewrite Hlook.
      rewrite findEntry_setEntry_eq by (done || by rewrite Hlook).
      by apply (IH dir "pages").
    + rewrite resolve_cons in Hlook by done.
      destruct (findEntry a es) as [[fn fc | dn sub]|] eqn:Hfind; [done | | done].
      rewrite findEntry_setEntry_eq by (done || by rewrite Hfind).
      by apply (IH sub x).
Qed.

Lemma writeFile_read (segs : list string) (content : string) (es es' : list Dirent) :
  writeFile segs content es = Some es' → readFile (Some es') segs = Some content.
Proof.
  unfold writeFile. destruct segs as [|n rest]; [done |].
  set (segs := n :: rest).
  destruct (lookupPath (Some es) (parentSegs segs)) as [[fn fc | x dir]|] eqn:Hparent;
    [done | | done].
  rewrite readFile_resolve.
  destruct (findEntry (leafSeg segs) dir) as [[fn fc | dn sub]|] eqn:Hleaf;
    [| done |]; intros [= <-].
  - rewrite (segs_split segs) at 1 by done.
    rewrite (resolve_alterDir_leaf _ _ _ dir es x Hparent).
    by rewrite findEntry_setEntry_eq by (done || by rewrite Hleaf).
  - rewrite (segs_split segs) at 1 by done.
    rewrite (resolve_alterDir_leaf _ _ _ dir es x Hparent).
    by rewrite (findEntry_app_None _ _ _ Hleaf).
Qed.

(** C10. Saving a page leaves the page index as it was: every read of
    a key and every wikilink resolution gives the same result before and
    after, also when the save has put a new page on disk. *)
Theorem save_keeps_index (param content : string) (st : Server) :
  let pagePath := stripLeadingSlash (if decide (param = EmptyString) then "home" else param) in
  let st' := (savePage param content st).2 in
  pageIndex st' = pageIndex st ∧
  (∀ key, indexGet (pageIndex st') key = indexGet (pageIndex st) key) ∧
  (∀ text currentPagePath,
     processWikilinks (pageIndex st') text currentPagePath =
     processWikilinks (pageIndex st) text currentPagePath) ∧
  ((savePage param content st).1 = Success pagePath →
   readFile (pagesDir st') (segments (pagePath +:+ ".md")) = Some content ∧
   pageExists (pagesDir st') pagePath = true).
Proof.
  intros pagePath st'. subst st'. unfold savePage. fold pagePath.
  destruct (decide (content = EmptyString)) as [Hc | Hc]; [done |].
  destruct (writePage _ _ _) as [es|] eqn:Hwrite; [| done].
  simpl. split; [done |]. split; [done |]. split; [done |]. intros _.
  unfold writePage in Hwrite.
  destruct (mkdirp _ _) as [es1|]; [| done].
  apply writeFile_read in Hwrite. split; [done |].
  unfold pageExists, access. apply bool_decide_eq_true.
  unfold readFile in Hwrite. by destruct (lookupPath _ _).
Qed.

Lemma save_keeps_index_witness :
  let entries := [File "home.md" "[[Nintendo]]"] in
  let st := mkServer (Some entries) (buildPageIndex (Some entries)) in
  let st1 := (savePage "nintendo" "# Nintendo" st).2 in
  let st2 := (createPage "sega" "Sega" st1).2 in
  pageExists (pagesDir st) "nintendo" = false ∧
  pageExists (pagesDir st1) "nintendo" = true ∧
  processWikilinks (pageIndex st1) "[[Nintendo]]" (Some "home") =
    linkHtml "nintendo" false "Nintendo" ∧
  processWikilinks (pageIndex st2) "[[Nintendo]]" (Some "home") =
    linkHtml "nintendo" true "Nintendo".
Proof.
  intros entries st st1 st2.
  destruct (save_keeps_index "nintendo" "# Nintendo" st) as (_ & _ & Hlinks & Hdisk).
  split; [reflexivity |]. split; [| split].
  - apply Hdisk. reflexivity.
  - subst st1. rewrite Hlinks. vm_compute. reflexivity.
  - vm_compute. reflexivity.
Defined.

(** ** Replacement scans *)

(** A scan whose attempts never throw is the pure substitution. *)
Lemma replaceScan_pure
    (attempt : string → string → option (string * Outcome string))
    (found : string → option (string * string)) :
  (∀ pre s, attempt pre s =
            match found s with
            | Some (rest, replacement) => Some (rest, Done replacement)
            | None => None
            end) →
  ∀ s skip pre, replaceScan attempt skip pre s = Done (substituteAll found skip s).
Proof.
  intros Hattempt. induction s as [|c s IH]; intros skip pre.
  - destruct skip as [|k]; [| done]. simpl. rewrite Hattempt.
    by destruct (found EmptyString) as [[rest replacement]|].
  - destruct skip as [|k]; [| apply IH].
    cbn [replaceScan substituteAll]. rewrite Hattempt.
    destruct (found (String c s)) as [[rest replacement]|]; simpl.
    + by rewrite IH.
    + by rewrite IH.
Qed.

(** ** The matcher on the patterns of the reference rewriter *)

Lemma sameChar_open_bracket (a : ascii) : Regex.sameChar a "[" = Ascii.eqb a "[".
Proof. by destruct a as [[] [] [] [] [] [] [] []]. Qed.

Lemma sameChar_close_bracket (a : ascii) : Regex.sameChar a "]" = Ascii.eqb a "]".
Proof. by destruct a as [[] [] [] [] [] [] [] []]. Qed.

Lemma sameChar_open_paren (a : ascii) : Regex.sameChar a "(" = Ascii.eqb a "(".
Proof. by destruct a as [[] [] [] [] [] [] [] []]. Qed.

Lemma sameChar_close_paren (a : ascii) : Regex.sameChar a ")" = Ascii.eqb a ")".
Proof. by destruct a as [[] [] [] [] [] [] [] []]. Qed.

Lemma sameChar_slash (a : ascii) : Regex.sameChar a "/" = Ascii.eqb a "/".
Proof. by destruct a as [[] [] [] [] [] [] [] []]. Qed.

Lemma inClass_notBracket (a : ascii) :
  Regex.inClass true [("]"%char, "]"%char)] a = negb (Ascii.eqb a "]").
Proof. by destruct a as [[] [] [] [] [] [] [] []]. Qed.

(** No letter case makes a closing bracket of a plain character. *)
Lemma sameChar_bracket_plain (c : ascii) :
  plainChar c = true → Regex.sameChar "]" c = false.
Proof. by destruct c as [[] [] [] [] [] [] [] []]. Qed.

Section MatcherLemmas.

Context {A : Type}.
Variable total : nat.

(** The matcher depends on its continuation pointwise. *)
Lemma matchRe_ext (r : Regex.regex) :
  ∀ s caps (k1 k2 : string → gmap nat string → option A),
    (∀ s' caps', k1 s' caps' = k2 s' caps') →
    Regex.matchRe total r s caps k1 = Regex.matchRe total r s caps k2.
Proof.
  induction r as [| c | | neg ranges | | | r1 IH1 r2 IH2 | r1 IH1 r2 IH2 | r IHr | i r IHr];
    intros s caps k1 k2 Hk; cbn [Regex.matchRe].
  - apply Hk.
  - destruct s as [|a s]; [done |]. by destruct (Regex.sameChar a c).
  - destruct s as [|a s]; [done |]. by destruct (Regex.isLineTerminator a).
  - destruct s as [|a s]; [done |]. by destruct (Regex.inClass neg ranges a).
  - by destruct (String.length s =? total).
  - by destruct s.
  - apply IH1. intros s' caps'. by apply IH2.
  - rewrite (IH1 s caps k1 k2 Hk), (IH2 s caps k1 k2 Hk). done.
  - generalize (String.length s). intros n. revert s caps.
    induction n as [|n IHn]; intros s caps; cbn [Regex.starLoop]; [apply Hk |].
    rewrite (Hk s caps).
    erewrite IHr; [reflexivity |].
    intros s' caps'. simpl. destruct (String.length s' <? String.length s); [| done].
    apply IHn.
  - apply IHr. intros s' caps'. apply Hk.
Qed.

Lemma matchRe_seq_app (ts1 ts2 : list Regex.regex) (s : string)
    (caps : gmap nat string) (k : string → gmap nat string → option A) :
  Regex.matchRe total (Regex.seqRegex (ts1 ++ ts2)) s caps k =
  Regex.matchRe total (Regex.seqRegex ts1) s caps
    (fun s' caps' => Regex.matchRe total (Regex.seqRegex ts2) s' caps' k).
Proof.
  revert s caps k. induction ts1 as [|t ts1 IH]; intros s caps k; [done |].
  cbn [app Regex.seqRegex foldr Regex.matchRe].
  apply matchRe_ext. intros s' caps'. apply IH.
Qed.

(** A run of pattern characters matches as a prefix, letter case apart. *)
Lemma matchRe_chrs (name : string) (s : string) (caps : gmap nat string)
    (k : string → gmap nat string → option A) :
  Regex.matchRe total (Regex.seqRegex (Regex.chrs name)) s caps k =
  match stripPrefixCI name s with
  | Some rest => k rest caps
  | None => None
  end.
Proof.
  revert s. induction name as [|c name IH]; intros s; [done |].
  cbn [Regex.chrs Regex.seqRegex foldr Regex.matchRe stripPrefixCI].
  destruct s as [|a s]; [done |].
  destruct (Regex.sameChar a c); [apply IH | done].
Qed.

(** The star over [notBracket]. *)
Lemma starLoop_notBracket (k : string → gmap nat string → option A) :
  ∀ n s caps, String.length s ≤ n →
    Regex.starLoop (Regex.matchRe total Regex.notBracket) k n s caps =
    Regex.backtrackRun (fun s' => k s' caps) s.
Proof.
  induction n as [|n IH]; intros s caps Hlen.
  - destruct s; [done | simpl in Hlen; lia].
  - cbn [Regex.starLoop]. destruct s as [|a s]; [done |].
    cbn [Regex.matchRe Regex.notBracket Regex.backtrackRun].
    rewrite inClass_notBracket. destruct (Ascii.eqb a "]"); [done |].
    cbn [negb]. assert ((String.length s <? String.length (String a s)) = true) as ->.
    { apply Nat.ltb_lt. simpl. lia. }
    rewrite IH by (simpl in Hlen; lia). done.
Qed.

Lemma matchRe_star_notBracket (s : string) (caps : gmap nat string)
    (k : string → gmap nat string → option A) :
  Regex.matchRe total (Regex.Star Regex.notBracket) s caps k =
  Regex.backtrackRun (fun s' => k s' caps) s.
Proof. cbn [Regex.matchRe]. by apply starLoop_notBracket. Qed.

(** A continuation that needs a closing bracket first only succeeds
    after the whole run. *)
Lemma backtrackRun_close (kk : string → option A) (s : string) :
  (∀ a s', Ascii.eqb a "]" = false → kk (String a s') = None) →
  Regex.backtrackRun kk s = kk (spanNotBracket s).2.
Proof.
  intros Hkk. induction s as [|a s IH]; [done |].
  cbn [Regex.backtrackRun spanNotBracket].
  destruct (Ascii.eqb a "]") eqn:Ha; [done |].
  rewrite IH, (Hkk a s Ha).
  destruct (spanNotBracket s) as [run rest]. simpl.
  by destruct (kk rest).
Qed.

End MatcherLemmas.

(** *** Runs without closing bracket *)

Lemma spanNotBracket_app (s : string) :
  s = (spanNotBracket s).1 +:+ (spanNotBracket s).2.
Proof.
  induction s as [|a s IH]; [done |]. simpl.
  destruct (Ascii.eqb a "]"); [done |].
  destruct (spanNotBracket s) as [run rest]. simpl in *. by f_equal.
Qed.

(** A plain name at the start of a text lies inside its first run. *)
Lemma stripPrefixCI_span (name : string) :
  plainName name = true →
  ∀ s,
    stripPrefixCI name (spanNotBracket s).1 =
      (fun s3 => (spanNotBracket s3).1) <$> stripPrefixCI name s ∧
    (∀ s3, stripPrefixCI name s = Some s3 →
           (spanNotBracket s3).2 = (spanNotBracket s).2).
Proof.
  induction name as [|c name IH]; intros Hplain s; [by split; [| intros ? [= <-]] |].
  simpl in Hplain. apply andb_prop in Hplain as [Hc Hname].
  destruct s as [|b s]; [done |].
  cbn [spanNotBracket].
  destruct (Ascii.eqb b "]") eqn:Hb.
  - apply Ascii.eqb_eq in Hb as ->. simpl.
    by rewrite (sameChar_bracket_plain c Hc).
  - destruct (spanNotBracket s) as [run rest] eqn:Hspan. simpl.
    destruct (Regex.sameChar b c); [| done].
    specialize (IH Hname s). rewrite Hspan in IH. exact IH.
Qed.

Lemma containsCI_unfold (name : string) (c : ascii) (s : string) :
  containsCI name (String c s) =
  match stripPrefixCI name (String c s) with
  | Some _ => true
  | None => containsCI name s
  end.
Proof. done. Qed.

(** The wikilink pattern between its brackets: run, name, run and then a
    continuation that needs a closing bracket. *)
Lemma backtrackRun_name {A : Type} (name : string) (kk : string → option A) :
  plainName name = true →
  (∀ a s', Ascii.eqb a "]" = false → kk (String a s') = None) →
  ∀ s,
    Regex.backtrackRun
      (fun s2 => match stripPrefixCI name s2 with
                 | Some s3 => Regex.backtrackRun kk s3
                 | None => None
                 end) s =
    if containsCI name (spanNotBracket s).1 then kk (spanNotBracket s).2 else None.
Proof.
  intros Hplain Hkk.
  assert (∀ s, match stripPrefixCI name s with
               | Some s3 => Regex.backtrackRun kk s3
               | None => None
               end =
               match stripPrefixCI name (spanNotBracket s).1 with
               | Some _ => kk (spanNotBracket s).2
               | None => None
               end) as Hhere.
  { intros s. destruct (stripPrefixCI_span name Hplain s) as [Hrun Hrest].
    rewrite Hrun. destruct (stripPrefixCI name s) as [s3|]; [| done].
    simpl. rewrite (backtrackRun_close kk s3 Hkk). by rewrite (Hrest s3). }
  induction s as [|a s IH].
  - cbn [Regex.backtrackRun]. rewrite Hhere. simpl.
    by destruct (stripPrefixCI name EmptyString).
  - cbn [Regex.backtrackRun]. destruct (Ascii.eqb a "]") eqn:Ha.
    + rewrite Hhere. cbn [spanNotBracket]. rewrite Ha. simpl.
      by destruct (stripPrefixCI name EmptyString).
    + rewrite IH, Hhere. cbn [spanNotBracket]. rewrite Ha.
      destruct (spanNotBracket s) as [run rest]. cbn [fst snd].
      rewrite containsCI_unfold.
      destruct (stripPrefixCI name (String a run)).
      * by destruct (containsCI name run), (kk rest).
      * by destruct (containsCI name run), (kk rest).
Qed.

(** What a group captures is the text it passed. *)
Lemma consumed_app (a b : string) : Regex.consumed (a +:+ b) b = a.
Proof.
  induction a as [|c a IH].
  - change (EmptyString +:+ b) with b. destruct b as [|d b]; [done |].
    cbn [Regex.consumed].
    by destruct (Nat.leb_spec (String.length (String d b)) (String.length (String d b)));
      [| lia].
  - rewrite append_String. cbn [Regex.consumed].
    destruct (Nat.leb_spec (String.length (String c (a +:+ b))) (String.length b))
      as [Hle | Hgt].
    + simpl in Hle. rewrite length_append in Hle. lia.
    + by rewrite IH.
Qed.

Lemma stripPrefix_Some (p s rest : string) :
  JS.stripPrefix p s = Some rest → s = p +:+ rest.
Proof.
  revert s. induction p as [|a p IH]; intros s; simpl; [by intros [= ->] |].
  destruct s as [|b s]; [done |].
  destruct (Ascii.eqb a b) eqn:Hab; [| done].
  apply Ascii.eqb_eq in Hab as ->. intros H. f_equal. by apply IH.
Qed.


Lemma backtrackRun_ext {A : Type} (k1 k2 : string → option A) (s : string) :
  (∀ s', k1 s' = k2 s') → Regex.backtrackRun k1 s = Regex.backtrackRun k2 s.
Proof.
  intros Hk. induction s as [|a s IH]; simpl; [apply Hk |].
  by rewrite IH, Hk.
Qed.

(** Equations of the matcher. *)
Lemma seqRegex_cons (t : Regex.regex) (ts : list Regex.regex) :
  Regex.seqRegex (t :: ts) = Regex.Cat t (Regex.seqRegex ts).
Proof. done. Qed.

Lemma seqRegex_nil : Regex.seqRegex [] = Regex.Eps.
Proof. done. Qed.

Section MatcherEquations.

Context {A : Type}.
Variable total : nat.
Implicit Types (s : string) (caps : gmap nat string)
  (k : string → gmap nat string → option A).

Lemma matchRe_Cat r1 r2 s caps k :
  Regex.matchRe total (Regex.Cat r1 r2) s caps k =
  Regex.matchRe total r1 s caps (fun s' caps' => Regex.matchRe total r2 s' caps' k).
Proof. done. Qed.

Lemma matchRe_Eps s caps k : Regex.matchRe total Regex.Eps s caps k = k s caps.
Proof. done. Qed.

Lemma matchRe_Alt r1 r2 s caps k :
  Regex.matchRe total (Regex.Alt r1 r2) s caps k =
  match Regex.matchRe total r1 s caps k with
  | Some x => Some x
  | None => Regex.matchRe total r2 s caps k
  end.
Proof. done. Qed.

Lemma matchRe_Grp i r s caps k :
  Regex.matchRe total (Regex.Grp i r) s caps k =
  Regex.matchRe total r s caps
    (fun s' caps' => k s' (<[i := Regex.consumed s s']> caps')).
Proof. done. Qed.

(** An escaped or plain punctuation character matches itself only. *)
Lemma matchRe_punct (c : ascii) s caps k :
  (∀ a, Regex.sameChar a c = Ascii.eqb a c) →
  Regex.matchRe total (Regex.Chr c) s caps k =
  match JS.stripPrefix (String c EmptyString) s with
  | Some s' => k s' caps
  | None => None
  end.
Proof.
  intros Hc. destruct s as [|a s]; [done |].
  cbn [Regex.matchRe JS.stripPrefix]. rewrite Hc, (Ascii.eqb_sym c a).
  by destruct (Ascii.eqb a c).
Qed.

Lemma matchRe_notBracket s caps k :
  Regex.matchRe total Regex.notBracket s caps k =
  match s with
  | String a s' => if Ascii.eqb a "]" then None else k s' caps
  | EmptyString => None
  end.
Proof.
  destruct s as [|a s]; [done |].
  cbn [Regex.matchRe Regex.notBracket]. rewrite inClass_notBracket.
  by destruct (Ascii.eqb a "]").
Qed.

(** The part of the wikilink pattern inside its group. *)
Lemma matchRe_wikilink_body (name s1 : string) caps k :
  plainName name = true →
  (∀ a s', Ascii.eqb a "]" = false → k (String a s') caps = None) →
  Regex.matchRe total
    (Regex.Cat (Regex.Star Regex.notBracket)
       (Regex.seqRegex (Regex.chrs name ++ [Regex.Star Regex.notBracket]))) s1 caps k =
  if containsCI name (spanNotBracket s1).1 then k (spanNotBracket s1).2 caps else None.
Proof.
  intros Hplain Hk.
  rewrite matchRe_Cat, matchRe_star_notBracket.
  rewrite <- (backtrackRun_name name (fun s4 => k s4 caps) Hplain Hk s1).
  apply backtrackRun_ext. intros s2.
  rewrite matchRe_seq_app, matchRe_chrs.
  destruct (stripPrefixCI name s2) as [s3|]; [| done].
  rewrite seqRegex_cons, seqRegex_nil, matchRe_Cat, matchRe_star_notBracket.
  done.
Qed.

End MatcherEquations.

Lemma stripPrefix_two (a b : ascii) (s : string) :
  JS.stripPrefix (String a (String b EmptyString)) s =
  match JS.stripPrefix (String a EmptyString) s with
  | Some s' => JS.stripPrefix (String b EmptyString) s'
  | None => None
  end.
Proof.
  destruct s as [|c s]; [done |]. simpl. by destruct (Ascii.eqb a c).
Qed.

(** The wikilink pattern at a position: a bracket pair whose inner text
    contains the name; the group captures the inner text. *)
Lemma exec_wikilink (name pre s : string) :
  plainName name = true →
  Regex.exec (wikilinkRegex name) pre s =
  match bracketPairAt s with
  | Some (inner, rest) =>
      if containsCI name inner then Some (rest, {[ 1 := inner ]}) else None
  | None => None
  end.
Proof.
  intros Hplain. unfold Regex.exec, wikilinkRegex, bracketPairAt.
  generalize (String.length pre + String.length s). intros total.
  rewrite !seqRegex_cons, seqRegex_nil, stripPrefix_two.
  rewrite matchRe_Cat, (matchRe_punct total "[") by apply sameChar_open_bracket.
  destruct (JS.stripPrefix (String "[" EmptyString) s) as [s0|]; [| done].
  rewrite matchRe_Cat, (matchRe_punct total "[") by apply sameChar_open_bracket.
  destruct (JS.stripPrefix (String "[" EmptyString) s0) as [s1|]; [| done].
  rewrite matchRe_Cat, matchRe_Grp.
  assert (∀ caps a s',
            Ascii.eqb a "]" = false →
            Regex.matchRe total
              (Regex.Cat (Regex.Chr "]") (Regex.Cat (Regex.Chr "]") Regex.Eps))
              (String a s') caps
              (fun rest caps' => Some (rest, caps')) = None) as Hclose.
  { intros caps a s' Ha. rewrite matchRe_Cat.
    rewrite (matchRe_punct total "]") by apply sameChar_close_bracket.
    cbn [JS.stripPrefix]. by rewrite (Ascii.eqb_sym "]" a), Ha. }
  rewrite matchRe_wikilink_body; [| done | intros a s' Ha; apply Hclose, Ha].
  pose proof (spanNotBracket_app s1) as Hs1.
  destruct (spanNotBracket s1) as [run rest1]. cbn [fst snd] in *.
  cbv beta iota zeta. rewrite stripPrefix_two.
  rewrite matchRe_Cat, (matchRe_punct total "]") by apply sameChar_close_bracket.
  destruct (JS.stripPrefix (String "]" EmptyString) rest1) as [rest2|];
    [| by destruct (containsCI name run)].
  rewrite matchRe_Cat, (matchRe_punct total "]") by apply sameChar_close_bracket.
  destruct (JS.stripPrefix (String "]" EmptyString) rest2) as [rest|];
    [| by destruct (containsCI name run)].
  rewrite matchRe_Eps. rewrite Hs1 at 1. by rewrite consumed_app, insert_empty.
Qed.

(** The name alone, as the inner replacement compiles it. *)
Lemma exec_name (name pre s : string) :
  Regex.exec (Regex.seqRegex (Regex.chrs name)) pre s =
  match stripPrefixCI name s with
  | Some rest => Some (rest, ∅)
  | None => None
  end.
Proof. unfold Regex.exec. by rewrite matchRe_chrs. Qed.

(** The end of the markdown link pattern: the path and the closing
    parenthesis, which the second group captures. *)
Lemma matchRe_target (total : nat) (path s : string) (caps : gmap nat string) :
  Regex.matchRe total
    (Regex.seqRegex (Regex.chrs path ++ [Regex.Grp 2 (Regex.seqRegex [Regex.Chr ")"])]))
    s caps (fun rest caps' => Some (rest, caps')) =
  match targetAt path s with
  | Some rest => Some (rest, <[2 := ")"]> caps)
  | None => None
  end.
Proof.
  unfold targetAt. rewrite matchRe_seq_app, matchRe_chrs.
  destruct (stripPrefixCI path s) as [s5|]; [| done].
  rewrite !seqRegex_cons, !seqRegex_nil, matchRe_Cat, matchRe_Grp, matchRe_Cat.
  rewrite (matchRe_punct total ")") by apply sameChar_close_paren.
  destruct (JS.stripPrefix (String ")" EmptyString) s5) as [rest|] eqn:Hrest; [| done].
  rewrite !matchRe_Eps. apply stripPrefix_Some in Hrest. rewrite Hrest at 1.
  by rewrite consumed_app.
Qed.

(** The markdown link pattern at a position. *)
Lemma exec_mdLink (path pre s : string) :
  Regex.exec (mdLinkRegex path) pre s =
  match mdLinkAt s with
  | Some (label, s3) =>
      let caps : gmap nat string := <[2 := ")"]> {[ 1 := "[" +:+ label +:+ "](" ]} in
      match
        match JS.stripPrefix "/" s3 with
        | Some s4 => targetAt path s4
        | None => None
        end
      with
      | Some rest => Some (rest, caps)
      | None =>
          match targetAt path s3 with
          | Some rest => Some (rest, caps)
          | None => None
          end
      end
  | None => None
  end.
Proof.
  unfold Regex.exec, mdLinkRegex, mdLinkAt.
  generalize (String.length pre + String.length s). intros total.
  rewrite !seqRegex_cons, !seqRegex_nil.
  rewrite matchRe_Cat, matchRe_Grp, matchRe_Cat.
  rewrite (matchRe_punct total "[") by apply sameChar_open_bracket.
  destruct (JS.stripPrefix (String "[" EmptyString) s) as [s1|] eqn:Hs; [| done].
  apply stripPrefix_Some in Hs.
  rewrite matchRe_Cat, matchRe_Cat, matchRe_notBracket.
  pose proof (spanNotBracket_app s1) as Hs1.
  destruct s1 as [|a s1']; [done |].
  cbn [spanNotBracket] in *. destruct (Ascii.eqb a "]") eqn:Ha; [done |].
  rewrite matchRe_star_notBracket.
  rewrite backtrackRun_close.
  2:{ intros b s' Hb. rewrite matchRe_Cat.
      rewrite (matchRe_punct total "]") by apply sameChar_close_bracket.
      cbn [JS.stripPrefix]. by rewrite (Ascii.eqb_sym "]" b), Hb. }
  destruct (spanNotBracket s1') as [run rest1]. cbn [fst snd] in *.
  cbv beta iota zeta. rewrite stripPrefix_two.
  rewrite matchRe_Cat, (matchRe_punct total "]") by apply sameChar_close_bracket.
  destruct (JS.stripPrefix (String "]" EmptyString) rest1) as [rest2|] eqn:Hrest1; [| done].
  apply stripPrefix_Some in Hrest1.
  rewrite matchRe_Cat, (matchRe_punct total "(") by apply sameChar_open_paren.
  destruct (JS.stripPrefix (String "(" EmptyString) rest2) as [s3|] eqn:Hrest2; [| done].
  apply stripPrefix_Some in Hrest2.
  rewrite matchRe_Eps.
  assert (Regex.consumed s s3 = "[" +:+ String a run +:+ "](") as ->.
  { rewrite Hs, Hs1, Hrest1, Hrest2.
    replace (String "[" EmptyString +:+ String a run +:+
             String "]" EmptyString +:+ String "(" EmptyString +:+ s3)
      with (("[" +:+ String a run +:+ "](") +:+ s3).
    - apply consumed_app.
    - rewrite !append_assoc. reflexivity. }
  rewrite insert_empty, matchRe_Cat, matchRe_Alt.
  rewrite (matchRe_punct total "/") by apply sameChar_slash.
  rewrite matchRe_Eps.
  destruct (JS.stripPrefix (String "/" EmptyString) s3) as [s4|].
  - rewrite !matchRe_target.
    by destruct (targetAt path s4), (targetAt path s3).
  - rewrite matchRe_target. by destruct (targetAt path s3).
Qed.

(** ** The parser on the patterns of the reference rewriter *)

Lemma parseFrom_app (a b : string) (st : Regex.PState) :
  Regex.parseFrom st (a +:+ b) =
  match Regex.run a st with
  | Done st' => Regex.parseFrom st' b
  | Throws => Throws
  | Unmodelled => Unmodelled
  end.
Proof.
  revert st. induction a as [|c a IH]; intros st; [done |].
  rewrite append_String. cbn [Regex.parseFrom Regex.run].
  destruct (Regex.step c st); [apply IH | done | done].
Qed.

Lemma plainChar_syntax (c : ascii) : plainChar c = true → Regex.isSyntaxChar c = false.
Proof. unfold plainChar. by destruct (Regex.isSyntaxChar c). Qed.

Lemma pushTerm_mode (t : Regex.regex) (st : Regex.PState) :
  Regex.mode (Regex.pushTerm t st) = Regex.Normal.
Proof. done. Qed.

(** Plain characters are read as themselves. *)
Lemma run_plain (name : string) :
  plainName name = true →
  ∀ st, Regex.mode st = Regex.Normal → Regex.run name st = Done (Regex.pushChars name st).
Proof.
  induction name as [|c name IH]; intros Hplain st Hmode; [done |].
  simpl in Hplain. apply andb_prop in Hplain as [Hc Hname].
  cbn [Regex.run Regex.pushChars]. unfold Regex.step. rewrite Hmode.
  unfold Regex.stepNormal. rewrite (plainChar_syntax c Hc).
  by apply IH.
Qed.

(** So are the characters of a path once its slashes are escaped. *)
Lemma run_escaped (path : string) :
  plainPath path = true →
  ∀ st, Regex.mode st = Regex.Normal →
        Regex.run (escapeSlashes path) st = Done (Regex.pushChars path st).
Proof.
  induction path as [|c path IH]; intros Hplain st Hmode; [done |].
  simpl in Hplain. apply andb_prop in Hplain as [Hc Hpath].
  cbn [escapeSlashes Regex.pushChars].
  destruct (Ascii.eqb c "/") eqn:Hslash.
  - apply Ascii.eqb_eq in Hslash as ->.
    cbn [Regex.run]. unfold Regex.step at 1. rewrite Hmode.
    by apply IH.
  - rewrite orb_false_r in Hc.
    cbn [Regex.run]. unfold Regex.step. rewrite Hmode.
    unfold Regex.stepNormal. rewrite (plainChar_syntax c Hc).
    by apply IH.
Qed.

Lemma pushChars_spec (name : string) :
  ∀ stack index alts terms next last,
    Regex.pushChars name
      (Regex.mkPState Regex.Normal stack (Regex.mkFrame index alts terms) next last) =
    Regex.mkPState Regex.Normal stack
      (Regex.mkFrame index alts (rev (Regex.chrs name) ++ terms)) next
      (match name with EmptyString => last | String _ _ => Regex.Atom end).
Proof.
  induction name as [|c name IH]; intros stack index alts terms next last; [done |].
  cbn [Regex.pushChars Regex.chrs]. unfold Regex.pushTerm. cbn [Regex.stack
    Regex.current Regex.frameIndex Regex.frameAlts Regex.frameSeq Regex.nextGroup].
  rewrite IH. cbn [rev]. rewrite <- app_assoc. by destruct name.
Qed.

Lemma rev_rev_snoc (l : list Regex.regex) (x : Regex.regex) :
  rev (rev l ++ [x]) = x :: l.
Proof. by rewrite rev_app_distr, rev_involutive. Qed.

(** The three patterns of the rewriter compile as expected when the
    name is plain. *)
Lemma compile_name (name : string) :
  plainName name = true →
  Regex.compile name = Done (Regex.seqRegex (Regex.chrs name)).
Proof.
  intros Hplain. unfold Regex.compile.
  rewrite <- (append_empty_r name) at 1.
  rewrite parseFrom_app, (run_plain name Hplain) by done.
  unfold Regex.initial. rewrite pushChars_spec.
  cbn [Regex.parseFrom Regex.mode Regex.stack Regex.current].
  unfold Regex.frameRegex. cbn [Regex.frameSeq Regex.frameAlts rev app].
  by rewrite app_nil_r, rev_involutive.
Qed.

Lemma compile_wikilink (name : string) :
  plainName name = true →
  Regex.compile (wikilinkSource name) = Done (wikilinkRegex name).
Proof.
  intros Hplain. unfold Regex.compile, wikilinkSource.
  rewrite parseFrom_app.
  let st := eval vm_compute in (Regex.run "\[\[([^\]]*" Regex.initial) in
  change (Regex.run "\[\[([^\]]*" Regex.initial) with st.
  cbv beta iota.
  rewrite parseFrom_app, (run_plain name Hplain) by done.
  rewrite pushChars_spec.
  unfold wikilinkRegex.
  replace (Regex.Star Regex.notBracket :: Regex.chrs name ++ [Regex.Star Regex.notBracket])
    with (rev (rev (Regex.chrs name) ++ [Regex.Star Regex.notBracket])
          ++ [Regex.Star Regex.notBracket])
    by (by rewrite rev_rev_snoc).
  generalize (rev (Regex.chrs name)). intros terms.
  reflexivity.
Qed.

Lemma compile_mdLink (path : string) :
  plainPath path = true →
  Regex.compile (mdLinkSource path) = Done (mdLinkRegex path).
Proof.
  intros Hplain. unfold Regex.compile, mdLinkSource.
  rewrite parseFrom_app.
  let st := eval vm_compute in (Regex.run "(\[[^\]]+\]\()/?" Regex.initial) in
  change (Regex.run "(\[[^\]]+\]\()/?" Regex.initial) with st.
  cbv beta iota.
  rewrite parseFrom_app, (run_escaped path Hplain) by done.
  rewrite pushChars_spec.
  unfold mdLinkRegex.
  set (grp := Regex.Grp 1 _).
  set (opt := Regex.Alt _ _).
  remember (rev (Regex.chrs path)) as terms eqn:Hterms.
  assert (Regex.chrs path = rev terms) as -> by (subst terms; by rewrite rev_involutive).
  clear Hterms.
  replace (grp :: opt :: rev terms ++ [Regex.Grp 2 (Regex.seqRegex [Regex.Chr ")"])])
    with (rev (Regex.Grp 2 (Regex.seqRegex [Regex.Chr ")"]) :: terms ++ [opt; grp])).
  - reflexivity.
  - cbn [rev]. rewrite rev_app_distr. reflexivity.
Qed.

(** ** The reference rewriter on plain names *)

Lemma substitute_dollarFree (matched before after : string) (caps : gmap nat string)
    (m : nat) (replacement : string) :
  dollarFree replacement = true →
  substitute matched before after caps m replacement = replacement.
Proof.
  unfold dollarFree. induction replacement as [|c r IH]; [done |].
  cbn [JS.includesChar substitute].
  destruct (Ascii.eqb c "$"); [done |].
  intros H. by rewrite IH.
Qed.

(** The inner replacement replaces every occurrence of the name. *)
Lemma replaceRegex_name (oldName newName text : string) :
  dollarFree newName = true →
  replaceRegex (Regex.seqRegex (Regex.chrs oldName))
    (stringReplacer (Regex.seqRegex (Regex.chrs oldName)) newName) text =
  Done (substituteAll
          (fun s => match stripPrefixCI oldName s with
                    | Some rest => Some (rest, newName)
                    | None => None
                    end) 0 text).
Proof.
  intros Hnew. unfold replaceRegex. apply replaceScan_pure.
  intros pre s. unfold regexAttempt. rewrite exec_name.
  destruct (stripPrefixCI oldName s) as [rest|]; [| done].
  unfold stringReplacer. by rewrite substitute_dollarFree.
Qed.

Lemma wikilink_attempt (oldName newName pre s : string) :
  plainName oldName = true → dollarFree newName = true →
  regexAttempt (wikilinkRegex oldName) (wikilinkReplacer oldName newName) pre s =
  match specWikilinkAt oldName newName s with
  | Some (rest, replacement) => Some (rest, Done replacement)
  | None => None
  end.
Proof.
  intros Hplain Hnew. unfold regexAttempt, specWikilinkAt.
  rewrite exec_wikilink by done.
  destruct (bracketPairAt s) as [[inner rest]|]; [| done].
  destruct (containsCI oldName inner); [| done].
  unfold wikilinkReplacer. rewrite lookup_singleton_eq.
  rewrite compile_name by done. cbn [bindOutcome].
  rewrite replaceRegex_name by done. reflexivity.
Qed.

Lemma mdLink_attempt (oldPath newPath pre s : string) :
  regexAttempt (mdLinkRegex oldPath) (mdLinkReplacer newPath) pre s =
  match specMdLinkAt oldPath newPath s with
  | Some (rest, replacement) => Some (rest, Done replacement)
  | None => None
  end.
Proof.
  unfold regexAttempt, specMdLinkAt. rewrite exec_mdLink.
  destruct (mdLinkAt s) as [[label s3]|]; [| done].
  assert (∀ matched before after,
            mdLinkReplacer newPath matched
              (<[2 := ")"]> {[ 1 := "[" +:+ label +:+ "](" ]}) before after =
            Done ("[" +:+ label +:+ "](" +:+ newPath +:+ ")")) as Hrepl.
  { intros. unfold mdLinkReplacer, templateText.
    rewrite lookup_insert_ne, lookup_singleton_eq, lookup_insert_eq by done.
    simpl. by rewrite !append_assoc. }
  cbv zeta.
  destruct (match JS.stripPrefix "/" s3 with
            | Some s4 => targetAt oldPath s4
            | None => None
            end) as [rest|].
  - by rewrite Hrepl.
  - destruct (targetAt oldPath s3) as [rest|]; [| done]. by rewrite Hrepl.
Qed.

(** On plain names the two substitutions are those of the
    specification. *)
Lemma rewriteContent_plain (oldName newName oldPath newPath content : string) :
  plainName oldName = true → plainPath oldPath = true → dollarFree newName = true →
  rewriteContent oldName newName oldPath newPath content =
  Done (specRewriteContent oldName newName oldPath newPath content).
Proof.
  intros Hname Hpath Hnew. unfold rewriteContent, specRewriteContent.
  rewrite compile_wikilink by done. cbn [bindOutcome].
  unfold replaceRegex at 1.
  rewrite (replaceScan_pure _ (specWikilinkAt oldName newName))
    by (intros; by apply wikilink_attempt).
  cbn [bindOutcome]. rewrite compile_mdLink by done. cbn [bindOutcome].
  unfold replaceRegex.
  rewrite (replaceScan_pure _ (specMdLinkAt oldPath newPath))
    by (intros; apply mdLink_attempt).
  reflexivity.
Qed.

(** The pieces of a plain path are plain names. *)
Lemma splitChar_plain (p : string) :
  plainPath p = true → Forall (fun piece => plainName piece = true) (JS.splitChar "/" p).
Proof.
  induction p as [|a p IH]; intros Hplain; [by constructor |].
  simpl in Hplain. apply andb_prop in Hplain as [Ha Hp]. specialize (IH Hp).
  cbn [JS.splitChar]. destruct (Ascii.eqb a "/") eqn:Hslash.
  - by constructor.
  - rewrite orb_false_r in Ha.
    destruct (JS.splitChar "/" p) as [|h t];
      [constructor; [unfold plainName; cbn [allChars]; by rewrite Ha | constructor] |].
    inversion IH as [|? ? Hh Ht]; subst. constructor; [| done].
    unfold plainName in *. cbn [allChars]. by rewrite Ha, Hh.
Qed.

Lemma lastSegment_plain (p : string) :
  plainPath p = true → plainName (lastSegment p) = true.
Proof.
  intros Hplain. unfold lastSegment.
  pose proof (splitChar_plain p Hplain) as Hall.
  induction Hall as [|x l Hx Hl IH]; [done |].
  destruct l; [done | exact IH].
Qed.

Section WalkRefinement.

Variables oldName newName oldPath newPath : string.
Hypothesis Hname : plainName oldName = true.
Hypothesis Hpath : plainPath oldPath = true.
Hypothesis Hnew : dollarFree newName = true.

Lemma walkList_spec (body : Dirent → Dirent * list string * Outcome unit)
    (spec : Dirent → Dirent * list string) (items : list Dirent) :
  Forall (fun e => body e = ((spec e).1, (spec e).2, Done tt)) items →
  walkList body items =
  mkWalk ((fun e => (spec e).1) <$> items) (concat ((fun e => (spec e).2) <$> items))
    (Done tt).
Proof.
  induction 1 as [|e es He _ IH]; [done |].
  cbn [walkList]. rewrite He, IH. reflexivity.
Qed.

Lemma updateEntry_spec (item : Dirent) :
  ∀ basePath,
    updateEntry oldName newName oldPath newPath item basePath =
    ((specUpdateEntry oldName newName oldPath newPath item basePath).1,
     (specUpdateEntry oldName newName oldPath newPath item basePath).2, Done tt).
Proof.
  induction item as [n content | n entries IH] using Dirent_nested_ind; intros basePath.
  - cbn [updateEntry specUpdateEntry]. destruct (hidden (File n content)); [done |].
    destruct (JS.endsWith ".md" n); [| done].
    rewrite rewriteContent_plain by done.
    by destruct (specRewriteContent _ _ _ _ content) as [finalContent []].
  - cbn [updateEntry specUpdateEntry]. destruct (hidden (Directory n entries)); [done |].
    generalize (pathJoin basePath (direntName (Directory n entries))).
    intros relativePath.
    rewrite (walkList_spec _
               (fun e => specUpdateEntry oldName newName oldPath newPath e relativePath)).
    + cbn [walkEntries walkUpdates walkStatus fst snd].
      by rewrite <- !list_fmap_compose.
    + eapply Forall_impl; [exact IH |]. intros e He. apply He.
Qed.

Lemma updateDirectory_spec (entries : list Dirent) (basePath : string) :
  updateDirectory oldName newName oldPath newPath entries basePath =
  mkWalk ((fun e => (specUpdateEntry oldName newName oldPath newPath e basePath).1)
            <$> entries)
         (concat ((fun e => (specUpdateEntry oldName newName oldPath newPath e basePath).2)
                    <$> entries))
         (Done tt).
Proof.
  unfold updateDirectory.
  apply (walkList_spec _
           (fun e => specUpdateEntry oldName newName oldPath newPath e basePath)).
  apply Forall_forall. intros e _. apply updateEntry_spec.
Qed.

End WalkRefinement.

(** ** Reference rewriter *)

(** A markdown link whose label holds a bracket, or is empty, keeps its
    target, and the page is not reported. *)
Lemma linked_image_target_kept :
  let entries := [File "home.md" "[![logo](logo.png)](old-name) and [](old-name)"] in
  updatePageReferences entries "old-name" "new-name" = mkWalk entries [] (Done tt).
Proof. vm_compute. reflexivity. Qed.

(** A name with characters that are special in a pattern reaches the
    [RegExp] constructor as it is. *)
Lemma special_name_throws :
  Regex.compile (wikilinkSource "c++") = Throws ∧
  walkStatus (updatePageReferences [File "home.md" "see [[c++]]"] "c++" "cpp") = Throws.
Proof. split; vm_compute; reflexivity. Qed.

(** C4, amended. For a rename whose old path is made of ASCII
    characters that stand for themselves in a pattern (and slashes), and
    whose new name holds no dollar sign, the walk over the visible pages
    ends without error and is the walk of the specification: in each
    page, from left to right, each bracket pair whose inner text contains
    the old name, ASCII letter case apart, has every occurrence of it
    replaced by the new name; then each markdown link with a non-empty
    label free of closing brackets whose target is the old path, ASCII
    letter case apart, with or without a leading slash, has its target
    replaced by the new path; a page is rewritten and reported exactly
    when one of the two applied. *)
Theorem reference_rewriter (entries : list Dirent) (oldPath newPath : string) :
  JS.isAscii oldPath = true →
  plainPath oldPath = true →
  dollarFree (lastSegment newPath) = true →
  let walk := updatePageReferences entries oldPath newPath in
  walkStatus walk = Done tt ∧
  (walkEntries walk, walkUpdates walk) = specUpdatePageReferences entries oldPath newPath ∧
  (∀ content,
     rewriteContent (lastSegment oldPath) (lastSegment newPath) oldPath newPath content =
     Done (specRewriteContent (lastSegment oldPath) (lastSegment newPath)
             oldPath newPath content)).
Proof.
  intros _ Hpath Hnew walk. subst walk.
  pose proof (lastSegment_plain oldPath Hpath) as Hname.
  unfold updatePageReferences, specUpdatePageReferences.
  rewrite updateDirectory_spec by done.
  cbn [walkStatus walkEntries walkUpdates].
  split; [done |]. split.
  - by rewrite <- !list_fmap_compose.
  - intros content. by apply rewriteContent_plain.
Qed.

Lemma reference_rewriter_witness :
  let entries :=
    [File "home.md" "see [[Old-Name|the page]]";
     Directory "guides"
       [File "old-name.md" "self";
        File "other.md" "[text](/guides/old-name) and [[atari]]"]] in
  let walk := updatePageReferences entries "guides/old-name" "guides/new-name" in
  walkStatus walk = Done tt ∧
  (walkEntries walk, walkUpdates walk) =
    ([File "home.md" "see [[new-name|the page]]";
      Directory "guides"
        [File "old-name.md" "self";
         File "other.md" "[text](guides/new-name) and [[atari]]"]],
     ["home"; "guides/other"]).
Proof.
  intros entries walk.
  pose proof (reference_rewriter entries "guides/old-name" "guides/new-name"
                eq_refl eq_refl eq_refl) as H.
  cbv zeta in H. destruct H as (Hstatus & Hspec & _).
  split; [exact Hstatus |].
  etransitivity; [exact Hspec |].
  vm_compute. reflexivity.
Defined.

(** ** Renaming a page *)

Lemma nameChar_lower_not_space (c : ascii) :
  isNameChar c = true → JS.isWhiteSpace (JS.lowerChar c) = false.
Proof. by destruct c as [[] [] [] [] [] [] [] []]. Qed.

Lemma nameChar_not_slash (c : ascii) :
  isNameChar c = true → Ascii.eqb (JS.lowerChar c) "/" = false.
Proof. by destruct c as [[] [] [] [] [] [] [] []]. Qed.

(** A valid name is normalized by lowercasing alone. *)
Lemma normalizeName_valid (newName : string) :
  validName newName = true → normalizeName newName = JS.toLowerCase newName.
Proof.
  unfold validName, normalizeName, JS.replaceWhitespaceRuns.
  intros H. apply andb_prop in H as [_ H].
  induction newName as [|c n IH]; [done |].
  simpl in H. apply andb_prop in H as [Hc Hn].
  cbn [JS.toLowerCase JS.hyphenate]. rewrite (nameChar_lower_not_space c Hc).
  by rewrite IH.
Qed.

Lemma lower_valid_no_slash (newName : string) :
  validName newName = true → JS.includesChar "/" (JS.toLowerCase newName) = false.
Proof.
  unfold validName. intros H. apply andb_prop in H as [_ H].
  induction newName as [|c n IH]; [done |].
  simpl in H. apply andb_prop in H as [Hc Hn].
  cbn [JS.toLowerCase JS.includesChar]. rewrite (nameChar_not_slash c Hc). by apply IH.
Qed.

Lemma splitChar_no_sep (c : ascii) (s : string) :
  Forall (fun piece => JS.includesChar c piece = false) (JS.splitChar c s).
Proof.
  induction s as [|a s IH]; [by repeat constructor |].
  cbn [JS.splitChar]. destruct (Ascii.eqb a c) eqn:Hac.
  - by constructor.
  - destruct (JS.splitChar c s) as [|h t];
      [constructor; [cbn [JS.includesChar]; by rewrite Hac | constructor] |].
    inversion IH as [|? ? Hh Ht]; subst. constructor; [| done].
    cbn [JS.includesChar]. by rewrite Hac.
Qed.

Lemma splitChar_join (c : ascii) (parts : list string) :
  parts ≠ [] →
  Forall (fun piece => JS.includesChar c piece = false) parts →
  JS.splitChar c (JS.join (String c EmptyString) parts) = parts.
Proof.
  intros Hne Hall. induction Hall as [|x l Hx Hl IH]; [done |].
  destruct l as [|y l].
  - by apply splitChar_without.
  - rewrite join_cons_two.
    change (x +:+ String c EmptyString +:+ JS.join (String c EmptyString) (y :: l))
      with (x +:+ String c (JS.join (String c EmptyString) (y :: l))).
    rewrite splitChar_first by done. by rewrite IH.
Qed.

Lemma splitChar_nonempty (c : ascii) (s : string) : JS.splitChar c s ≠ [].
Proof.
  destruct s as [|a s]; [done |]. simpl.
  destruct (Ascii.eqb a c); [done |]. by destruct (JS.splitChar c s).
Qed.

(** The new path is the old one with its last segment replaced. *)
Lemma renamedPath_split (oldPath newName : string) :
  validName newName = true →
  JS.splitChar "/" (renamedPath oldPath newName) =
  removelast (JS.splitChar "/" oldPath) ++ [JS.toLowerCase newName].
Proof.
  intros Hvalid. unfold renamedPath. apply splitChar_join.
  - by destruct (removelast (JS.splitChar "/" oldPath)).
  - apply Forall_app. split.
    + pose proof (splitChar_no_sep "/" oldPath) as Hall.
      rewrite (app_removelast_last EmptyString (splitChar_nonempty "/" oldPath)) in Hall.
      by apply Forall_app in Hall as [Hinit _].
    + constructor; [by apply lower_valid_no_slash | constructor].
Qed.

(** The file of the old page and the file of the new page lie in the
    same directory. *)
Lemma segments_renamed (oldPath newName : string) :
  validName newName = true →
  ∃ parent oldLeaf,
    segments (oldPath +:+ ".md") = parent ++ [oldLeaf +:+ ".md"] ∧
    segments (renamedPath oldPath newName +:+ ".md") =
      parent ++ [JS.toLowerCase newName +:+ ".md"].
Proof.
  intros Hvalid.
  destruct (splitChar_append_last "/" oldPath ".md" eq_refl) as (init & lst & Hold & Holdmd).
  destruct (splitChar_append_last "/" (renamedPath oldPath newName) ".md" eq_refl)
    as (init' & lst' & Hnew & Hnewmd).
  rewrite (renamedPath_split _ _ Hvalid), Hold, removelast_last in Hnew.
  apply app_inj_tail in Hnew as [<- <-].
  exists (foldl joinSegment [] init), lst.
  rewrite (segments_snoc _ _ _ Holdmd), (segments_snoc _ _ _ Hnewmd).
  destruct (md_name lst) as (? & ? & ?).
  destruct (md_name (JS.toLowerCase newName)) as (? & ? & ?).
  by rewrite !joinSegment_name.
Qed.

(** *** The walk keeps names and kinds *)

Lemma walkList_shape (body : Dirent → Dirent * list string * Outcome unit)
    (items : list Dirent) :
  Forall (fun e => shape (body e).1.1 = shape e) items →
  map shape (walkEntries (walkList body items)) = map shape items.
Proof.
  induction 1 as [|e es He _ IH]; [done |].
  cbn [walkList]. destruct (body e) as [[e' updates] status]. simpl in He.
  destruct status; cbn [walkEntries map]; by rewrite ?He, ?IH.
Qed.

Lemma updateEntry_shape (oldName newName oldPath newPath : string) (item : Dirent) :
  ∀ basePath,
    shape (updateEntry oldName newName oldPath newPath item basePath).1.1 = shape item.
Proof.
  induction item as [n content | n entries IH] using Dirent_nested_ind; intros basePath.
  - cbn [updateEntry]. destruct (hidden (File n content)); [done |].
    destruct (JS.endsWith ".md" n); [| done].
    by destruct (rewriteContent _ _ _ _ content) as [[finalContent []] | |].
  - cbn [updateEntry]. destruct (hidden (Directory n entries)); [done |].
    cbn [fst shape]. f_equal. apply walkList_shape.
    eapply Forall_impl; [exact IH |]. intros e He. apply He.
Qed.

Lemma updatePageReferences_shape (entries : list Dirent) (oldPath newPath : string) :
  map shape (walkEntries (updatePageReferences entries oldPath newPath)) = map shape entries.
Proof.
  unfold updatePageReferences, updateDirectory. apply walkList_shape.
  apply Forall_forall. intros e _. apply updateEntry_shape.
Qed.

Lemma shape_name (e : Dirent) : direntName (shape e) = direntName e.
Proof. by destruct e. Qed.

Lemma findEntry_shape (n : string) (es : list Dirent) :
  findEntry n (map shape es) = shape <$> findEntry n es.
Proof.
  induction es as [|e es IH]; [done |].
  cbn [map findEntry]. rewrite shape_name.
  by destruct (decide (direntName e = n)).
Qed.

Lemma resolve_shape (segs : list string) :
  ∀ es, resolve segs (map shape es) = shape <$> resolve segs es.
Proof.
  induction segs as [|n rest IH]; intros es; [done |].
  destruct rest as [|m rest]; [apply findEntry_shape |].
  rewrite !resolve_cons by done. rewrite findEntry_shape.
  destruct (findEntry n es) as [[fn fc | dn sub]|]; [done | | done].
  apply IH.
Qed.

(** Two listings of the same shape resolve the same paths. *)
Lemma access_shape (es es' : list Dirent) (segs : list string) :
  map shape es' = map shape es →
  access (Some es') segs = access (Some es) segs.
Proof.
  intros Hshape. unfold access, lookupPath.
  destruct segs as [|n rest]; [done |].
  apply bool_decide_ext.
  rewrite <- (fmap_is_Some shape (resolve (n :: rest) es')),
          <- (fmap_is_Some shape (resolve (n :: rest) es)).
  by rewrite <- !resolve_shape, Hshape.
Qed.

Lemma access_leaf (es : list Dirent) (parent : list string) (n : string) :
  access (Some es) (parent ++ [n]) =
  match lookupPath (Some es) parent with
  | Some (Directory _ dir) => bool_decide (is_Some (findEntry n dir))
  | _ => false
  end.
Proof.
  unfold access. rewrite lookupPath_below by done.
  destruct (lookupPath (Some es) parent) as [[fn fc | dn dir]|]; [| done |].
  - apply bool_decide_eq_false. by intros [? ?].
  - apply bool_decide_eq_false. by intros [? ?].
Qed.

(** Renaming a file to a free sibling name succeeds. *)
Lemma renameSibling_free (es : list Dirent) (parent : list string) (from to : string) :
  access (Some es) (parent ++ [from]) = true →
  access (Some es) (parent ++ [to]) = false →
  is_Some (renameSibling (parent ++ [from]) to es).
Proof.
  rewrite !access_leaf. unfold renameSibling.
  destruct (parent ++ [from]) as [|x l] eqn:Hsegs; [by destruct parent |].
  rewrite <- Hsegs. unfold parentSegs, leafSeg.
  rewrite removelast_last, last_last.
  destruct (lookupPath (Some es) parent) as [[fn fc | dn dir]|]; [done | | done].
  intros Hfrom Hto. apply bool_decide_eq_true in Hfrom as [source Hsource].
  apply bool_decide_eq_false in Hto.
  unfold renameIn. rewrite Hsource.
  destruct (decide (from = to)); [done |].
  destruct (findEntry to dir) as [target|]; [| done].
  destruct Hto. by exists target.
Qed.

(** The home page with a missing name is answered as a bad request. *)
Lemma home_rename_without_name :
  let st := mkServer (Some [File "home.md" "H"]) ∅ in
  renamePage "home" EmptyString st = Some (Fail Required, st) ∧
  renamePage "home" EmptyString st ≠ Some (Fail Forbidden, st).
Proof. split; [reflexivity | discriminate]. Qed.

(** The guard of the rename handler compares the text of the path as
    well: with a leading slash the home page is renamed. *)
Lemma home_renamed_through_slash_path :
  let st := mkServer (Some [File "home.md" "H"]) ∅ in
  renamePage "home" "start" st = Some (Fail Forbidden, st) ∧
  renamePage "/home" "start" st =
    Some (Success (mkRenameBody "/home" "/start" []),
          mkServer (Some [File "start.md" "H"]) {[ "start" := "start" ]}).
Proof. split; vm_compute; reflexivity. Qed.

(** C5, amended. A rename with an empty old path or new name fails with
    Required.  Otherwise it fails with Forbidden when the old path is the
    text [home].  For an old path that does not lead to the file of the
    home page: it fails with InvalidName unless the new name is made of
    letters, digits and hyphens; otherwise, for an old path that stays
    inside the pages directory, the new path is the old one with its last
    segment replaced by the normalized new name, and the rename fails
    with AlreadyExists when a page exists there; otherwise with NotFound
    when no page exists at the old path; otherwise, when the rewriting of
    the references ends without error, it succeeds, reports the rewritten
    pages and rebuilds the index.  (What happens for another text that
    leads to the home page is left open here.) *)
Theorem rename_page (oldPath newName : string) (st : Server) :
  let newPath := renamedPath oldPath newName in
  (oldPath = EmptyString ∨ newName = EmptyString →
   renamePage oldPath newName st = Some (Fail Required, st)) ∧
  (oldPath ≠ EmptyString → newName ≠ EmptyString →
   (oldPath = "home" → renamePage oldPath newName st = Some (Fail Forbidden, st)) ∧
   (segments (oldPath +:+ ".md") ≠ ["home.md"] →
    (validName newName = false →
     renamePage oldPath newName st = Some (Fail InvalidName, st)) ∧
    (validName newName = true →
     insidePages (segments (oldPath +:+ ".md")) = true →
     JS.splitChar "/" newPath =
       removelast (JS.splitChar "/" oldPath) ++ [normalizeName newName] ∧
     (pageExists (pagesDir st) newPath = true →
      renamePage oldPath newName st = Some (Fail AlreadyExists, st)) ∧
     (pageExists (pagesDir st) newPath = false →
      (pageExists (pagesDir st) oldPath = false →
       renamePage oldPath newName st = Some (Fail NotFound, st)) ∧
      (pageExists (pagesDir st) oldPath = true →
       ∀ entries, pagesDir st = Some entries →
         walkStatus (updatePageReferences entries oldPath newPath) = Done tt →
         ∃ st',
           renamePage oldPath newName st =
             Some (Success (mkRenameBody oldPath newPath
                              (walkUpdates (updatePageReferences entries oldPath newPath))),
                   st') ∧
           pageIndex st' = buildPageIndex (pagesDir st')))))).
Proof.
  intros newPath. unfold renamePage. fold newPath. split.
  - intros Hempty. by rewrite decide_True.
  - intros Hold Hnew. rewrite decide_False by (by intros [? | ?]).
    split; [intros Hhome; by rewrite decide_True |].
    intros Hfile.
    assert (oldPath ≠ "home") as Hhome by (by intros ->).
    rewrite decide_False by done.
    split; [by intros -> |].
    intros Hvalid _. rewrite Hvalid. cbn [negb].
    split; [by rewrite normalizeName_valid; [apply renamedPath_split |] |].
    split; [by intros -> |].
    intros Hfree. rewrite Hfree.
    split; [unfold pageExists; by intros -> |].
    unfold pageExists at 1. intros Hthere. rewrite Hthere. cbn [negb].
    intros entries Hentries Hwalk. rewrite Hentries, Hwalk.
    destruct (segments_renamed oldPath newName Hvalid)
      as (parent & oldLeaf & HoldSegs & HnewSegs). fold newPath in HnewSegs.
    set (w := updatePageReferences entries oldPath newPath) in *.
    pose proof (updatePageReferences_shape entries oldPath newPath) as Hshape.
    fold w in Hshape.
    destruct (renameSibling_free (walkEntries w) parent
                (oldLeaf +:+ ".md") (JS.toLowerCase newName +:+ ".md"))
      as [renamed Hrenamed].
    + rewrite (access_shape _ _ _ Hshape), <- HoldSegs, <- Hentries. exact Hthere.
    + rewrite (access_shape _ _ _ Hshape), <- HnewSegs, <- Hentries. exact Hfree.
    + rewrite HoldSegs, Hrenamed. eexists. split; [reflexivity | reflexivity].
Qed.

Lemma rename_page_witness :
  let entries :=
    [File "home.md" "see [[old-name]]";
     Directory "guides" [File "old-name.md" "self"; File "other.md" "[t](guides/old-name)"]] in
  let st := mkServer (Some entries) (buildPageIndex (Some entries)) in
  renamePage "home" "start" st = Some (Fail Forbidden, st) ∧
  renamePage "guides/old-name" "new name" st = Some (Fail InvalidName, st) ∧
  renamePage "guides/old-name" "Other" st = Some (Fail AlreadyExists, st) ∧
  renamePage "guides/x/../missing" "new-name" st = Some (Fail NotFound, st) ∧
  ∃ st', renamePage "guides/old-name" "New-Name" st =
           Some (Success (mkRenameBody "guides/old-name" "guides/new-name"
                            ["home"; "guides/other"]), st').
Proof.
  intros entries st.
  split; [| split; [| split; [| split]]].
  - apply (proj2 (rename_page "home" "start" st)); done.
  - apply (proj2 (rename_page "guides/old-name" "new name" st)); done.
  - apply (proj2 (rename_page "guides/old-name" "Other" st)); done.
  - apply (proj2 (rename_page "guides/x/../missing" "new-name" st)); done.
  - destruct (proj2 (rename_page "guides/old-name" "New-Name" st)) as [_ Hnothome]; try done.
    destruct Hnothome as [_ Hvalid]; [done |].
    destruct Hvalid as (_ & _ & Hfree); [done | done |].
    destruct Hfree as [_ Hthere]; [done |].
    destruct (Hthere eq_refl entries eq_refl) as (st' & Hst' & _); [by vm_compute |].
    exists st'. exact Hst'.
Defined.

(** * Further properties *)

(** ** Saving, reading and previewing a page *)

Lemma writePage_read (dir : option (list Dirent)) (segs : list string)
    (content : string) (es : list Dirent) :
  writePage dir segs content = Some es → readFile (Some es) segs = Some content.
Proof.
  unfold writePage. destruct (mkdirp _ _) as [es1|]; [| done].
  apply writeFile_read.
Qed.

Lemma readFile_access (dir : option (list Dirent)) (segs : list string) (content : string) :
  readFile dir segs = Some content → access dir segs = true.
Proof.
  unfold readFile, access. intros H. apply bool_decide_eq_true.
  by destruct (lookupPath dir segs).
Qed.

(** What the page handler sends for a file that is read. *)
Lemma getPage_read (marked : string → string) (param : string) (st : Server)
    (content : string) :
  let pagePath := stripLeadingSlash (if decide (param = EmptyString) then "home" else param) in
  readFile (pagesDir st) (segments (pagePath +:+ ".md")) = Some content →
  getPage marked param st =
  Success (mkPageBody pagePath
             (marked (processWikilinks (pageIndex st) (splitFooter content).1 (Some pagePath)))
             (if decide ((splitFooter content).2 = EmptyString) then EmptyString
              else if decide (processWikilinks (pageIndex st) (splitFooter content).2
                                (Some pagePath) = EmptyString)
                   then EmptyString
                   else marked (processWikilinks (pageIndex st) (splitFooter content).2
                                  (Some pagePath)))
             content).
Proof.
  intros pagePath Hread. unfold getPage. fold pagePath.
  rewrite (readFile_access _ _ _ Hread), Hread.
  destruct (splitFooter content) as [mainContent footerContent]. simpl.
  by destruct (decide (footerContent = EmptyString)).
Qed.

(** X1. A page that was saved is read back as it was written: the page
    handler answers with the saved text as its raw content.  Empty
    content is refused and nothing is written. *)
Theorem save_then_get (marked : string → string) (param content : string) (st : Server) :
  let pagePath := stripLeadingSlash (if decide (param = EmptyString) then "home" else param) in
  (content = EmptyString → savePage param content st = (Fail Required, st)) ∧
  ((savePage param content st).1 = Success pagePath →
   ∃ body, getPage marked param (savePage param content st).2 = Success body ∧
           body_path body = pagePath ∧ body_raw body = content).
Proof.
  intros pagePath. split.
  - intros ->. reflexivity.
  - unfold savePage. fold pagePath.
    destruct (decide (content = EmptyString)); [done |].
    destruct (writePage _ _ _) as [es|] eqn:Hwrite; [| done]. intros _.
    apply writePage_read in Hwrite.
    eexists. split; [| split].
    + apply (getPage_read marked param (mkServer (Some es) (pageIndex st)) content Hwrite).
    + reflexivity.
    + reflexivity.
Qed.

Lemma save_then_get_witness :
  let st := mkServer (Some [File "home.md" "H"]) ∅ in
  ∃ body, getPage (fun html => html) "guides/intro"
            (savePage "guides/intro" "# Intro" st).2 = Success body ∧
          body_path body = "guides/intro" ∧ body_raw body = "# Intro".
Proof.
  intros st.
  apply (proj2 (save_then_get (fun html => html) "guides/intro" "# Intro" st)).
  reflexivity.
Defined.

(** The current page matters to a link only when it is no root page. *)
Lemma linkTarget_root (pageIndex : gmap string string) (a b : option string)
    (pageName : string) :
  atRoot a = true → atRoot b = true →
  linkTarget pageIndex a pageName = linkTarget pageIndex b pageName.
Proof. intros Ha Hb. unfold linkTarget. by rewrite Ha, Hb. Qed.

Lemma processWikilinks_root (pageIndex : gmap string string) (content : string)
    (a b : option string) :
  atRoot a = true → atRoot b = true →
  processWikilinks pageIndex content a = processWikilinks pageIndex content b.
Proof.
  intros Ha Hb. unfold processWikilinks.
  generalize (wikilinkMatches content). intros matches. revert content.
  induction matches as [|inner matches IH]; intros content; [done |].
  cbn [foldl]. unfold wikilinkHtml at 2 4.
  destruct (pageNameAndDisplay inner) as [pageName displayText].
  rewrite (linkTarget_root pageIndex a b pageName Ha Hb).
  apply IH.
Qed.

Lemma splitFooter_noRule (content : string) :
  noRule content → splitFooter content = (content, EmptyString).
Proof. intros Hno. unfold splitFooter. by rewrite (splitRule_noRule _ Hno). Qed.

(** X2. The preview shows what the page shows once it is saved: for a
    text without a rule delimiter, the page handler answers with the
    rendering the preview gave for that text and page, and with no
    footer. *)
Theorem preview_matches_page (marked : string → string) (param content : string)
    (st : Server) :
  let pagePath := stripLeadingSlash (if decide (param = EmptyString) then "home" else param) in
  let st' := (savePage param content st).2 in
  noRule content →
  (savePage param content st).1 = Success pagePath →
  ∃ html,
    previewPage marked content (Some pagePath) st' = Success html ∧
    getPage marked param st' = Success (mkPageBody pagePath html EmptyString content).
Proof.
  intros pagePath st' Hno. subst st'. unfold savePage. fold pagePath.
  destruct (decide (content = EmptyString)) as [| Hcontent]; [done |].
  destruct (writePage _ _ _) as [es|] eqn:Hwrite; [| done]. intros _.
  apply writePage_read in Hwrite. cbn [snd].
  rewrite (getPage_read marked param (mkServer (Some es) (pageIndex st)) content Hwrite).
  fold pagePath. rewrite (splitFooter_noRule _ Hno). cbn [fst snd pageIndex].
  rewrite decide_True by done.
  unfold previewPage. rewrite decide_False by done. cbn [pageIndex].
  eexists. split; [reflexivity |]. do 3 f_equal.
  destruct (decide (pagePath = EmptyString)) as [-> | Hpath]; [| done].
  by apply processWikilinks_root.
Qed.

Lemma preview_matches_page_witness :
  let st := mkServer (Some [File "home.md" "H"]) {[ "home" := "home" ]} in
  ∃ html,
    previewPage (fun text => text) "see [[Home]]" (Some "notes") (savePage "notes" "see [[Home]]" st).2
      = Success html ∧
    getPage (fun text => text) "notes" (savePage "notes" "see [[Home]]" st).2
      = Success (mkPageBody "notes" html EmptyString "see [[Home]]").
Proof.
  intros st.
  apply (preview_matches_page (fun text => text) "notes" "see [[Home]]" st).
  - apply splitRule_single. reflexivity.
  - reflexivity.
Defined.

(** ** The rebuilt index and the pages on disk *)

Lemma lowerChar_idem (c : ascii) : JS.lowerChar (JS.lowerChar c) = JS.lowerChar c.
Proof. by destruct c as [[] [] [] [] [] [] [] []]. Qed.

Lemma toLowerCase_idem (s : string) : JS.toLowerCase (JS.toLowerCase s) = JS.toLowerCase s.
Proof. induction s as [|c s IH]; [done |]. simpl. by rewrite lowerChar_idem, IH. Qed.

Lemma toLowerCase_empty (s : string) : JS.toLowerCase s = EmptyString → s = EmptyString.
Proof. by destruct s. Qed.

Lemma indexSet_lookup (k v key p : string) (idx : gmap string string) :
  indexSet k v idx !! key = Some p → idx !! key = Some p ∨ (key = k ∧ p = v).
Proof.
  unfold indexSet. destruct (decide (k = "__proto__")); [by left |].
  destruct (decide (k = key)) as [-> | Hne].
  - rewrite lookup_insert_eq. intros [= ->]. by right.
  - rewrite lookup_insert_ne by done. by left.
Qed.

(** What a page adds to the index is filed under one of its two keys. *)
Lemma indexStep_provenance (idx : gmap string string) (pg : string * string)
    (key p : string) :
  indexStep idx pg !! key = Some p →
  idx !! key = Some p ∨
  (p = pg.2 ∧ (key = JS.toLowerCase pg.1 ∨ key = JS.toLowerCase pg.2)).
Proof.
  unfold indexStep, indexPage. intros H.
  apply indexSet_lookup in H as [H | [-> ->]]; [| right; split; [done | by right]].
  destruct (indexGet idx (JS.toLowerCase pg.1)); [by left |].
  apply indexSet_lookup in H as [H | [-> ->]]; [by left |].
  right. split; [done | by left].
Qed.

Lemma foldl_indexStep_provenance (pages : list (string * string)) :
  ∀ (idx : gmap string string) (key p : string),
    foldl indexStep idx pages !! key = Some p →
    idx !! key = Some p ∨
    ∃ pg, pg ∈ pages ∧ p = pg.2 ∧
          (key = JS.toLowerCase pg.1 ∨ key = JS.toLowerCase pg.2).
Proof.
  induction pages as [|pg pages IH]; intros idx key p; [by left |].
  cbn [foldl]. intros H. apply IH in H as [H | (q & Hq & Hp & Hkey)].
  - apply indexStep_provenance in H as [H | [Hp Hkey]]; [by left |].
    right. exists pg. split; [by left | done].
  - right. exists q. split; [by right | done].
Qed.

(** The value of an entry of the rebuilt index is the path of a page met
    by the scan. *)
Lemma index_provenance_walk (entries : list Dirent) (key p : string) :
  buildPageIndex (Some entries) !! key = Some p →
  ∃ pageName, (pageName, p) ∈ walkDirectory entries EmptyString.
Proof.
  unfold buildPageIndex. rewrite scanDirectory_walk. intros H.
  apply foldl_indexStep_provenance in H as [H | ([pageName path] & Hin & -> & _)];
    [done |].
  by exists pageName.
Qed.

(** X3. In a pages directory with ASCII names, every entry of the
    rebuilt index stems from a markdown file met by the scan: its value
    is the path of that page and its key is the lowercased leaf name or
    the lowercased path of the page; so no key holds a capital letter. *)
Theorem index_provenance (entries : list Dirent) (key p : string) :
  asciiDir entries = true →
  buildPageIndex (Some entries) !! key = Some p →
  ∃ pageName,
    (pageName, p) ∈ walkDirectory entries EmptyString ∧
    (key = JS.toLowerCase pageName ∨ key = JS.toLowerCase p) ∧
    JS.toLowerCase key = key.
Proof.
  intros _. unfold buildPageIndex. rewrite scanDirectory_walk. intros H.
  apply foldl_indexStep_provenance in H as [H | ([pageName path] & Hin & -> & Hkey)];
    [done |].
  exists pageName. split; [done |]. split; [done |].
  destruct Hkey as [-> | ->]; apply toLowerCase_idem.
Qed.

Lemma index_provenance_witness :
  ∃ pageName,
    (pageName, "Computers/Atari") ∈
      walkDirectory [Directory "Computers" [File "Atari.md" "A"]] EmptyString ∧
    ("atari" = JS.toLowerCase pageName ∨ "atari" = JS.toLowerCase "Computers/Atari") ∧
    JS.toLowerCase "atari" = "atari".
Proof.
  apply (index_provenance [Directory "Computers" [File "Atari.md" "A"]]
           "atari" "Computers/Atari"); reflexivity.
Defined.

(** *** Every page is found *)

(** *** Every page is found *)

Lemma holdsPath_get (idx : gmap string string) (key : string) :
  key ≠ "__proto__" → holdsPath idx key →
  ∃ p, indexGet idx key = Some p ∧ JS.toLowerCase p = key.
Proof.
  intros Hkey (p & Hp & Hne & Hlower). exists p. split; [| done].
  by apply indexGet_own.
Qed.

(** A key that holds its path keeps holding one through every page. *)
Lemma indexStep_holdsPath (idx : gmap string string) (pg : string * string) (key : string) :
  key ≠ "__proto__" → holdsPath idx key → holdsPath (indexStep idx pg) key.
Proof.
  intros Hkey (p & Hp & Hne & Hlower).
  destruct (decide (JS.toLowerCase pg.2 = key)) as [Hpath | Hpath].
  - exists pg.2. split; [| split; [| done]].
    + destruct pg as [pageName pagePath]. simpl in *.
      rewrite <- Hpath. apply indexStep_path_key. by rewrite Hpath.
    + intros Hempty. rewrite Hempty in Hpath. simpl in Hpath.
      rewrite <- Hpath in Hlower. by apply toLowerCase_empty in Hlower.
  - exists p. split; [| done].
    rewrite indexStep_keep; [done | | done].
    exists p. by apply indexGet_own.
Qed.

Lemma foldl_indexStep_holdsPath (pages : list (string * string)) :
  ∀ (idx : gmap string string) (key : string),
    key ≠ "__proto__" → holdsPath idx key → holdsPath (foldl indexStep idx pages) key.
Proof.
  induction pages as [|pg pages IH]; intros idx key Hkey Hholds; [done |].
  cbn [foldl]. apply IH; [done |]. by apply indexStep_holdsPath.
Qed.

(** A key that reads as truthy keeps doing so, the empty key apart. *)
Lemma indexStep_truthy (idx : gmap string string) (pg : string * string) (key : string) :
  key ≠ EmptyString → is_Some (indexGet idx key) → is_Some (indexGet (indexStep idx pg) key).
Proof.
  intros Hkey Hsome.
  destruct (decide (key = "__proto__")) as [-> | Hproto]; [by eexists |].
  destruct (decide (JS.toLowerCase pg.2 = key)) as [Hpath | Hpath].
  - exists pg.2. apply indexGet_own; [done | |].
    + destruct pg as [pageName pagePath]. simpl in *.
      rewrite <- Hpath. apply indexStep_path_key. by rewrite Hpath.
    + intros Hempty. rewrite Hempty in Hpath. simpl in Hpath. by subst key.
  - by rewrite (indexGet_ext idx) by by apply indexStep_keep.
Qed.

Lemma foldl_indexStep_truthy (pages : list (string * string)) :
  ∀ (idx : gmap string string) (key : string),
    key ≠ EmptyString → is_Some (indexGet idx key) →
    is_Some (indexGet (foldl indexStep idx pages) key).
Proof.
  induction pages as [|pg pages IH]; intros idx key Hkey Hsome; [done |].
  cbn [foldl]. apply IH; [done |]. by apply indexStep_truthy.
Qed.

(** After its own step the leaf key of a page reads as truthy. *)
Lemma indexStep_leaf_truthy (idx : gmap string string) (pageName pagePath : string) :
  pagePath ≠ EmptyString →
  is_Some (indexGet (indexStep idx (pageName, pagePath)) (JS.toLowerCase pageName)).
Proof.
  intros Hne.
  destruct (indexGet idx (JS.toLowerCase pageName)) as [v|] eqn:Hget.
  - destruct (decide (JS.toLowerCase pagePath = JS.toLowerCase pageName)) as [Heq | Hneq].
    + destruct (decide (JS.toLowerCase pageName = "__proto__")) as [-> | Hproto];
        [by eexists |].
      exists pagePath. apply indexGet_own; [done | | done].
      rewrite <- Heq. apply indexStep_path_key. by rewrite Heq.
    + rewrite (indexGet_ext idx); [by rewrite Hget |].
      apply indexStep_keep; [by rewrite Hget | done].
  - exists pagePath. apply indexGet_own; [by eapply indexGet_None_proto | | done].
    by apply indexStep_leaf_key.
Qed.

(** The two keys of a page met by the scan, in the rebuilt index. *)
Lemma walk_page_indexed (entries : list Dirent) (pageName pagePath : string) :
  (pageName, pagePath) ∈ walkDirectory entries EmptyString →
  pagePath ≠ EmptyString →
  (JS.toLowerCase pagePath ≠ "__proto__" →
   ∃ p, indexGet (buildPageIndex (Some entries)) (JS.toLowerCase pagePath) = Some p ∧
        JS.toLowerCase p = JS.toLowerCase pagePath) ∧
  (pageName ≠ EmptyString →
   is_Some (indexGet (buildPageIndex (Some entries)) (JS.toLowerCase pageName))).
Proof.
  intros Hin Hne.
  apply list_elem_of_split in Hin as (pre & post & Hwalk).
  unfold buildPageIndex. rewrite scanDirectory_walk, Hwalk, foldl_app. cbn [foldl].
  split.
  - intros Hproto. apply holdsPath_get; [done |].
    apply foldl_indexStep_holdsPath; [done |].
    exists pagePath. split; [by apply indexStep_path_key | done].
  - intros Hname. apply foldl_indexStep_truthy.
    + intros Hempty. by apply toLowerCase_empty in Hempty.
    + by apply indexStep_leaf_truthy.
Qed.

(** X4. In a pages directory with ASCII names, every markdown page met
    by the scan is found in the rebuilt index: a read of its lowercased
    path gives a page whose path is the same up to letter case (the page
    itself, or one met later), and a read of its lowercased leaf name
    gives some value. *)
Theorem index_complete (entries : list Dirent) (pageName pagePath : string) :
  asciiDir entries = true →
  (pageName, pagePath) ∈ walkDirectory entries EmptyString →
  pagePath ≠ EmptyString →
  let index := buildPageIndex (Some entries) in
  (JS.toLowerCase pagePath ≠ "__proto__" →
   ∃ p, indexGet index (JS.toLowerCase pagePath) = Some p ∧
        JS.toLowerCase p = JS.toLowerCase pagePath) ∧
  (pageName ≠ EmptyString → is_Some (indexGet index (JS.toLowerCase pageName))).
Proof. intros _ Hin Hne index. by apply walk_page_indexed. Qed.

Lemma index_complete_witness :
  let entries := [Directory "Computers" [File "Atari.md" "A"]; File "atari.md" "B"] in
  (∃ p, indexGet (buildPageIndex (Some entries)) "computers/atari" = Some p ∧
        JS.toLowerCase p = "computers/atari") ∧
  is_Some (indexGet (buildPageIndex (Some entries)) "atari").
Proof.
  intros entries.
  destruct (index_complete entries "Atari" "Computers/Atari") as [Hpath Hleaf].
  - reflexivity.
  - vm_compute. apply list_elem_of_here.
  - discriminate.
  - split; [apply Hpath; discriminate | apply Hleaf; discriminate].
Defined.

(** ** Paths of the scan and paths of the page store *)

Lemma join_snoc (sep : string) (l : list string) (x : string) :
  l ≠ [] → JS.join sep (l ++ [x]) = JS.join sep l +:+ sep +:+ x.
Proof.
  induction l as [|a l IH]; [done |]. intros _.
  destruct l as [|b l]; [done |].
  change ((a :: b :: l) ++ [x]) with (a :: (b :: l) ++ [x]).
  change (JS.join sep (a :: (b :: l) ++ [x]))
    with (a +:+ sep +:+ JS.join sep ((b :: l) ++ [x])).
  rewrite IH by done. rewrite join_cons_two. by rewrite !append_assoc.
Qed.

Lemma join_empty (sep : string) (l : list string) :
  Forall (fun s => s ≠ EmptyString) l → JS.join sep l = EmptyString → l = [].
Proof.
  intros Hall. destruct Hall as [|a l Ha Hl]; [done |].
  destruct l as [|b l]; [done |]. rewrite join_cons_two. by destruct a.
Qed.

(** The relative path of an entry, from the names that lead to it. *)
Lemma pathJoin_join (relSegs : list string) (name : string) :
  Forall (fun s => s ≠ EmptyString) relSegs →
  pathJoin (JS.join "/" relSegs) name = JS.join "/" (relSegs ++ [name]).
Proof.
  intros Hall. unfold pathJoin.
  destruct (decide (JS.join "/" relSegs = EmptyString)) as [Hempty | Hne].
  - by rewrite (join_empty _ _ Hall Hempty).
  - rewrite join_snoc; [done |]. by intros ->.
Qed.

Lemma endsWith_length (p s : string) :
  JS.endsWith p s = true → String.length p ≤ String.length s.
Proof.
  induction s as [|c s IH]; cbn [JS.endsWith].
  - destruct (String.eqb p EmptyString) eqn:Hp; [| done].
    apply String.eqb_eq in Hp as ->. done.
  - destruct (String.eqb p (String c s)) eqn:Hp.
    + apply String.eqb_eq in Hp as ->. done.
    + intros H. apply IH in H. cbn [String.length]. lia.
Qed.

Lemma endsWith_app (p a b : string) :
  JS.endsWith p b = true → JS.endsWith p (a +:+ b) = true.
Proof.
  intros Hb. induction a as [|c a IH]; [done |].
  rewrite append_String. cbn [JS.endsWith].
  by destruct (String.eqb p (String c (a +:+ b))).
Qed.

(** [slice(0, -3)] takes the extension off a name that ends in it. *)
Lemma dropEnd_md (x : string) :
  JS.endsWith ".md" x = true → JS.dropEnd 3 x +:+ ".md" = x.
Proof.
  induction x as [|c x IH]; [done |]. cbn [JS.endsWith JS.dropEnd].
  destruct (String.eqb ".md" (String c x)) eqn:Hx.
  - apply String.eqb_eq in Hx. by injection Hx as <- <-.
  - intros Hends. pose proof (endsWith_length _ _ Hends) as Hlen.
    cbn [String.length] in Hlen.
    destruct (String.length x <? 3) eqn:Hlt; [apply Nat.ltb_lt in Hlt; lia |].
    rewrite append_String. by rewrite IH.
Qed.

Lemma findEntry_elem (n : string) (es : list Dirent) (e : Dirent) :
  findEntry n es = Some e → e ∈ es.
Proof.
  induction es as [|x es IH]; simpl; [done |].
  destruct (decide (direntName x = n)).
  - intros [= <-]. by left.
  - intros H. right. by apply IH.
Qed.

Lemma walkDirectory_elem (es : list Dirent) (e : Dirent) (rel : string)
    (pg : string * string) :
  e ∈ es → pg ∈ walkEntry e rel → pg ∈ walkDirectory es rel.
Proof.
  intros He Hpg. unfold walkDirectory. apply list_elem_of_In, in_flat_map.
  exists e. split; by apply list_elem_of_In.
Qed.

(** A markdown file the page store resolves is met by the scan. *)
Lemma resolve_walk (segs : list string) :
  ∀ (es : list Dirent) (relSegs : list string) (n content : string),
    Forall (fun s => s ≠ EmptyString) relSegs →
    Forall (fun s => s ≠ EmptyString) segs →
    resolve segs es = Some (File n content) →
    JS.endsWith ".md" n = true →
    (JS.dropEnd 3 n, JS.dropEnd 3 (JS.join "/" (relSegs ++ segs)))
      ∈ walkDirectory es (JS.join "/" relSegs).
Proof.
  induction segs as [|m rest IH]; intros es relSegs n content Hrel Hsegs Hres Hmd; [done |].
  apply Forall_cons in Hsegs as [Hm Hrest].
  destruct rest as [|m' rest].
  - cbn [resolve] in Hres. pose proof (findEntry_name _ _ _ Hres) as Hname.
    simpl in Hname. subst m.
    apply (walkDirectory_elem es (File n content)); [by eapply findEntry_elem |].
    cbn [walkEntry direntName]. rewrite Hmd, pathJoin_join by done.
    apply list_elem_of_here.
  - rewrite resolve_cons in Hres by done.
    destruct (findEntry m es) as [[fn fc | dn sub]|] eqn:Hfind; [done | | done].
    pose proof (findEntry_name _ _ _ Hfind) as Hname. simpl in Hname. subst dn.
    apply (walkDirectory_elem es (Directory m sub)); [by eapply findEntry_elem |].
    cbn [walkEntry direntName]. rewrite pathJoin_join by done.
    specialize (IH sub (relSegs ++ [m]) n content).
    rewrite <- app_assoc in IH. apply IH; [| done | done | done].
    apply Forall_app. split; [done | by constructor].
Qed.

(** *** Listings as a file system gives them *)

Lemma properName_spec (n : string) :
  properName n = true →
  n ≠ EmptyString ∧ n ≠ "." ∧ JS.includesChar "/" n = false.
Proof.
  unfold properName. intros H.
  apply andb_prop in H as [H Hslash]. apply andb_prop in H as [H _].
  apply andb_prop in H as [Hempty Hdot].
  apply negb_true_iff, bool_decide_eq_false in Hempty, Hdot.
  by apply negb_true_iff in Hslash.
Qed.

Lemma wellFormedDir_spec (entries : list Dirent) :
  wellFormedDir entries = true →
  NoDup (map direntName entries) ∧ Forall (fun e => wellFormed e = true) entries.
Proof.
  unfold wellFormedDir. intros H. apply andb_prop in H as [Hnodup Hall].
  apply bool_decide_eq_true in Hnodup. split; [done |].
  apply Forall_forall. intros e He.
  apply (proj1 (forallb_forall _ _) Hall). by apply list_elem_of_In.
Qed.

Lemma wellFormed_Directory (n : string) (entries : list Dirent) :
  wellFormed (Directory n entries) = true →
  properName n = true ∧ wellFormedDir entries = true.
Proof. cbn [wellFormed direntName]. intros H. by apply andb_prop in H. Qed.

Lemma wellFormed_name (e : Dirent) : wellFormed e = true → properName (direntName e) = true.
Proof. destruct e; cbn [wellFormed]; intros H; by apply andb_prop in H as [? _]. Qed.

(** In a listing without double names an entry is found by its name. *)
Lemma findEntry_NoDup (es : list Dirent) (e : Dirent) :
  NoDup (map direntName es) → e ∈ es → findEntry (direntName e) es = Some e.
Proof.
  induction es as [|x es IH]; intros Hnodup He; [by apply not_elem_of_nil in He |].
  cbn [map] in Hnodup. apply NoDup_cons in Hnodup as [Hx Hnodup].
  cbn [findEntry]. apply elem_of_cons in He as [-> | He].
  - by rewrite decide_True.
  - rewrite decide_False; [by apply IH |].
    intros Heq. apply Hx. rewrite Heq. by apply list_elem_of_fmap_2.
Qed.

(** A page met by the scan of a well-formed entry lies at a path the page
    store resolves. *)
Lemma walkEntry_resolve (e : Dirent) :
  ∀ (relSegs : list string) (pn pp : string),
    wellFormed e = true →
    Forall (fun s => s ≠ EmptyString) relSegs →
    (pn, pp) ∈ walkEntry e (JS.join "/" relSegs) →
    ∃ below n content,
      Forall (fun s => properName s = true) (direntName e :: below) ∧
      JS.endsWith ".md" n = true ∧
      pn = JS.dropEnd 3 n ∧
      pp = JS.dropEnd 3 (JS.join "/" (relSegs ++ direntName e :: below)) ∧
      JS.endsWith ".md" (List.last (direntName e :: below) EmptyString) = true ∧
      ∀ es, findEntry (direntName e) es = Some e →
            resolve (direntName e :: below) es = Some (File n content).
Proof.
  induction e as [n content | d sub IH] using Dirent_nested_ind;
    intros relSegs pn pp Hwf Hrel Hin.
  - cbn [walkEntry direntName] in Hin.
    destruct (JS.endsWith ".md" n) eqn:Hmd; [| by apply not_elem_of_nil in Hin].
    apply list_elem_of_singleton in Hin. injection Hin as -> ->.
    exists [], n, content. cbn [direntName].
    split; [constructor; [by apply (wellFormed_name (File n content)) | constructor] |].
    split; [done |]. split; [done |].
    split; [by rewrite pathJoin_join |]. split; [done |].
    intros es Hfind. exact Hfind.
  - apply wellFormed_Directory in Hwf as [Hd Hsub].
    apply wellFormedDir_spec in Hsub as [Hnodup Hall].
    cbn [walkEntry direntName] in Hin.
    rewrite pathJoin_join in Hin by done.
    apply list_elem_of_In, in_flat_map in Hin as (e' & He' & Hin).
    apply list_elem_of_In in He', Hin.
    assert (Forall (fun s => s ≠ EmptyString) (relSegs ++ [d])) as Hrel'.
    { apply Forall_app. split; [done |]. constructor; [| constructor].
      by apply properName_spec in Hd as [? _]. }
    pose proof (proj1 (Forall_forall _ _) IH e' He' (relSegs ++ [d]) pn pp
                  (proj1 (Forall_forall _ _) Hall e' He') Hrel' Hin)
      as (below & n & content & Hproper & Hmd & Hpn & Hpp & Hlast & Hres).
    exists (direntName e' :: below), n, content. cbn [direntName].
    split; [by constructor |]. split; [done |]. split; [done |].
    split; [by rewrite <- app_assoc in Hpp |]. split; [done |].
    intros es Hfind. rewrite resolve_cons by done. rewrite Hfind.
    apply Hres. by apply findEntry_NoDup.
Qed.

Lemma properName_kept (acc segs : list string) :
  Forall (fun s => properName s = true) segs →
  foldl joinSegment acc segs = acc ++ segs.
Proof.
  intros Hall. revert acc. induction Hall as [|s segs Hs _ IH]; intros acc.
  - by rewrite app_nil_r.
  - cbn [foldl]. rewrite IH, joinSegment_name, <- app_assoc; [done | | |].
    + by apply properName_spec in Hs as (? & _).
    + by apply properName_spec in Hs as (_ & ? & _).
    + unfold properName in Hs. apply andb_prop in Hs as [Hs _].
      apply andb_prop in Hs as [_ Hs]. by apply negb_true_iff, bool_decide_eq_false in Hs.
Qed.

(** The segments of a path joined from proper names are these names. *)
Lemma segments_join (segs : list string) :
  segs ≠ [] → Forall (fun s => properName s = true) segs →
  segments (JS.join "/" segs) = segs.
Proof.
  intros Hne Hall. unfold segments. rewrite splitChar_join; [by apply properName_kept | done |].
  eapply Forall_impl; [exact Hall |]. intros s Hs. by apply properName_spec in Hs as (_ & _ & ?).
Qed.

Lemma endsWith_join_last (segs : list string) :
  segs ≠ [] →
  JS.endsWith ".md" (List.last segs EmptyString) = true →
  JS.endsWith ".md" (JS.join "/" segs) = true.
Proof.
  induction segs as [|a segs IH]; [done |]. intros _.
  destruct segs as [|b segs]; [done |].
  intros Hlast. rewrite join_cons_two.
  rewrite <- append_assoc. apply endsWith_app. by apply IH.
Qed.

(** X5. In a pages directory as a file system gives it (proper names, no
    name twice in a directory), every path the rebuilt index holds is
    the path of a markdown file that is there: the index never points
    to a page that does not exist at the time of the rebuild. *)
Theorem index_sound (entries : list Dirent) (key p : string) :
  wellFormedDir entries = true →
  buildPageIndex (Some entries) !! key = Some p →
  pageExists (Some entries) p = true ∧
  ∃ content, readFile (Some entries) (segments (p +:+ ".md")) = Some content.
Proof.
  intros Hwf Hkey.
  apply index_provenance_walk in Hkey as (pageName & Hin).
  apply wellFormedDir_spec in Hwf as [Hnodup Hall].
  unfold walkDirectory in Hin.
  apply list_elem_of_In, in_flat_map in Hin as (e & He & Hin).
  apply list_elem_of_In in He, Hin.
  destruct (walkEntry_resolve e [] pageName p
              (proj1 (Forall_forall _ _) Hall e He) (Forall_nil_2 _) Hin)
    as (below & n & content & Hproper & Hmd & _ & Hp & Hlast & Hres).
  cbn [app] in Hp.
  assert (p +:+ ".md" = JS.join "/" (direntName e :: below)) as Hpath.
  { rewrite Hp. apply dropEnd_md. by apply endsWith_join_last. }
  assert (readFile (Some entries) (segments (p +:+ ".md")) = Some content) as Hread.
  { rewrite Hpath, segments_join by done.
    rewrite readFile_resolve, Hres; [done |]. by apply findEntry_NoDup. }
  split; [| by exists content].
  unfold pageExists. by eapply readFile_access.
Qed.

Lemma index_sound_witness :
  let entries := [Directory "Computers" [File "Atari.md" "A"]; File "home.md" "H"] in
  pageExists (Some entries) "Computers/Atari" = true ∧
  ∃ content, readFile (Some entries) (segments ("Computers/Atari" +:+ ".md")) = Some content.
Proof.
  intros entries.
  apply (index_sound entries "atari" "Computers/Atari"); reflexivity.
Defined.

(** ** Creating a page *)

Lemma resolve_name (segs : list string) :
  ∀ (es : list Dirent) (e : Dirent),
    resolve segs es = Some e → direntName e = List.last segs EmptyString.
Proof.
  induction segs as [|n rest IH]; intros es e; [done |].
  destruct rest as [|m rest].
  - cbn [resolve]. apply findEntry_name.
  - rewrite resolve_cons by done.
    destruct (findEntry n es) as [[? ? | ? sub]|]; [done | | done].
    apply IH.
Qed.

Lemma joinSegment_nonempty (acc : list string) (s : string) :
  Forall (fun x => x ≠ EmptyString) acc →
  Forall (fun x => x ≠ EmptyString) (joinSegment acc s).
Proof.
  intros Hacc. unfold joinSegment.
  destruct (decide (s = EmptyString ∨ s = ".")) as [| Hs]; [done |].
  assert (Forall (fun x => x ≠ EmptyString) (acc ++ [s])) as Hpush.
  { apply Forall_app. split; [done |]. constructor; [| done]. intros ->. apply Hs. by left. }
  destruct (decide (s = "..")); [| done].
  destruct (last acc) as [prev|] eqn:Hlast; [| done].
  destruct (decide (prev = "..")); [done |].
  apply last_Some in Hlast as [front ->]. rewrite removelast_last.
  by apply Forall_app in Hacc as [? _].
Qed.

Lemma segments_nonempty (p : string) : Forall (fun s => s ≠ EmptyString) (segments p).
Proof.
  unfold segments. generalize (JS.splitChar "/" p). intros pieces.
  assert (Forall (fun s : string => s ≠ EmptyString) []) as Hacc by constructor.
  revert Hacc. generalize (@nil string).
  induction pieces as [|s pieces IH]; intros acc Hacc; [done |].
  cbn [foldl]. by apply IH, joinSegment_nonempty.
Qed.

(** The file of a page carries a name that ends in the extension. *)
Lemma readFile_page (dir : list Dirent) (pagePath content : string) :
  readFile (Some dir) (segments (pagePath +:+ ".md")) = Some content →
  ∃ n, resolve (segments (pagePath +:+ ".md")) dir = Some (File n content) ∧
       JS.endsWith ".md" n = true.
Proof.
  rewrite readFile_resolve.
  destruct (resolve _ dir) as [[n c | ? ?]|] eqn:Hres; [| done | done].
  intros [= ->]. exists n. split; [done |].
  apply resolve_name in Hres. simpl in Hres. subst n.
  destruct (segments_md pagePath) as (parent & leaf & -> & _).
  rewrite last_last. by apply (endsWith_app ".md" leaf ".md").
Qed.

(** A page file on disk is found by the index rebuilt from the disk. *)
Lemma page_on_disk_indexed (dir : list Dirent) (pagePath content : string) :
  readFile (Some dir) (segments (pagePath +:+ ".md")) = Some content →
  normalPath pagePath ≠ EmptyString →
  JS.toLowerCase (normalPath pagePath) ≠ "__proto__" →
  ∃ p, indexGet (buildPageIndex (Some dir)) (JS.toLowerCase (normalPath pagePath)) = Some p ∧
       JS.toLowerCase p = JS.toLowerCase (normalPath pagePath).
Proof.
  intros Hread Hne Hproto.
  apply readFile_page in Hread as (n & Hres & Hmd).
  pose proof (resolve_walk _ dir [] n content (Forall_nil_2 _)
                (segments_nonempty _) Hres Hmd) as Hwalk.
  by apply (walk_page_indexed dir _ _ Hwalk).
Qed.

Lemma createPage_success (pagePath title : string) (st : Server) :
  (createPage pagePath title st).1 = Success pagePath →
  ∃ es,
    (createPage pagePath title st).2 = mkServer (Some es) (buildPageIndex (Some es)) ∧
    readFile (Some es) (segments (pagePath +:+ ".md")) =
      Some ("# " +:+ (if decide (title = EmptyString) then "New Page" else title) +:+
            JS.newline +:+ JS.newline +:+ "Start writing your content here..." +:+
            JS.newline) ∧
    pagePath ≠ EmptyString.
Proof.
  unfold createPage.
  destruct (decide (pagePath = EmptyString)) as [| Hpath]; [done |].
  destruct (access _ _); [done |].
  destruct (writePage _ _ _) as [es|] eqn:Hwrite; [| done]. intros _.
  exists es. split; [done |]. split; [| done]. by apply writePage_read in Hwrite.
Qed.

(** X6. A page that was created is on disk with its initial text, which
    carries the title given or, without one, the default title; it cannot
    be created a second time: the second request fails with
    AlreadyExists and changes nothing. *)
Theorem create_page_once (pagePath title : string) (st : Server) :
  let st' := (createPage pagePath title st).2 in
  (createPage pagePath title st).1 = Success pagePath →
  readFile (pagesDir st') (segments (pagePath +:+ ".md")) =
    Some ("# " +:+ (if decide (title = EmptyString) then "New Page" else title) +:+
          JS.newline +:+ JS.newline +:+ "Start writing your content here..." +:+
          JS.newline) ∧
  pageExists (pagesDir st') pagePath = true ∧
  ∀ title', createPage pagePath title' st' = (Fail AlreadyExists, st').
Proof.
  intros st' Hok. subst st'.
  apply createPage_success in Hok as (es & -> & Hread & Hpath). cbn [pagesDir].
  pose proof (readFile_access _ _ _ Hread) as Haccess.
  split; [done |]. split; [done |].
  intros title'. unfold createPage. rewrite decide_False by done.
  cbn [pagesDir]. by rewrite Haccess.
Qed.

Lemma create_page_once_witness :
  let st := mkServer (Some [File "home.md" "H"]) ∅ in
  let st' := (createPage "guides/intro" "Intro" st).2 in
  readFile (pagesDir st') ["guides"; "intro.md"] =
    Some ("# Intro" +:+ JS.newline +:+ JS.newline +:+
          "Start writing your content here..." +:+ JS.newline) ∧
  pageExists (pagesDir st') "guides/intro" = true ∧
  ∀ title', createPage "guides/intro" title' st' = (Fail AlreadyExists, st').
Proof.
  intros st st'.
  apply (create_page_once "guides/intro" "Intro" st). reflexivity.
Defined.

(** X7. A page that was created at an ASCII path that stays inside the
    pages directory, next to pages with ASCII names, is found by the
    index at once: a read of its lowercased path, as [path.join] leaves
    it, gives a page with that path up to letter case.  (A page that was
    only saved is not, as the index is left as it was.) *)
Theorem created_page_is_indexed (pagePath title : string) (st : Server) :
  let st' := (createPage pagePath title st).2 in
  let key := JS.toLowerCase (normalPath pagePath) in
  (createPage pagePath title st).1 = Success pagePath →
  insidePages (segments (pagePath +:+ ".md")) = true →
  JS.isAscii pagePath = true →
  asciiDir (default [] (pagesDir st)) = true →
  normalPath pagePath ≠ EmptyString →
  key ≠ "__proto__" →
  ∃ p, indexGet (pageIndex st') key = Some p ∧ JS.toLowerCase p = key.
Proof.
  intros st' key Hok _ _ _ Hne Hproto. subst st' key.
  apply createPage_success in Hok as (es & -> & Hread & _). cbn [pageIndex].
  by eapply page_on_disk_indexed.
Qed.

Lemma created_page_is_indexed_witness :
  let st := mkServer (Some [File "home.md" "see [[Intro]]"]) ∅ in
  let st' := (createPage "guides/x/../Intro" "Intro" st).2 in
  (∃ p, indexGet (pageIndex st') "guides/intro" = Some p ∧
        JS.toLowerCase p = "guides/intro") ∧
  processWikilinks (pageIndex st') "[[guides/intro]]" (Some "home") =
    linkHtml "guides/Intro" true "guides/intro".
Proof.
  intros st st'. split.
  - apply (created_page_is_indexed "guides/x/../Intro" "Intro" st);
      [reflexivity | reflexivity | reflexivity | reflexivity | discriminate | discriminate].
  - vm_compute. reflexivity.
Defined.

(** ** More on the tree builder *)

Lemma insertionOrder_elem (x : string) (l : list string) :
  x ∈ insertionOrder l ↔ x ∈ l.
Proof.
  induction l as [|a l IH]; [done |].
  cbn [insertionOrder]. rewrite !elem_of_cons, list_elem_of_filter, IH.
  destruct (decide (x = a)); tauto.
Qed.

Lemma insertionOrder_NoDup (l : list string) : NoDup (insertionOrder l).
Proof.
  induction l as [|a l IH]; [constructor |].
  cbn [insertionOrder]. constructor.
  - rewrite list_elem_of_filter. by intros [? _].
  - by apply NoDup_filter.
Qed.

Lemma makeNode_name (basePath name : string) (hasMdFile hasDirectory : bool)
    (subtree : list TreeNode) (n : TreeNode) :
  makeNode basePath name hasMdFile hasDirectory subtree = Some n →
  nodeName n = name ∧ nodePath n = pathJoin basePath name ∧
  hasContent n = hasMdFile ∧
  children n = (if hasDirectory then subtree else []).
Proof.
  unfold makeNode. by destruct hasMdFile, hasDirectory; intros [= <-].
Qed.

Lemma makeNode_Some (basePath name : string) (hasMdFile hasDirectory : bool)
    (subtree : list TreeNode) :
  hasMdFile = true ∨ hasDirectory = true →
  is_Some (makeNode basePath name hasMdFile hasDirectory subtree).
Proof.
  unfold makeNode. destruct hasMdFile, hasDirectory; intros [? | ?];
    try done; by eexists.
Qed.

Lemma levelNames_elem (items : list Dirent) (name : string) :
  name ∈ levelNames items ↔
  ∃ e, e ∈ items ∧ (mdKey e = Some name ∨ dirKey e = Some name).
Proof.
  unfold levelNames.
  rewrite insertionOrder_elem, elem_of_app, !insertionOrder_elem, !list_elem_of_omap.
  split.
  - intros [(e & He & Hk) | (e & He & Hk)]; exists e; tauto.
  - intros (e & He & [Hk | Hk]); [left | right]; by exists e.
Qed.

Lemma map_omap_id {A : Type} (f : string → option A) (g : A → string) (l : list string) :
  (∀ x, x ∈ l → ∃ y, f x = Some y ∧ g y = x) → map g (omap f l) = l.
Proof.
  induction l as [|a l IH]; intros H; [done |].
  destruct (H a) as (y & Hy & Hg); [by left |].
  cbn [omap list_omap]. rewrite Hy. cbn [map]. rewrite Hg. f_equal.
  apply IH. intros x Hx. apply H. by right.
Qed.

Section TreeLevels.

Variable localeCompare : string → string → Z.

Lemma insertNode_perm (x : TreeNode) (l : list TreeNode) :
  insertNode localeCompare x l ≡ₚ x :: l.
Proof.
  induction l as [|y l IH]; [done |]. cbn [insertNode].
  destruct (compareNodes localeCompare x y <=? 0)%Z; [done |].
  rewrite IH. apply Permutation_swap.
Qed.

(** Sorting rearranges the nodes. *)
Lemma sortNodes_perm (l : list TreeNode) : sortNodes localeCompare l ≡ₚ l.
Proof.
  induction l as [|x l IH]; [done |].
  cbn [sortNodes foldr]. fold (sortNodes localeCompare l).
  by rewrite insertNode_perm, IH.
Qed.

Lemma buildLevel_node (basePath : string) (items : list Dirent)
    (subtrees : list (string * list TreeNode)) (n : TreeNode) :
  n ∈ buildLevel localeCompare basePath items subtrees ↔
  ∃ name,
    name ∈ levelNames items ∧
    makeNode basePath name
      (bool_decide (name ∈ insertionOrder (omap (M:=list) mdKey items)))
      (bool_decide (name ∈ insertionOrder (omap (M:=list) dirKey items)))
      (default [] (assoc name subtrees)) = Some n.
Proof. unfold buildLevel. by rewrite sortNodes_elem, list_elem_of_omap. Qed.

(** The names of the nodes of a level are the names it is built from,
    rearranged. *)
Lemma buildLevel_names (basePath : string) (items : list Dirent)
    (subtrees : list (string * list TreeNode)) :
  map nodeName (buildLevel localeCompare basePath items subtrees) ≡ₚ levelNames items.
Proof.
  unfold buildLevel. rewrite sortNodes_perm. fold (levelNames items).
  rewrite map_omap_id; [done |].
  intros name Hname.
  destruct (makeNode_Some basePath name
              (bool_decide (name ∈ insertionOrder (omap (M:=list) mdKey items)))
              (bool_decide (name ∈ insertionOrder (omap (M:=list) dirKey items)))
              (default [] (assoc name subtrees))) as [n Hn].
  - unfold levelNames in Hname.
    rewrite insertionOrder_elem, elem_of_app in Hname.
    destruct Hname as [H | H]; [left | right]; by apply bool_decide_eq_true.
  - exists n. split; [done |]. by apply makeNode_name in Hn as [? _].
Qed.

(** *** The home page comes first *)

Lemma insertNode_home (x : TreeNode) (l : list TreeNode) :
  nodeName x = "home" ∨ (∃ h rest, l = h :: rest ∧ nodeName h = "home") →
  ∃ h rest, insertNode localeCompare x l = h :: rest ∧ nodeName h = "home".
Proof.
  intros [Hx | (h & rest & -> & Hh)].
  - destruct l as [|y l]; [by exists x, [] |].
    cbn [insertNode]. unfold compareNodes. rewrite decide_True by done.
    by exists x, (y :: l).
  - cbn [insertNode]. unfold compareNodes.
    destruct (decide (nodeName x = "home")) as [Hx | Hx]; [by exists x, (h :: rest) |].
    rewrite decide_True by done. by exists h, (insertNode localeCompare x rest).
Qed.

Lemma sortNodes_home (l : list TreeNode) :
  (∃ n, n ∈ l ∧ nodeName n = "home") →
  ∃ h rest, sortNodes localeCompare l = h :: rest ∧ nodeName h = "home".
Proof.
  induction l as [|x l IH]; intros (n & Hn & Hhome); [by apply not_elem_of_nil in Hn |].
  cbn [sortNodes foldr]. fold (sortNodes localeCompare l).
  apply insertNode_home.
  destruct (decide (nodeName x = "home")) as [Hx | Hx]; [by left | right].
  apply IH. exists n. split; [| done].
  apply elem_of_cons in Hn as [-> | Hn]; done.
Qed.

End TreeLevels.

(** X8. When the listing holds a file [home.md], the first node of the
    tree built from it is the home page, whatever the comparison of
    names says about the other nodes. *)
Theorem tree_home_first (localeCompare : string → string → Z) (items : list Dirent)
    (basePath content : string) :
  File "home.md" content ∈ items →
  ∃ h rest,
    buildTree localeCompare items basePath = h :: rest ∧
    nodeName h = "home" ∧ hasContent h = true ∧
    nodePath h = pathJoin basePath "home".
Proof.
  intros Hhome.
  assert ("home" ∈ insertionOrder (omap (M:=list) mdKey items)) as Hmd.
  { apply insertionOrder_elem, list_elem_of_omap. by exists (File "home.md" content). }
  assert ("home" ∈ levelNames items) as Hname.
  { apply levelNames_elem. exists (File "home.md" content). split; [done | by left]. }
  unfold buildTree. set (subtrees := omap _ items).
  destruct (makeNode_Some basePath "home"
              (bool_decide ("home" ∈ insertionOrder (omap (M:=list) mdKey items)))
              (bool_decide ("home" ∈ insertionOrder (omap (M:=list) dirKey items)))
              (default [] (assoc "home" subtrees))) as [n Hn].
  { left. by apply bool_decide_eq_true. }
  assert (n ∈ buildLevel localeCompare basePath items subtrees) as Hin.
  { apply buildLevel_node. by exists "home". }
  assert (∃ h rest, buildLevel localeCompare basePath items subtrees = h :: rest ∧
                    nodeName h = "home") as (h & rest & Heq & Hh).
  { unfold buildLevel. apply sortNodes_home. exists n. split.
    - unfold buildLevel in Hin. by apply sortNodes_elem in Hin.
    - by apply makeNode_name in Hn as [? _]. }
  exists h, rest. split; [done |]. split; [done |].
  assert (h ∈ buildLevel localeCompare basePath items subtrees) as Hhin
    by (rewrite Heq; by left).
  apply buildLevel_node in Hhin as (name & _ & Hmake).
  apply makeNode_name in Hmake as (Hnm & Hpath & Hcontent & _).
  rewrite Hh in Hnm. subst name. split; [| done].
  rewrite Hcontent. by apply bool_decide_eq_true.
Qed.

Lemma tree_home_first_witness :
  ∃ h rest,
    buildTree compareByCode
      [File "about.md" "A"; Directory "guides" []; File "home.md" "H"] EmptyString
      = h :: rest ∧
    nodeName h = "home" ∧ hasContent h = true ∧ nodePath h = pathJoin EmptyString "home".
Proof.
  apply (tree_home_first compareByCode _ EmptyString "H").
  apply list_elem_of_further, list_elem_of_further, list_elem_of_here.
Defined.

(** X9. In the tree built from a listing no name occurs twice, and the
    names are those of the visible directories and of the visible
    markdown files with the extension taken off: each gives one node. *)
Theorem tree_level_names (localeCompare : string → string → Z) (items : list Dirent)
    (basePath : string) :
  let tree := buildTree localeCompare items basePath in
  NoDup (map nodeName tree) ∧
  ∀ name, name ∈ map nodeName tree ↔
          ∃ e, e ∈ items ∧ hidden e = false ∧
               ((isDirectory e = true ∧ name = direntName e) ∨
                (isDirectory e = false ∧ JS.endsWith ".md" (direntName e) = true ∧
                 name = JS.replaceFirst ".md" EmptyString (direntName e))).
Proof.
  intros tree. subst tree. unfold buildTree.
  pose proof (buildLevel_names localeCompare basePath items
                (omap (M:=list) (fun d =>
                   match d with
                   | Directory n _ =>
                       Some (n, buildSubtree localeCompare d (pathJoin basePath n))
                   | File _ _ => None
                   end) items)) as Hperm.
  split.
  - rewrite Hperm. apply insertionOrder_NoDup.
  - intros name. rewrite Hperm, levelNames_elem. split.
    + intros (e & He & Hkey). exists e. split; [done |].
      unfold mdKey, dirKey in Hkey. destruct (hidden e); [by destruct Hkey |].
      split; [done |]. destruct (isDirectory e).
      * left. destruct Hkey as [? | [= <-]]; done.
      * right. destruct (JS.endsWith ".md" (direntName e)); [| by destruct Hkey].
        destruct Hkey as [[= <-] | ?]; done.
    + intros (e & He & Hvisible & Hcase). exists e. split; [done |].
      unfold mdKey, dirKey. rewrite Hvisible.
      destruct Hcase as [[-> ->] | (-> & -> & ->)]; [by right | by left].
Qed.

(** *** Names and paths at every depth *)

(** Taking the extension off a visible name leaves a visible name. *)
Lemma replaceFirst_visible (f : string) :
  JS.startsWith "." f = false →
  JS.startsWith "." (JS.replaceFirst ".md" EmptyString f) = false.
Proof.
  destruct f as [|c f]; [done |].
  unfold JS.startsWith, JS.replaceFirst. cbn [JS.stripPrefix JS.cutAtFirst].
  destruct (Ascii.eqb "." c) eqn:Hc; [done |]. intros _.
  destruct (JS.cutAtFirst ".md" f) as [[before after]|].
  - rewrite append_String. cbn [JS.stripPrefix]. by rewrite Hc.
  - cbn [JS.stripPrefix]. by rewrite Hc.
Qed.

Lemma levelNames_visible (items : list Dirent) (name : string) :
  name ∈ levelNames items → JS.startsWith "." name = false.
Proof.
  rewrite levelNames_elem. intros (e & _ & Hkey).
  unfold mdKey, dirKey, hidden in Hkey.
  destruct (JS.startsWith "." (direntName e)) eqn:Hvisible; [by destruct Hkey |].
  destruct (isDirectory e).
  - destruct Hkey as [? | [= <-]]; done.
  - destruct (JS.endsWith ".md" (direntName e)); [| by destruct Hkey].
    destruct Hkey as [[= <-] | ?]; [| done]. by apply replaceFirst_visible.
Qed.

Section TreePlacement.

Variable localeCompare : string → string → Z.

(** The nodes of a level are well placed when the subtrees read for its
    directories are. *)
Lemma buildLevel_wellPlaced (basePath : string) (items : list Dirent)
    (subtrees : list (string * list TreeNode)) :
  (∀ name sub, (name, sub) ∈ subtrees → Forall (wellPlaced (pathJoin basePath name)) sub) →
  Forall (wellPlaced basePath) (buildLevel localeCompare basePath items subtrees).
Proof.
  intros Hsubs. apply Forall_forall. intros n Hn.
  apply buildLevel_node in Hn as (name & Hname & Hmake).
  apply makeNode_name in Hmake as (Hnm & Hpath & _ & Hchildren).
  constructor.
  - rewrite Hnm. by eapply levelNames_visible.
  - by rewrite Hnm.
  - rewrite Hchildren, Hpath.
    destruct (bool_decide _); [| constructor].
    destruct (assoc name subtrees) as [sub|] eqn:Hassoc; [| constructor].
    apply assoc_elem in Hassoc. by apply (Hsubs name sub).
Qed.

Lemma buildSubtree_wellPlaced (e : Dirent) :
  ∀ itemPath, Forall (wellPlaced itemPath) (buildSubtree localeCompare e itemPath).
Proof.
  induction e as [name c | name es IH] using Dirent_nested_ind; intros itemPath.
  - constructor.
  - cbn [buildSubtree]. apply buildLevel_wellPlaced.
    intros k sub Hk. apply list_elem_of_omap in Hk as (d & Hd & Hsome).
    rewrite Forall_forall in IH. specialize (IH d Hd).
    destruct d as [? ? | dn des]; [done |].
    injection Hsome as <- <-. apply IH.
Qed.

End TreePlacement.

(** X10. Every node of the tree is well placed, at every depth: no node
    carries a name that starts with a dot, the path of a node of the top
    level is the base path joined with its name, and the path of a child
    is the path of its parent joined with the name of the child. *)
Theorem tree_well_placed (localeCompare : string → string → Z) (items : list Dirent)
    (basePath : string) :
  Forall (wellPlaced basePath) (buildTree localeCompare items basePath).
Proof.
  unfold buildTree. apply buildLevel_wellPlaced.
  intros k sub Hk. apply list_elem_of_omap in Hk as (d & Hd & Hsome).
  destruct d as [? ? | dn des]; [done |].
  assert (k = dn ∧ sub = buildSubtree localeCompare (Directory dn des) (pathJoin basePath dn))
    as [-> ->] by (split; congruence).
  apply buildSubtree_wellPlaced.
Qed.

(** ** Helpers of the hierarchy test *)

Lemma TreeNode_nested_ind (P : TreeNode → Prop) :
  (∀ name path type content below, Forall P below → P (mkNode name path type content below)) →
  ∀ n, P n.
Proof.
  intros Hnode. fix IH 1. intros [name path type content below].
  apply Hnode. induction below as [|c below IHbelow]; constructor; [apply IH | exact IHbelow].
Qed.

Lemma findInNode_unfold (name : string) (node : TreeNode) :
  findInNode name node =
  if decide (nodeName node = name) then Some node
  else findNodeByName (children node) name.
Proof. by destruct node. Qed.

Lemma occursIn_cons (n x : TreeNode) (l : list TreeNode) :
  occursIn n (x :: l) ↔ n = x ∨ occursIn n (children x) ∨ occursIn n l.
Proof.
  split.
  - intros H. inversion H as [tree Hin | m tree Hin Hbelow]; subst.
    + apply elem_of_cons in Hin as [-> | Hin]; [by left |].
      right. right. by apply occurs_here.
    + apply elem_of_cons in Hin as [-> | Hin]; [by right; left |].
      right. right. by apply (occurs_below n m).
  - intros [-> | [Hbelow | Hrest]].
    + apply occurs_here. by left.
    + apply (occurs_below n x); [by left | done].
    + inversion Hrest as [tree Hin | m tree Hin Hbelow]; subst.
      * apply occurs_here. by right.
      * apply (occurs_below n m); [by right | done].
Qed.

Lemma findNodeByName_cons (x : TreeNode) (l : list TreeNode) (name : string) :
  findNodeByName (x :: l) name =
  match findInNode name x with
  | Some n => Some n
  | None => findNodeByName l name
  end.
Proof. reflexivity. Qed.

(** The search over a list, given what it answers below each node. *)
Lemma findNodeByName_list (name : string) (l : list TreeNode) :
  Forall (fun x =>
            match findNodeByName (children x) name with
            | Some n => occursIn n (children x) ∧ nodeName n = name
            | None => ∀ n, occursIn n (children x) → nodeName n ≠ name
            end) l →
  match findNodeByName l name with
  | Some n => occursIn n l ∧ nodeName n = name
  | None => ∀ n, occursIn n l → nodeName n ≠ name
  end.
Proof.
  induction 1 as [|x l Hx _ IH].
  - intros n Hn. by apply occursIn_nil in Hn.
  - rewrite findNodeByName_cons, findInNode_unfold.
    destruct (decide (nodeName x = name)) as [Hname | Hname].
    + split; [| done]. apply occurs_here. by left.
    + destruct (findNodeByName (children x) name) as [n|].
      * destruct Hx as [Hocc Hn]. split; [| done].
        apply occursIn_cons. right. by left.
      * destruct (findNodeByName l name) as [n|].
        -- destruct IH as [Hocc Hn]. split; [| done].
           apply occursIn_cons. right. by right.
        -- intros n Hn. apply occursIn_cons in Hn as [-> | [Hn | Hn]];
             [done | by apply Hx | by apply IH].
Qed.

Lemma findNodeByName_below (name : string) (x : TreeNode) :
  match findNodeByName (children x) name with
  | Some n => occursIn n (children x) ∧ nodeName n = name
  | None => ∀ n, occursIn n (children x) → nodeName n ≠ name
  end.
Proof.
  induction x as [nm path type content below IH] using TreeNode_nested_ind.
  cbn [children]. by apply findNodeByName_list.
Qed.

(** X11. The search by name of the hierarchy test answers with a node of
    that name from the tree, at whatever depth it lies, and answers with
    nothing only when no node of the tree carries the name. *)
Theorem findNodeByName_spec (tree : list TreeNode) (name : string) :
  (∀ n, findNodeByName tree name = Some n → occursIn n tree ∧ nodeName n = name) ∧
  (findNodeByName tree name = None ↔ ∀ n, occursIn n tree → nodeName n ≠ name).
Proof.
  pose proof (findNodeByName_list name tree) as Hlist.
  assert (Forall (fun x =>
            match findNodeByName (children x) name with
            | Some n => occursIn n (children x) ∧ nodeName n = name
            | None => ∀ n, occursIn n (children x) → nodeName n ≠ name
            end) tree) as Hall.
  { apply Forall_forall. intros x _. apply findNodeByName_below. }
  specialize (Hlist Hall).
  destruct (findNodeByName tree name) as [found|].
  - split; [by intros n [= <-] |]. split; [done |].
    intros Hnone. destruct Hlist as [Hocc Hname]. by destruct (Hnone found Hocc).
  - split; [done |]. by split.
Qed.

(** ** More on wikilink resolution *)

Lemma spanNotBracket_all (s : string) :
  JS.includesChar "]" s = false → spanNotBracket s = (s, EmptyString).
Proof.
  induction s as [|c s IH]; [done |]. cbn [JS.includesChar spanNotBracket].
  destruct (Ascii.eqb c "]"); [done |]. intros H. by rewrite (IH H).
Qed.

Lemma wikilinkAt_unclosed (s : string) :
  JS.includesChar "]" s = false → wikilinkAt s = None.
Proof.
  intros Hs. unfold wikilinkAt.
  destruct (JS.stripPrefix "[[" s) as [s1|] eqn:Hstrip; [| done].
  apply stripPrefix_Some in Hstrip. subst s.
  rewrite includesChar_app in Hs. apply orb_false_elim in Hs as [_ Hs1].
  rewrite (spanNotBracket_all _ Hs1). by destruct s1.
Qed.

Lemma wikilinkScan_unclosed (s : string) :
  JS.includesChar "]" s = false → ∀ skip, wikilinkScan skip s = [].
Proof.
  induction s as [|c s IH]; intros Hs skip; [done |].
  assert (JS.includesChar "]" s = false) as Hs'.
  { cbn [JS.includesChar] in Hs. by destruct (Ascii.eqb c "]"). }
  cbn [wikilinkScan]. destruct skip as [|k]; [| by apply IH].
  rewrite (wikilinkAt_unclosed _ Hs). by apply IH.
Qed.

(** X12. A text without an opening bracket, or without a closing one, is
    returned as it is: the resolver changes nothing outside wikilinks. *)
Theorem text_without_links_unchanged (pageIndex : gmap string string) (content : string)
    (currentPagePath : option string) :
  JS.includesChar "[" content = false ∨ JS.includesChar "]" content = false →
  processWikilinks pageIndex content currentPagePath = content.
Proof.
  intros Hcontent. unfold processWikilinks.
  assert (wikilinkMatches content = []) as ->; [| done].
  unfold wikilinkMatches. destruct Hcontent as [Hopen | Hclose].
  - rewrite <- (append_empty_r content). by rewrite (wikilinkScan_pre _ _ Hopen).
  - by apply wikilinkScan_unclosed.
Qed.

Lemma text_without_links_unchanged_witness :
  processWikilinks {[ "atari" := "computers/atari" ]} "see [[atari" (Some "home")
  = "see [[atari".
Proof.
  apply (text_without_links_unchanged {[ "atari" := "computers/atari" ]}
           "see [[atari" (Some "home")).
  right. reflexivity.
Defined.

(** X13. The anchor is put into the text by a replacement that expands
    the dollar patterns of its second argument: for a text with one
    wikilink and no opening bracket before it, what is emitted in place
    of the link is the anchor after the expansion of [$$], [$&], [$`] and
    [$'], which is the anchor itself when it holds no dollar sign. *)
Theorem wikilink_anchor_expanded (pageIndex : gmap string string)
    (currentPagePath : option string) (pre inner post : string) :
  JS.includesChar "[" pre = false →
  inner ≠ EmptyString → JS.includesChar "]" inner = false →
  wikilinkMatches post = [] →
  let anchor := wikilinkHtml pageIndex currentPagePath inner in
  let emitted :=
    processWikilinks pageIndex (pre +:+ "[[" +:+ inner +:+ "]]" +:+ post) currentPagePath in
  emitted = pre +:+ JS.getSubstitution ("[[" +:+ inner +:+ "]]") pre post anchor +:+ post ∧
  (dollarFree anchor = true → emitted = pre +:+ anchor +:+ post).
Proof.
  intros Hpre Hne Hinner Hpost anchor emitted. subst anchor emitted.
  assert (processWikilinks pageIndex (pre +:+ "[[" +:+ inner +:+ "]]" +:+ post)
            currentPagePath =
          pre +:+ JS.getSubstitution ("[[" +:+ inner +:+ "]]") pre post
                    (wikilinkHtml pageIndex currentPagePath inner) +:+ post) as Hemit.
  { unfold processWikilinks.
    rewrite (wikilinkMatches_link _ _ _ Hpre Hne Hinner), Hpost. cbn [foldl].
    unfold JS.replaceFirst.
    assert (pre +:+ "[[" +:+ inner +:+ "]]" +:+ post =
            pre +:+ ("[[" +:+ inner +:+ "]]") +:+ post) as ->
      by (by rewrite !append_assoc).
    change ("[[" +:+ inner +:+ "]]") with (String "[" ("[" +:+ inner +:+ "]]")).
    by rewrite (cutAtFirst_pre _ _ _ Hpre). }
  split; [done |].
  intros Hfree. by rewrite Hemit, getSubstitution_dollarFree.
Qed.

Lemma wikilink_anchor_expanded_witness :
  processWikilinks ∅ "see [[prices|cost in $$]]." (Some "home") =
    "see " +:+ linkHtml "prices" false "cost in $" +:+ "." ∧
  processWikilinks ∅ "see [[prices|as $& says]]." (Some "home") =
    "see " +:+ linkHtml "prices" false "as [[prices|as $& says]] says" +:+ ".".
Proof.
  split.
  - refine (eq_trans (proj1 (wikilink_anchor_expanded ∅ (Some "home") "see "
                               "prices|cost in $$" "." _ _ _ _)) _);
      first [reflexivity | discriminate].
  - refine (eq_trans (proj1 (wikilink_anchor_expanded ∅ (Some "home") "see "
                               "prices|as $& says" "." _ _ _ _)) _);
      first [reflexivity | discriminate].
Defined.

(** *** Names every object inherits *)

Lemma wikilinkHtml_hit (pageIndex : gmap string string) (currentPagePath : option string)
    (inner p : string) :
  indexGet pageIndex (pageNameAndDisplay inner).1 = Some p →
  wikilinkHtml pageIndex currentPagePath inner =
  linkHtml p true (pageNameAndDisplay inner).2.
Proof. intros Hp. rewrite wikilinkHtml_unfold. unfold linkTarget. by rewrite Hp. Qed.

(** X14. The index is a plain object, so a read of a name that every
    object inherits finds a value although no page carries the name: a
    wikilink to [constructor] is shown as existing whenever the index
    holds no key of that name, and one to [__proto__] always; the target
    of the link is the text of the inherited value. *)
Theorem inherited_names_resolve (pageIndex : gmap string string)
    (currentPagePath : option string) (pre post : string) :
  JS.includesChar "[" pre = false →
  wikilinkMatches post = [] →
  (pageIndex !! "constructor" = None →
   processWikilinks pageIndex (pre +:+ "[[constructor]]" +:+ post) currentPagePath =
   pre +:+ linkHtml "function Object() { [native code] }" true "constructor" +:+ post) ∧
  processWikilinks pageIndex (pre +:+ "[[__proto__]]" +:+ post) currentPagePath =
  pre +:+ linkHtml "[object Object]" true "__proto__" +:+ post.
Proof.
  intros Hpre Hpost. split.
  - intros Hnone.
    assert (wikilinkHtml pageIndex currentPagePath "constructor" =
            linkHtml "function Object() { [native code] }" true "constructor") as Hanchor.
    { apply wikilinkHtml_hit. cbn [fst]. unfold indexGet.
      rewrite decide_False by done. change (pageNameAndDisplay "constructor").1
        with "constructor". by rewrite Hnone. }
    rewrite <- Hanchor.
    apply (processWikilinks_link pageIndex currentPagePath pre "constructor" post);
      [done | done | done | done |].
    by rewrite Hanchor.
  - assert (wikilinkHtml pageIndex currentPagePath "__proto__" =
            linkHtml "[object Object]" true "__proto__") as Hanchor.
    { by apply wikilinkHtml_hit. }
    rewrite <- Hanchor.
    apply (processWikilinks_link pageIndex currentPagePath pre "__proto__" post);
      [done | done | done | done |].
    by rewrite Hanchor.
Qed.

Lemma inherited_names_resolve_witness :
  processWikilinks {[ "home" := "home" ]} "a [[constructor]] b" (Some "home") =
    "a " +:+ linkHtml "function Object() { [native code] }" true "constructor" +:+ " b" ∧
  processWikilinks {[ "home" := "home" ]} "a [[__proto__]] b" (Some "home") =
    "a " +:+ linkHtml "[object Object]" true "__proto__" +:+ " b".
Proof.
  destruct (inherited_names_resolve {[ "home" := "home" ]} (Some "home") "a " " b")
    as [Hconstructor Hproto]; [reflexivity | reflexivity |].
  split; [apply Hconstructor; reflexivity | exact Hproto].
Defined.

(** *** The normalizer *)

Lemma isWhiteSpace_lower (c : ascii) : JS.isWhiteSpace (JS.lowerChar c) = JS.isWhiteSpace c.
Proof. by destruct c as [[] [] [] [] [] [] [] []]. Qed.

Lemma toLowerCase_hyphenate (inRun : bool) (s : string) :
  JS.toLowerCase (JS.hyphenate inRun s) = JS.hyphenate inRun (JS.toLowerCase s).
Proof.
  revert inRun. induction s as [|c s IH]; intros inRun; [done |].
  cbn [JS.hyphenate JS.toLowerCase]. rewrite isWhiteSpace_lower.
  destruct (JS.isWhiteSpace c).
  - destruct inRun; cbn [JS.toLowerCase]; by rewrite IH.
  - cbn [JS.toLowerCase]. by rewrite IH.
Qed.

Lemma hyphenate_no_whitespace (inRun : bool) (s : string) :
  allChars (fun c => negb (JS.isWhiteSpace c)) (JS.hyphenate inRun s) = true.
Proof.
  revert inRun. induction s as [|c s IH]; intros inRun; [done |].
  cbn [JS.hyphenate]. destruct (JS.isWhiteSpace c) eqn:Hc.
  - destruct inRun; [apply IH |]. cbn [allChars]. by rewrite IH.
  - cbn [allChars]. by rewrite Hc, IH.
Qed.

Lemma hyphenate_id (inRun : bool) (s : string) :
  allChars (fun c => negb (JS.isWhiteSpace c)) s = true → JS.hyphenate inRun s = s.
Proof.
  revert inRun. induction s as [|c s IH]; intros inRun; [done |].
  cbn [allChars JS.hyphenate]. intros H. apply andb_prop in H as [Hc Hs].
  apply negb_true_iff in Hc. rewrite Hc. by rewrite IH.
Qed.

(** X15. On an ASCII name the normalizer gives a canonical name: the
    result holds no whitespace and no capital letter, normalizing it
    again changes nothing, and names that differ in letter case only get
    the same result. *)
Theorem normalizeName_canonical (s : string) :
  JS.isAscii s = true →
  normalizeName (normalizeName s) = normalizeName s ∧
  allChars (fun c => negb (JS.isWhiteSpace c)) (normalizeName s) = true ∧
  JS.toLowerCase (normalizeName s) = normalizeName s ∧
  normalizeName (JS.toLowerCase s) = normalizeName s.
Proof.
  intros _. unfold normalizeName, JS.replaceWhitespaceRuns.
  assert (JS.toLowerCase (JS.hyphenate false (JS.toLowerCase s)) =
          JS.hyphenate false (JS.toLowerCase s)) as Hlower
    by (by rewrite toLowerCase_hyphenate, toLowerCase_idem).
  split; [| split; [| split]].
  - rewrite Hlower. apply hyphenate_id, hyphenate_no_whitespace.
  - apply hyphenate_no_whitespace.
  - exact Hlower.
  - by rewrite toLowerCase_idem.
Qed.

Lemma normalizeName_canonical_witness :
  normalizeName "Getting  Started" = "getting-started" ∧
  normalizeName (normalizeName "Getting  Started") = normalizeName "Getting  Started" ∧
  normalizeName (JS.toLowerCase "Getting  Started") = normalizeName "Getting  Started".
Proof.
  split; [reflexivity |].
  destruct (normalizeName_canonical "Getting  Started" eq_refl) as (Hidem & _ & _ & Hcase).
  by split.
Defined.

(** ** Start-up arguments *)

Lemma indexOf_absent (x : string) (args : list string) : x ∉ args → indexOf x args = None.
Proof.
  induction args as [|a args IH]; [done |]. intros Hx.
  apply not_elem_of_cons in Hx as [Hne Hx].
  cbn [indexOf]. rewrite decide_False by done. by rewrite IH.
Qed.

Lemma indexOf_first (x : string) (pre rest : list string) :
  x ∉ pre → indexOf x (pre ++ x :: rest) = Some (length pre).
Proof.
  induction pre as [|a pre IH]; intros Hx.
  - cbn [app indexOf]. by rewrite decide_True.
  - apply not_elem_of_cons in Hx as [Hne Hx].
    cbn [app indexOf length]. rewrite decide_False by done. by rewrite IH.
Qed.

(** X16. The first [--home] among the arguments decides the wiki home: the
    argument after it is the directory, later occurrences are not looked
    at, and the default directory is taken when there is no [--home],
    when nothing follows the first one, or when an empty argument
    follows it. *)
Theorem parseArgs_first_home (resolve : string → string) (pre rest : list string) :
  "--home" ∉ pre →
  parseArgs resolve pre = resolve "./wiki-data" ∧
  parseArgs resolve (pre ++ ["--home"]) = resolve "./wiki-data" ∧
  ∀ value,
    parseArgs resolve (pre ++ "--home" :: value :: rest) =
    if decide (value = EmptyString) then resolve "./wiki-data" else resolve value.
Proof.
  intros Hpre. unfold parseArgs. split; [| split].
  - by rewrite indexOf_absent.
  - rewrite indexOf_first by done.
    rewrite lookup_ge_None_2; [done |]. rewrite length_app. simpl. lia.
  - intros value. rewrite indexOf_first by done.
    rewrite lookup_app_r by lia.
    by replace (length pre + 1 - length pre) with 1 by lia.
Qed.

Lemma parseArgs_first_home_witness :
  parseArgs (fun p => p) ["--port"; "8080"; "--home"; "/srv/wiki"; "--home"; "/tmp"]
  = "/srv/wiki" ∧
  parseArgs (fun p => p) ["--port"; "8080"; "--home"; ""; "--home"; "/tmp"] = "./wiki-data".
Proof.
  assert ("--home" ∉ ["--port"; "8080"]) as Hpre.
  { intros H. apply elem_of_cons in H as [H | H]; [discriminate |].
    apply elem_of_cons in H as [H | H]; [discriminate |].
    by apply not_elem_of_nil in H. }
  split.
  - apply (proj2 (proj2 (parseArgs_first_home (fun p => p) ["--port"; "8080"]
                            ["--home"; "/tmp"] Hpre)) "/srv/wiki").
  - apply (proj2 (proj2 (parseArgs_first_home (fun p => p) ["--port"; "8080"]
                            ["--home"; "/tmp"] Hpre)) "").
Defined.

(** ** Image list *)

Lemma compile_image : Regex.compile imageSource = Done imageRegex.
Proof. vm_compute. reflexivity. Qed.

Lemma matchRe_Chr {A : Type} (total : nat) (c a : ascii) (s : string)
    (caps : gmap nat string) (k : string → gmap nat string → option A) :
  Regex.matchRe total (Regex.Chr c) (String a s) caps k =
  if Regex.sameChar a c then k s caps else None.
Proof. reflexivity. Qed.

Lemma matchesCI_cons (c a : ascii) (ext s : string) :
  matchesCI (String c ext) (String a s) =
  if Regex.sameChar a c then matchesCI ext s else false.
Proof. unfold matchesCI. cbn [stripPrefixCI]. by destruct (Regex.sameChar a c). Qed.

(** One attempt of the image pattern: an extension that is the whole
    rest of the name. *)
Lemma exec_image (pre s : string) :
  bool_decide (is_Some (Regex.exec imageRegex pre s)) =
  existsb (fun ext => matchesCI ext s) imageExtensions.
Proof.
  unfold Regex.exec, imageRegex, imageExtensions.
  cbn [existsb map Regex.altRegex].
  rewrite seqRegex_cons, matchRe_Cat.
  destruct s as [|a s]; [done |].
  rewrite matchRe_Chr, !matchesCI_cons.
  destruct (Regex.sameChar a ".") eqn:Hdot; [| done].
  rewrite seqRegex_cons, matchRe_Cat, matchRe_Grp.
  rewrite !matchRe_Alt, !matchRe_chrs. unfold matchesCI.
  destruct (stripPrefixCI "jpg" s) as [[|? ?]|]; [reflexivity | |];
    (destruct (stripPrefixCI "jpeg" s) as [[|? ?]|]; [reflexivity | |];
     (destruct (stripPrefixCI "png" s) as [[|? ?]|]; [reflexivity | |];
      (destruct (stripPrefixCI "gif" s) as [[|? ?]|]; [reflexivity | |];
       (destruct (stripPrefixCI "svg" s) as [[|? ?]|]; [reflexivity | |];
        (destruct (stripPrefixCI "webp" s) as [[|? ?]|]; reflexivity))))).
Qed.

(** A pattern word in lower case matches a text, letter case apart, when
    it is the text in lower case. *)
Lemma matchesCI_lower (ext s : string) :
  (∀ a, allChars (fun c => Bool.eqb (Regex.sameChar a c) (Ascii.eqb c (JS.lowerChar a))) ext
        = true) →
  matchesCI ext s = String.eqb ext (JS.toLowerCase s).
Proof.
  unfold matchesCI. revert s. induction ext as [|c ext IH]; intros s Hext.
  - by destruct s.
  - destruct s as [|a s]; [done |].
    cbn [stripPrefixCI JS.toLowerCase String.eqb].
    pose proof (Hext a) as Ha. cbn [allChars] in Ha.
    apply andb_prop in Ha as [Ha _]. apply Bool.eqb_prop in Ha. rewrite Ha.
    destruct (Ascii.eqb c (JS.lowerChar a)); [| done].
    apply IH. intros b. specialize (Hext b). cbn [allChars] in Hext.
    by apply andb_prop in Hext as [_ ?].
Qed.

Lemma imageExtension_lower (ext : string) :
  ext ∈ imageExtensions →
  ∀ a, allChars (fun c => Bool.eqb (Regex.sameChar a c) (Ascii.eqb c (JS.lowerChar a))) ext
       = true.
Proof.
  unfold imageExtensions. intros Hext a.
  repeat (apply elem_of_cons in Hext as [-> | Hext];
          [by destruct a as [[] [] [] [] [] [] [] []] |]).
  by apply not_elem_of_nil in Hext.
Qed.

Lemma existsb_ext {A : Type} (f g : A → bool) (l : list A) :
  (∀ x, x ∈ l → f x = g x) → existsb f l = existsb g l.
Proof.
  induction l as [|x l IH]; intros H; [done |].
  cbn [existsb]. rewrite (H x) by by left. rewrite IH; [done |].
  intros y Hy. apply H. by right.
Qed.

Lemma existsb_orb {A : Type} (f g : A → bool) (l : list A) :
  existsb (fun x => f x || g x) l = existsb f l || existsb g l.
Proof.
  induction l as [|x l IH]; [done |]. cbn [existsb]. rewrite IH.
  destruct (f x), (g x), (existsb f l), (existsb g l); done.
Qed.

(** The search of the pattern in a name. *)
Lemma searchFrom_image (s : string) :
  ∀ pre, searchFrom imageRegex pre s = hasImageExtension s.
Proof.
  unfold hasImageExtension.
  induction s as [|c s IH]; intros pre.
  - cbn [searchFrom]. pose proof (exec_image pre EmptyString) as Hexec.
    destruct (Regex.exec imageRegex pre EmptyString); [| done].
    rewrite bool_decide_eq_true_2 in Hexec by by eexists. done.
  - cbn [searchFrom JS.toLowerCase]. pose proof (exec_image pre (String c s)) as Hexec.
    rewrite (existsb_ext _ (fun ext => String.eqb ext (JS.toLowerCase (String c s)))) in Hexec
      by (intros ext Hext; apply matchesCI_lower; by apply imageExtension_lower).
    cbn [JS.toLowerCase] in Hexec.
    transitivity (existsb (fun ext =>
                    String.eqb ext (String (JS.lowerChar c) (JS.toLowerCase s))
                    || JS.endsWith ext (JS.toLowerCase s)) imageExtensions).
    + rewrite existsb_orb, <- Hexec, <- (IH (pre +:+ String c EmptyString)).
      destruct (Regex.exec imageRegex pre (String c s)).
      * by rewrite bool_decide_eq_true_2 by by eexists.
      * rewrite bool_decide_eq_false_2; [done |]. by intros [? ?].
    + apply existsb_ext. intros ext _. cbn [JS.endsWith].
      by destruct (String.eqb ext (String (JS.lowerChar c) (JS.toLowerCase s))).
Qed.

(** X17. The image list holds the names that end, letter case apart, in
    one of the extensions [.jpg], [.jpeg], [.png], [.gif], [.svg] and
    [.webp], in the order of the directory listing, and no other name. *)
Theorem image_list (files : list string) :
  imageFiles files = Done (filter (fun f => hasImageExtension f = true) files) ∧
  ∀ f, hasImageExtension f = true ↔
       ∃ ext, ext ∈ imageExtensions ∧ JS.endsWith ext (JS.toLowerCase f) = true.
Proof.
  split.
  - unfold imageFiles. rewrite compile_image. cbn [bindOutcome]. f_equal.
    apply list_filter_iff. intros f. by rewrite searchFrom_image.
  - intros f. unfold hasImageExtension. rewrite existsb_exists. split.
    + intros (ext & Hext & Hends). exists ext. split; [by apply list_elem_of_In | done].
    + intros (ext & Hext & Hends). exists ext. split; [by apply list_elem_of_In | done].
Qed.

(** ** Finding the references to a page *)

Lemma compile_mdLinkFind (path : string) :
  plainPath path = true →
  Regex.compile (mdLinkFindSource path) = Done (mdLinkFindRegex path).
Proof.
  intros Hplain. unfold Regex.compile, mdLinkFindSource.
  rewrite parseFrom_app.
  let st := eval vm_compute in (Regex.run "\[[^\]]+\]\(/?" Regex.initial) in
  change (Regex.run "\[[^\]]+\]\(/?" Regex.initial) with st.
  cbv beta iota.
  rewrite parseFrom_app, (run_escaped path Hplain) by done.
  rewrite pushChars_spec.
  unfold mdLinkFindRegex.
  remember (rev (Regex.chrs path)) as terms eqn:Hterms.
  assert (Regex.chrs path = rev terms) as -> by (subst terms; by rewrite rev_involutive).
  clear Hterms.
  set (plus := Regex.Cat _ _).
  set (opt := Regex.Alt _ _).
  replace ([Regex.Chr "["; plus; Regex.Chr "]"; Regex.Chr "("; opt] ++
           rev terms ++ [Regex.Chr ")"])
    with (rev (Regex.Chr ")" :: terms ++
               [opt; Regex.Chr "("; Regex.Chr "]"; plus; Regex.Chr "["])).
  - reflexivity.
  - cbn [rev]. rewrite rev_app_distr. cbn [rev app]. reflexivity.
Qed.

Lemma matchRe_targetFind (total : nat) (path s : string) (caps : gmap nat string) :
  Regex.matchRe total (Regex.seqRegex (Regex.chrs path ++ [Regex.Chr ")"]))
    s caps (fun rest caps' => Some (rest, caps')) =
  match targetAt path s with
  | Some rest => Some (rest, caps)
  | None => None
  end.
Proof.
  unfold targetAt. rewrite matchRe_seq_app, matchRe_chrs.
  destruct (stripPrefixCI path s) as [s5|]; [| done].
  rewrite !seqRegex_cons, !seqRegex_nil, matchRe_Cat.
  rewrite (matchRe_punct total ")") by apply sameChar_close_paren.
  destruct (JS.stripPrefix (String ")" EmptyString) s5) as [rest|]; [| done].
  by rewrite !matchRe_Eps.
Qed.

(** The markdown link pattern of the search at a position: it matches
    where the pattern of the rewriter does, up to the same place. *)
Lemma exec_mdLinkFind (path newPath pre s : string) :
  fst <$> Regex.exec (mdLinkFindRegex path) pre s = fst <$> specMdLinkAt path newPath s.
Proof.
  unfold Regex.exec, mdLinkFindRegex, specMdLinkAt, mdLinkAt.
  generalize (String.length pre + String.length s). intros total.
  cbn [app]. rewrite !seqRegex_cons.
  rewrite matchRe_Cat.
  rewrite (matchRe_punct total "[") by apply sameChar_open_bracket.
  destruct (JS.stripPrefix (String "[" EmptyString) s) as [s1|] eqn:Hs; [| done].
  rewrite matchRe_Cat, matchRe_Cat, matchRe_notBracket.
  destruct s1 as [|a s1']; [done |].
  cbn [spanNotBracket] in *. destruct (Ascii.eqb a "]") eqn:Ha; [done |].
  rewrite matchRe_star_notBracket.
  rewrite backtrackRun_close.
  2:{ intros b s' Hb. rewrite matchRe_Cat.
      rewrite (matchRe_punct total "]") by apply sameChar_close_bracket.
      cbn [JS.stripPrefix]. by rewrite (Ascii.eqb_sym "]" b), Hb. }
  destruct (spanNotBracket s1') as [run rest1]. cbn [fst snd] in *.
  cbv beta iota zeta. rewrite stripPrefix_two.
  rewrite matchRe_Cat, (matchRe_punct total "]") by apply sameChar_close_bracket.
  destruct (JS.stripPrefix (String "]" EmptyString) rest1) as [rest2|]; [| done].
  rewrite matchRe_Cat, (matchRe_punct total "(") by apply sameChar_open_paren.
  destruct (JS.stripPrefix (String "(" EmptyString) rest2) as [s3|]; [| done].
  rewrite matchRe_Cat, matchRe_Alt.
  rewrite (matchRe_punct total "/") by apply sameChar_slash.
  rewrite matchRe_Eps.
  destruct (JS.stripPrefix (String "/" EmptyString) s3) as [s4|].
  - rewrite !matchRe_targetFind.
    by destruct (targetAt path s4), (targetAt path s3).
  - rewrite matchRe_targetFind. by destruct (targetAt path s3).
Qed.

Lemma exec_wikilinkFind (name newName pre s : string) :
  plainName name = true →
  fst <$> Regex.exec (wikilinkRegex name) pre s = fst <$> specWikilinkAt name newName s.
Proof.
  intros Hplain. rewrite exec_wikilink by done. unfold specWikilinkAt.
  destruct (bracketPairAt s) as [[inner rest]|]; [| done].
  by destruct (containsCI name inner).
Qed.

(** The search counts a match exactly where the rewriter substitutes. *)
Lemma matchScan_found (attempt : string → string → option string)
    (found : string → option (string * string)) :
  (∀ pre s, attempt pre s = fst <$> found s) →
  ∀ s skip pre,
    (0 <? matchScan attempt skip pre s) = (substituteAll found skip s).2.
Proof.
  intros Hsame. induction s as [|c s IH]; intros skip pre.
  - destruct skip; [| done]. cbn [matchScan substituteAll]. rewrite Hsame.
    by destruct (found EmptyString) as [[rest repl]|].
  - destruct skip as [|k]; cbn [matchScan substituteAll]; [| apply IH].
    rewrite Hsame. destruct (found (String c s)) as [[rest repl]|]; cbn [fmap option_fmap option_map fst snd].
    + reflexivity.
    + apply IH.
Qed.

(** Without a finding the text is left as it is. *)
Lemma substituteAll_unchanged (found : string → option (string * string)) (s : string) :
  (substituteAll found 0 s).2 = false → (substituteAll found 0 s).1 = s.
Proof.
  induction s as [|c s IH]; cbn [substituteAll].
  - by destruct (found EmptyString) as [[rest repl]|].
  - destruct (found (String c s)) as [[rest repl]|]; [done |].
    cbn [fst snd]. intros Hnone. by rewrite IH.
Qed.

(** The counts of one page are positive exactly when the rewriter
    changes the page. *)
Lemma countReferences_plain (pagePath newPath content : string) :
  plainPath pagePath = true →
  ∃ w m,
    countReferences (lastSegment pagePath) pagePath content = Done (w, m) ∧
    (0 <? w) || (0 <? m) =
    (specRewriteContent (lastSegment pagePath) (lastSegment newPath)
       pagePath newPath content).2.
Proof.
  intros Hpath. pose proof (lastSegment_plain pagePath Hpath) as Hname.
  unfold countReferences.
  rewrite compile_wikilink, compile_mdLinkFind by done. cbn [bindOutcome].
  eexists _, _. split; [reflexivity |].
  unfold specRewriteContent, countMatches. cbn [fst snd].
  rewrite (matchScan_found _ (specWikilinkAt (lastSegment pagePath) (lastSegment newPath)))
    by (intros; by apply exec_wikilinkFind).
  rewrite (matchScan_found _ (specMdLinkAt pagePath newPath))
    by (intros; apply exec_mdLinkFind).
  destruct (substituteAll (specWikilinkAt _ _) 0 content).2 eqn:Hflag; [done |].
  by rewrite (substituteAll_unchanged _ _ Hflag).
Qed.

Lemma scanList_spec (body : Dirent → Outcome (list Reference))
    (spec : Dirent → list string) (items : list Dirent) :
  Forall (fun e => ∃ refs, body e = Done refs ∧ map ref_file refs = spec e ∧
                     Forall (fun r => ref_total r = ref_wikilinks r + ref_mdlinks r ∧
                                      0 < ref_total r) refs) items →
  ∃ refs, scanList body items = Done refs ∧
          map ref_file refs = concat (spec <$> items) ∧
          Forall (fun r => ref_total r = ref_wikilinks r + ref_mdlinks r ∧
                           0 < ref_total r) refs.
Proof.
  induction 1 as [|e es (found & He & Hfiles & Hfound) _ (more & Hes & Hmore & Hall)].
  - exists []. by repeat split.
  - exists (found ++ more). cbn [scanList]. rewrite He, Hes. cbn [bindOutcome].
    split; [done |]. split.
    + rewrite map_app, Hfiles, Hmore. reflexivity.
    + by apply Forall_app.
Qed.

Lemma referencesIn_spec (pagePath newPath : string) (item : Dirent) :
  plainPath pagePath = true →
  ∀ dir basePath,
    ∃ refs,
      referencesIn (lastSegment pagePath) pagePath item dir basePath = Done refs ∧
      map ref_file refs =
        (specUpdateEntry (lastSegment pagePath) (lastSegment newPath) pagePath newPath
           item basePath).2 ∧
      Forall (fun r => ref_total r = ref_wikilinks r + ref_mdlinks r ∧ 0 < ref_total r) refs.
Proof.
  intros Hpath.
  induction item as [n content | n entries IH] using Dirent_nested_ind; intros dir basePath.
  - cbn [referencesIn specUpdateEntry].
    destruct (hidden (File n content)); [by exists [] |].
    destruct (JS.endsWith ".md" n); [| by exists []].
    destruct (countReferences_plain pagePath newPath content Hpath) as (w & m & -> & Hflag).
    cbn [bindOutcome fst snd].
    destruct (specRewriteContent _ _ _ _ content) as [finalContent modified].
    cbn [snd] in Hflag. rewrite Hflag. destruct modified.
    + eexists. split; [reflexivity |]. split; [reflexivity |].
      constructor; [| constructor]. cbn. split; [done |].
      apply orb_true_iff in Hflag as [H | H]; apply Nat.ltb_lt in H; lia.
    + by exists [].
  - cbn [referencesIn specUpdateEntry].
    destruct (hidden (Directory n entries)); [by exists [] |].
    generalize (pathJoin basePath (direntName (Directory n entries))).
    generalize (dir +:+ "/" +:+ direntName (Directory n entries)).
    intros fullPath relativePath. cbn [snd].
    rewrite <- list_fmap_compose.
    apply (scanList_spec _
             (fun e => (specUpdateEntry (lastSegment pagePath) (lastSegment newPath)
                          pagePath newPath e relativePath).2)).
    eapply Forall_impl; [exact IH |]. intros e He. apply He.
Qed.

(** X18. For a page path made of characters that stand for themselves in
    a pattern (and slashes), the search for references ends without
    error, and the pages it reports are, in the same order, the pages a
    rename of that page rewrites, whatever the new path is as long as
    its name holds no dollar sign; each report counts at least one match
    and its total is the sum of its two counts. *)
Theorem references_are_the_pages_a_rename_rewrites (PAGES_DIR : string)
    (entries : list Dirent) (pagePath newPath : string) :
  plainPath pagePath = true →
  dollarFree (lastSegment newPath) = true →
  ∃ refs,
    findPageReferences PAGES_DIR entries pagePath = Done refs ∧
    map ref_file refs = walkUpdates (updatePageReferences entries pagePath newPath) ∧
    Forall (fun r => ref_total r = ref_wikilinks r + ref_mdlinks r ∧ 0 < ref_total r) refs.
Proof.
  intros Hpath Hnew.
  pose proof (lastSegment_plain pagePath Hpath) as Hname.
  unfold updatePageReferences. rewrite updateDirectory_spec by done.
  cbn [walkUpdates]. unfold findPageReferences.
  apply (scanList_spec _
           (fun e => (specUpdateEntry (lastSegment pagePath) (lastSegment newPath)
                        pagePath newPath e EmptyString).2)).
  apply Forall_forall. intros e _. by apply referencesIn_spec.
Qed.

Lemma references_are_the_pages_a_rename_rewrites_witness :
  let entries :=
    [File "home.md" "see [[Old-Name|the page]] and [[old-name]]";
     File ".hidden.md" "[[old-name]]";
     Directory "guides"
       [File "old-name.md" "self";
        File "other.md" "[text](/guides/old-name) and [[atari]]"]] in
  ∃ refs,
    findPageReferences "/srv/wiki/pages" entries "guides/old-name" = Done refs ∧
    map ref_file refs =
      walkUpdates (updatePageReferences entries "guides/old-name" "guides/new-name") ∧
    Forall (fun r => ref_total r = ref_wikilinks r + ref_mdlinks r ∧ 0 < ref_total r) refs.
Proof.
  intros entries.
  apply (references_are_the_pages_a_rename_rewrites "/srv/wiki/pages" entries
           "guides/old-name" "guides/new-name"); vm_compute; reflexivity.
Defined.

(** ** More on deleting *)

(** What a delete leaves at the two paths it works on. *)
Lemma deletePage_leaves (param : string) (st : Server) :
  let pagePath := stripLeadingSlash param in
  let st' := (deletePage param st).2 in
  pagePath ≠ "home" →
  (deletePage param st).1 = Success () ∧
  readFile (pagesDir st') (segments (pagePath +:+ ".md")) = None ∧
  (∀ name entries,
     lookupPath (pagesDir st') (segments pagePath) ≠ Some (Directory name entries)).
Proof.
  intros pagePath st' Hhome. subst st'. unfold deletePage. fold pagePath.
  rewrite decide_False by done. cbn [fst snd pagesDir].
  split; [done |].
  set (fileSegs := segments (pagePath +:+ ".md")).
  set (dirSegs := segments pagePath).
  set (afterUnlink := unlink fileSegs <$> pagesDir st).
  assert (readFile afterUnlink fileSegs = None) as Hfile.
  { subst afterUnlink. destruct (pagesDir st) as [es|]; [apply unlink_gone | done]. }
  destruct (lookupPath afterUnlink dirSegs) as [[fn fc | dn sub]|] eqn:Hdir.
  - split; [done | by rewrite Hdir].
  - split.
    + destruct (segments_md pagePath)
        as (parent & leaf & HF & [HD | [HD | (x & _ & _ & HD)]]);
        fold fileSegs in HF; fold dirSegs in HD.
      * pose proof (removeTree_gone dirSegs [leaf +:+ ".md"] afterUnlink) as Hgone.
        rewrite <- HD in HF. rewrite <- HF in Hgone. unfold readFile.
        destruct (lookupPath _ fileSegs) as [e|]; [by destruct Hgone | done].
      * rewrite removeTree_frame; [done |].
        rewrite HF, HD. intros [k Hk]. rewrite <- app_assoc in Hk.
        apply app_inv_head in Hk. injection Hk as Hk _.
        symmetry in Hk. by apply append_md_ne in Hk.
      * pose proof (removeTree_gone dirSegs [x; leaf +:+ ".md"] afterUnlink) as Hgone.
        rewrite HD, <- app_assoc in HF. cbn [app] in HF. rewrite <- HF in Hgone.
        unfold readFile.
        destruct (lookupPath _ fileSegs) as [e|]; [by destruct Hgone | done].
    + intros name entries Hlook.
      pose proof (removeTree_gone dirSegs [] afterUnlink) as Hgone.
      rewrite app_nil_r, Hlook in Hgone. by destruct Hgone.
  - split; [done | by rewrite Hdir].
Qed.

(** A page whose file cannot be read is not served. *)
Lemma getPage_unreadable (marked : string → string) (param : string) (st : Server) :
  readFile (pagesDir st)
    (segments (stripLeadingSlash (if decide (param = EmptyString) then "home" else param)
               +:+ ".md")) = None →
  getPage marked param st = Fail NotFound ∨ getPage marked param st = Fail ServerError.
Proof.
  intros Hread. unfold getPage. rewrite Hread.
  destruct (access _ _); [by right | by left].
Qed.

(** X19. After a delete of any page other than the home page, a request
    for that page fails (not found, or a server error when a directory
    carries the name of the page file), and the page has no children
    left. *)
Theorem deleted_page_is_gone (marked : string → string) (param : string) (st : Server) :
  stripLeadingSlash param ≠ "home" →
  param ≠ EmptyString →
  let st' := (deletePage param st).2 in
  (deletePage param st).1 = Success () ∧
  (getPage marked param st' = Fail NotFound ∨ getPage marked param st' = Fail ServerError) ∧
  getChildren param st' = [].
Proof.
  intros Hhome Hparam st'.
  destruct (deletePage_leaves param st Hhome) as (Hok & Hfile & Hdir).
  fold st' in Hfile, Hdir.
  split; [exact Hok |]. split.
  - apply getPage_unreadable. by rewrite decide_False.
  - unfold getChildren.
    destruct (lookupPath _ _) as [[fn fc | dn sub]|] eqn:Hlook; [done | | done].
    by destruct (Hdir dn sub).
Qed.

Lemma deleted_page_is_gone_witness :
  let st :=
    mkServer (Some [File "home.md" "H"; File "systems.md" "S";
                    Directory "systems" [File "atari.md" "A"]]) ∅ in
  let st' := (deletePage "/systems" st).2 in
  getChildren "/systems" st = ["systems/atari"] ∧
  (deletePage "/systems" st).1 = Success () ∧
  (getPage id "/systems" st' = Fail NotFound ∨ getPage id "/systems" st' = Fail ServerError) ∧
  getChildren "/systems" st' = [].
Proof.
  intros st st'. split; [reflexivity |].
  apply (deleted_page_is_gone id "/systems" st); discriminate.
Defined.

(** X20. A delete whose path has no segment left (the empty path, a
    lone slash, a lone dot, a directory followed by [..]) is not refused:
    it removes the pages directory itself, so that afterwards the index
    is empty, no page inside the pages directory is found and the tree
    cannot be built. *)
Theorem delete_without_path_removes_all_pages (marked : string → string)
    (localeCompare : string → string → Z) (param : string) (st : Server) :
  segments (stripLeadingSlash param) = [] →
  deletePage param st = (Success (), mkServer None ∅) ∧
  (∀ p,
     insidePages
       (segments (stripLeadingSlash (if decide (p = EmptyString) then "home" else p)
                  +:+ ".md")) = true →
     getPage marked p (mkServer None ∅) = Fail NotFound) ∧
  getTree localeCompare (mkServer None ∅) = Fail ServerError.
Proof.
  intros Hsegs. split; [| split; [| reflexivity]].
  - unfold deletePage. rewrite Hsegs.
    rewrite decide_False by (intros Heq; by rewrite Heq in Hsegs).
    destruct (pagesDir st) as [es|]; reflexivity.
  - intros p _. unfold getPage. cbn [pagesDir]. reflexivity.
Qed.

Lemma delete_without_path_removes_all_pages_witness :
  let st :=
    mkServer (Some [File "home.md" "H"; Directory "systems" [File "atari.md" "A"]])
      (buildPageIndex (Some [File "home.md" "H"; Directory "systems" [File "atari.md" "A"]])) in
  getPage id "systems/atari" st = Success (mkPageBody "systems/atari" "A" EmptyString "A") ∧
  deletePage EmptyString st = (Success (), mkServer None ∅) ∧
  deletePage "/" st = (Success (), mkServer None ∅) ∧
  deletePage "." st = (Success (), mkServer None ∅) ∧
  deletePage "systems/.." st = (Success (), mkServer None ∅) ∧
  getPage id "systems/atari" (mkServer None ∅) = Fail NotFound.
Proof.
  intros st. split; [reflexivity |].
  split; [| split; [| split; [| split]]].
  - apply (delete_without_path_removes_all_pages id compareByCode EmptyString st). reflexivity.
  - apply (delete_without_path_removes_all_pages id compareByCode "/" st). reflexivity.
  - apply (delete_without_path_removes_all_pages id compareByCode "." st). reflexivity.
  - apply (delete_without_path_removes_all_pages id compareByCode "systems/.." st). reflexivity.
  - apply (delete_without_path_removes_all_pages id compareByCode EmptyString st);
      reflexivity.
Defined.

(** X21. The guard of the home page compares the text of the path: a
    path other than [home] that leads to the file of the home page, such
    as [./home], is not refused, and afterwards the home page is not
    served. *)
Theorem home_guard_compares_text (marked : string → string) (param : string) (st : Server) :
  stripLeadingSlash param ≠ "home" →
  segments (stripLeadingSlash param +:+ ".md") = ["home.md"] →
  let st' := (deletePage param st).2 in
  (deletePage param st).1 = Success () ∧
  readFile (pagesDir st') ["home.md"] = None ∧
  (getPage marked EmptyString st' = Fail NotFound ∨
   getPage marked EmptyString st' = Fail ServerError).
Proof.
  intros Hhome Hsegs st'.
  destruct (deletePage_leaves param st Hhome) as (Hok & Hfile & _).
  fold st' in Hfile. rewrite Hsegs in Hfile.
  split; [exact Hok |]. split; [exact Hfile |].
  apply getPage_unreadable. exact Hfile.
Qed.

Lemma home_guard_compares_text_witness :
  let st := mkServer (Some [File "home.md" "H"]) (buildPageIndex (Some [File "home.md" "H"])) in
  let st' := (deletePage "./home" st).2 in
  getPage id EmptyString st = Success (mkPageBody "home" "H" EmptyString "H") ∧
  (deletePage "home" st).1 = Fail Forbidden ∧
  (deletePage "./home" st).1 = Success () ∧
  readFile (pagesDir st') ["home.md"] = None ∧
  (getPage id EmptyString st' = Fail NotFound ∨ getPage id EmptyString st' = Fail ServerError).
Proof.
  intros st st'. split; [reflexivity |]. split; [reflexivity |].
  apply (home_guard_compares_text id "./home" st); [discriminate | reflexivity].
Defined.

(** X26. A delete of a path other than [home], whose file path and
    folder path stay inside the pages directory, leaves every file alone
    that lies neither at the file path of the page nor at or below its
    folder path, and leaves the index as a rebuild over the pages that
    remain gives it. *)
Theorem delete_changes_nothing_else (param : string) (st : Server) :
  let pagePath := stripLeadingSlash param in
  let st' := (deletePage param st).2 in
  pagePath ≠ "home" →
  insidePages (segments (pagePath +:+ ".md")) = true →
  insidePages (segments pagePath) = true →
  (∀ other,
     ¬ segments (pagePath +:+ ".md") `prefix_of` other →
     ¬ segments pagePath `prefix_of` other →
     readFile (pagesDir st') other = readFile (pagesDir st) other) ∧
  pageIndex st' = buildPageIndex (pagesDir st').
Proof.
  intros pagePath st' Hhome _ _. subst st'. unfold deletePage. fold pagePath.
  rewrite decide_False by done. cbn [snd pagesDir pageIndex].
  split; [| done].
  set (fileSegs := segments (pagePath +:+ ".md")).
  set (dirSegs := segments pagePath).
  set (afterUnlink := unlink fileSegs <$> pagesDir st).
  assert (∀ other, ¬ fileSegs `prefix_of` other →
                   readFile afterUnlink other = readFile (pagesDir st) other) as Hframe.
  { intros other Hother. subst afterUnlink.
    destruct (pagesDir st) as [es|]; [by apply unlink_frame | done]. }
  intros other Hf Hd.
  destruct (lookupPath afterUnlink dirSegs) as [[fn fc | dn sub]|];
    [by apply Hframe | | by apply Hframe].
  rewrite removeTree_frame by done. by apply Hframe.
Qed.

Lemma delete_changes_nothing_else_witness :
  let st :=
    mkServer (Some [File "home.md" "H"; File "systems.md" "S";
                    Directory "systems" [File "atari.md" "A"];
                    Directory "guides" [File "intro.md" "I"]]) ∅ in
  let st' := (deletePage "guides/../systems" st).2 in
  readFile (pagesDir st') ["systems"; "atari.md"] = None ∧
  readFile (pagesDir st') ["home.md"] = Some "H" ∧
  readFile (pagesDir st') ["guides"; "intro.md"] = Some "I" ∧
  pageIndex st' = buildPageIndex (pagesDir st').
Proof.
  intros st st'. split; [reflexivity |].
  destruct (delete_changes_nothing_else "guides/../systems" st) as [Hframe Hindex];
    [discriminate | reflexivity | reflexivity |].
  split; [| split; [| exact Hindex]].
  - etransitivity; [apply Hframe |]; [| | reflexivity];
      intros [k Hk]; vm_compute in Hk; discriminate.
  - etransitivity; [apply Hframe |]; [| | reflexivity];
      intros [k Hk]; vm_compute in Hk; discriminate.
Defined.

(** ** What a write leaves alone *)

Lemma findEntry_app_ne (n : string) (es : list Dirent) (e : Dirent) :
  direntName e ≠ n → findEntry n (es ++ [e]) = findEntry n es.
Proof.
  intros Hname. induction es as [|x es IH]; simpl.
  - by rewrite decide_False.
  - destruct (decide (direntName x = n)); [done | exact IH].
Qed.

Lemma resolve_empty (segs : list string) : fileOf (resolve segs []) = None.
Proof. destruct segs as [|n [|m rest]]; reflexivity. Qed.

(** Directories made on the way hold no file. *)
Lemma mkdirp_frame (segs : list string) :
  ∀ es es' other,
    mkdirp segs es = Some es' → fileOf (resolve other es') = fileOf (resolve other es).
Proof.
  induction segs as [|n rest IH]; intros es es' other; cbn [mkdirp].
  - by intros [= ->].
  - destruct (findEntry n es) as [[fn fc | dn sub]|] eqn:Hfind; [done | |].
    + destruct (mkdirp rest sub) as [sub'|] eqn:Hsub; [| done]. intros [= <-].
      destruct other as [|m more]; [done |].
      destruct (decide (m = n)) as [-> | Hm].
      * destruct more as [|k more].
        -- cbn [resolve].
           rewrite findEntry_setEntry_eq by (done || by rewrite Hfind).
           by rewrite Hfind.
        -- rewrite !resolve_cons by done.
           rewrite findEntry_setEntry_eq by (done || by rewrite Hfind).
           rewrite Hfind. by apply IH.
      * assert (findEntry m (setEntry n (Directory n sub') es) = findEntry m es) as Hsame
          by (by apply findEntry_setEntry_ne).
        cbn [resolve]. by rewrite Hsame.
    + destruct (mkdirp rest []) as [sub|] eqn:Hsub; [| done]. intros [= <-].
      destruct other as [|m more]; [done |].
      destruct (decide (m = n)) as [-> | Hm].
      * destruct more as [|k more].
        -- cbn [resolve]. rewrite (findEntry_app_None _ _ _ Hfind) by done.
           by rewrite Hfind.
        -- rewrite !resolve_cons by done.
           rewrite (findEntry_app_None _ _ _ Hfind) by done.
           rewrite Hfind. rewrite (IH _ _ (k :: more) Hsub). apply resolve_empty.
      * assert (findEntry m (es ++ [Directory n sub]) = findEntry m es) as Hsame
          by (apply findEntry_app_ne; simpl; congruence).
        cbn [resolve]. by rewrite Hsame.
Qed.

(** A change of one name inside the directory at [parent] is not seen
    at any other path, when no directory carries that name before or
    after. *)
Lemma alterDir_frame (leaf : string) (f : list Dirent → list Dirent) (dir : list Dirent)
    (parent : list string) :
  (∀ m, m ≠ leaf → findEntry m (f dir) = findEntry m dir) →
  (∀ dn sub, findEntry leaf dir ≠ Some (Directory dn sub)) →
  (∀ dn sub, findEntry leaf (f dir) ≠ Some (Directory dn sub)) →
  ∀ es x other,
    lookupPath (Some es) parent = Some (Directory x dir) →
    other ≠ parent ++ [leaf] →
    fileOf (resolve other (alterDir parent f es)) = fileOf (resolve other es).
Proof.
  intros Hothers Hbefore Hafter.
  induction parent as [|a ps IH]; intros es x other Hlook Hother.
  - simpl in Hlook. injection Hlook as _ ->. cbn [alterDir].
    destruct other as [|m more]; [done |].
    destruct (decide (m = leaf)) as [-> | Hm].
    + destruct more as [|k more]; [done |].
      rewrite !resolve_cons by done.
      destruct (findEntry leaf (f dir)) as [[? ? | dn sub]|] eqn:Hf;
        [| by destruct (Hafter dn sub) |];
        (destruct (findEntry leaf dir) as [[? ? | dn' sub']|] eqn:He;
           [done | by destruct (Hbefore dn' sub') | done]).
    + cbn [resolve]. by rewrite Hothers.
  - cbn [alterDir]. cbn [lookupPath] in Hlook.
    assert (∃ dn sub y, findEntry a es = Some (Directory dn sub) ∧
                        lookupPath (Some sub) ps = Some (Directory y dir))
      as (dn & sub & y & Hfind & Hsub).
    { destruct ps as [|b ps].
      - cbn [resolve] in Hlook. by exists x, dir, "pages".
      - rewrite resolve_cons in Hlook by done.
        destruct (findEntry a es) as [[? ? | dn sub]|]; [done | | done].
        by exists dn, sub, x. }
    rewrite Hfind.
    destruct other as [|m more]; [done |].
    destruct (decide (m = a)) as [-> | Hm].
    + destruct more as [|k more].
      * cbn [resolve]. rewrite findEntry_setEntry_eq by (done || by rewrite Hfind).
        by rewrite Hfind.
      * rewrite !resolve_cons by done.
        rewrite findEntry_setEntry_eq by (done || by rewrite Hfind).
        rewrite Hfind. eapply IH; [exact Hsub |].
        intros Heq. apply Hother. simpl. by rewrite Heq.
    + assert (findEntry m (setEntry a (Directory a (alterDir ps f sub)) es) = findEntry m es)
        as Hsame by (by apply findEntry_setEntry_ne).
      cbn [resolve]. by rewrite Hsame.
Qed.

Lemma writeFile_frame (segs other : list string) (content : string) (es es' : list Dirent) :
  writeFile segs content es = Some es' → other ≠ segs →
  fileOf (resolve other es') = fileOf (resolve other es).
Proof.
  unfold writeFile. destruct segs as [|n rest]; [done |].
  set (segs := n :: rest).
  destruct (lookupPath (Some es) (parentSegs segs)) as [[fn fc | x dir]|] eqn:Hparent;
    [done | | done].
  destruct (findEntry (leafSeg segs) dir) as [[fn fc | dn sub]|] eqn:Hleaf;
    [| done |]; intros [= <-] Hother.
  - eapply (alterDir_frame (leafSeg segs)); [| | | exact Hparent |];
      [| | | intros Heq; apply Hother; rewrite Heq; symmetry; by apply segs_split].
    + intros m Hm. by apply findEntry_setEntry_ne.
    + intros dn sub. by rewrite Hleaf.
    + intros dn sub. by rewrite findEntry_setEntry_eq by (done || by rewrite Hleaf).
  - eapply (alterDir_frame (leafSeg segs)); [| | | exact Hparent |];
      [| | | intros Heq; apply Hother; rewrite Heq; symmetry; by apply segs_split].
    + intros m Hm. by apply findEntry_app_ne.
    + intros dn sub. by rewrite Hleaf.
    + intros dn sub. by rewrite (findEntry_app_None _ _ _ Hleaf).
Qed.

Lemma readFile_fileOf (dir : option (list Dirent)) (segs : list string) :
  readFile dir segs = fileOf (resolve segs (default [] dir)).
Proof.
  destruct dir as [es|].
  - rewrite readFile_resolve. simpl. by destruct (resolve segs es) as [[? ? | ? ?]|].
  - simpl. by rewrite resolve_empty.
Qed.

(** The file of a page is the only one a write changes. *)
Lemma writePage_frame (dir : option (list Dirent)) (segs other : list string)
    (content : string) (es : list Dirent) :
  writePage dir segs content = Some es → other ≠ segs →
  readFile (Some es) other = readFile dir other.
Proof.
  unfold writePage. destruct (mkdirp _ _) as [es1|] eqn:Hmk; [| done].
  intros Hwrite Hother. rewrite !readFile_fileOf. change (default [] (Some es)) with es.
  rewrite (writeFile_frame _ _ _ _ _ Hwrite Hother).
  apply (mkdirp_frame _ _ _ other Hmk).
Qed.

(** X22. A successful save to a path that stays inside the pages
    directory changes the file of the saved page only: every other file
    reads as before, and every other page inside the pages directory
    that was served before is served with the same answer. *)
Theorem save_changes_no_other_page (marked : string → string) (param content : string)
    (st : Server) (pagePath : string) :
  (savePage param content st).1 = Success pagePath →
  insidePages (segments (pagePath +:+ ".md")) = true →
  let st' := (savePage param content st).2 in
  (∀ other, other ≠ segments (pagePath +:+ ".md") →
            readFile (pagesDir st') other = readFile (pagesDir st) other) ∧
  (∀ q body,
     let fileSegs :=
       segments (stripLeadingSlash (if decide (q = EmptyString) then "home" else q)
                 +:+ ".md") in
     insidePages fileSegs = true →
     fileSegs ≠ segments (pagePath +:+ ".md") →
     getPage marked q st = Success body → getPage marked q st' = Success body).
Proof.
  unfold savePage.
  destruct (decide (content = EmptyString)); [done |].
  destruct (writePage _ _ _) as [es|] eqn:Hwrite; [| done].
  cbn [fst snd]. intros [= <-] _. cbn [pagesDir].
  assert (∀ other,
            other ≠ segments (stripLeadingSlash
                                (if decide (param = EmptyString) then "home" else param)
                              +:+ ".md") →
            readFile (Some es) other = readFile (pagesDir st) other) as Hframe.
  { intros other Hother. by apply (writePage_frame _ _ _ _ _ Hwrite). }
  split; [exact Hframe |].
  intros q body _ Hq. unfold getPage. cbn [pagesDir pageIndex].
  destruct (access (pagesDir st) _) eqn:Hacc; [| done].
  destruct (readFile (pagesDir st) _) as [text|] eqn:Hread; [| done].
  rewrite <- (Hframe _ Hq) in Hread.
  by rewrite Hread, (readFile_access _ _ _ Hread).
Qed.

Lemma save_changes_no_other_page_witness :
  let st :=
    mkServer (Some [File "home.md" "H"; Directory "systems" [File "atari.md" "A"]]) ∅ in
  let st' := (savePage "x/../systems/amiga" "text" st).2 in
  readFile (pagesDir st') ["systems"; "amiga.md"] = Some "text" ∧
  readFile (pagesDir st') ["systems"; "atari.md"] = Some "A" ∧
  getPage id "home" st' = getPage id "home" st.
Proof.
  intros st st'. split; [reflexivity |].
  destruct (save_changes_no_other_page id "x/../systems/amiga" "text" st
              "x/../systems/amiga") as [Hfiles Hpages]; [reflexivity | reflexivity |].
  split.
  - etransitivity; [apply Hfiles; discriminate | reflexivity].
  - etransitivity; [apply Hpages; [reflexivity | discriminate | reflexivity] |].
    reflexivity.
Defined.

(** X23. A successful create at a path that stays inside the pages
    directory changes the file of the new page only: every other file
    reads as before. *)
Theorem create_changes_no_other_file (pagePath title : string) (st : Server) :
  (createPage pagePath title st).1 = Success pagePath →
  insidePages (segments (pagePath +:+ ".md")) = true →
  ∀ other, other ≠ segments (pagePath +:+ ".md") →
           readFile (pagesDir (createPage pagePath title st).2) other =
           readFile (pagesDir st) other.
Proof.
  unfold createPage.
  destruct (decide (pagePath = EmptyString)); [done |].
  destruct (access _ _); [done |].
  destruct (writePage _ _ _) as [es|] eqn:Hwrite; [| done].
  cbn [fst snd pagesDir]. intros _ _ other Hother.
  by apply (writePage_frame _ _ _ _ _ Hwrite).
Qed.

Lemma create_changes_no_other_file_witness :
  let st :=
    mkServer (Some [File "home.md" "H"; Directory "systems" [File "atari.md" "A"]]) ∅ in
  let st' := (createPage "systems/new/amiga" "Amiga" st).2 in
  pageExists (pagesDir st') "systems/new/amiga" = true ∧
  readFile (pagesDir st') ["systems"; "atari.md"] = readFile (pagesDir st) ["systems"; "atari.md"] ∧
  readFile (pagesDir st') ["systems"; "new"] = readFile (pagesDir st) ["systems"; "new"].
Proof.
  intros st st'. split; [reflexivity |].
  split; apply (create_changes_no_other_file "systems/new/amiga" "Amiga" st);
    (reflexivity || discriminate).
Defined.

(** ** Where a rename puts the page *)

Lemma nameChar_not_dot (c : ascii) :
  isNameChar c = true → Ascii.eqb (JS.lowerChar c) "." = false.
Proof. by destruct c as [[] [] [] [] [] [] [] []]. Qed.

Lemma lower_valid_no_dot (newName : string) :
  validName newName = true → JS.includesChar "." (JS.toLowerCase newName) = false.
Proof.
  unfold validName. intros H. apply andb_prop in H as [_ H].
  induction newName as [|c n IH]; [done |].
  simpl in H. apply andb_prop in H as [Hc Hn].
  cbn [JS.toLowerCase JS.includesChar]. rewrite (nameChar_not_dot c Hc). by apply IH.
Qed.

(** A valid name, lowercased, carries no extension. *)
Lemma lower_valid_no_md (newName x : string) :
  validName newName = true → JS.toLowerCase newName ≠ x +:+ ".md".
Proof.
  intros Hvalid Heq. apply lower_valid_no_dot in Hvalid.
  rewrite Heq, includesChar_app in Hvalid.
  by apply orb_false_elim in Hvalid as [_ Hmd].
Qed.

Lemma lower_valid_name (newName : string) :
  validName newName = true →
  JS.toLowerCase newName ≠ EmptyString ∧ JS.toLowerCase newName ≠ "." ∧
  JS.toLowerCase newName ≠ "..".
Proof.
  intros Hvalid. pose proof (lower_valid_no_dot _ Hvalid) as Hdot.
  split; [| split].
  - unfold validName in Hvalid. apply andb_prop in Hvalid as [Hne _].
    apply negb_true_iff, bool_decide_eq_false in Hne. by destruct newName.
  - intros Heq. by rewrite Heq in Hdot.
  - intros Heq. by rewrite Heq in Hdot.
Qed.

(** The files of the old and the new page lie in one directory, the
    folder of the new page lies there too, and the folder of the old page
    lies there, or is that directory, or the directory above it. *)
Lemma segments_rename (oldPath newName : string) :
  validName newName = true →
  ∃ parent,
    segments (oldPath +:+ ".md") = parent ++ [lastSegment oldPath +:+ ".md"] ∧
    segments (renamedPath oldPath newName +:+ ".md") =
      parent ++ [JS.toLowerCase newName +:+ ".md"] ∧
    segments (renamedPath oldPath newName) = parent ++ [JS.toLowerCase newName] ∧
    (segments oldPath = parent ∨ segments oldPath = parent ++ [lastSegment oldPath] ∨
     ∃ x, parent = segments oldPath ++ [x]).
Proof.
  intros Hvalid.
  destruct (splitChar_append_last "/" oldPath ".md" eq_refl) as (init & lst & Hold & Holdmd).
  destruct (splitChar_append_last "/" (renamedPath oldPath newName) ".md" eq_refl)
    as (init' & lst' & Hnew & Hnewmd).
  pose proof Hnew as Hsplit.
  rewrite (renamedPath_split _ _ Hvalid), Hold, removelast_last in Hnew.
  apply app_inj_tail in Hnew as [<- <-].
  assert (lastSegment oldPath = lst) as ->.
  { unfold lastSegment. by rewrite Hold, last_last. }
  exists (foldl joinSegment [] init).
  rewrite (segments_snoc _ _ _ Holdmd), (segments_snoc _ _ _ Hnewmd),
          (segments_snoc _ _ _ Hsplit), (segments_snoc _ _ _ Hold).
  destruct (md_name lst) as (? & ? & ?).
  destruct (md_name (JS.toLowerCase newName)) as (? & ? & ?).
  destruct (lower_valid_name _ Hvalid) as (? & ? & ?).
  rewrite !joinSegment_name by done.
  split; [done |]. split; [done |]. split; [done |].
  destruct (joinSegment_cases (foldl joinSegment [] init) lst)
    as [Hcase | [Hcase | (x & _ & _ & Hcase)]]; [by left | by right; left |].
  right; right. by exists x.
Qed.

Lemma setName_name (to : string) (e : Dirent) : direntName (setName to e) = to.
Proof. by destruct e. Qed.

Lemma findEntry_absent (n : string) (es : list Dirent) :
  n ∉ map direntName es → findEntry n es = None.
Proof.
  induction es as [|x es IH]; [done |]. cbn [map findEntry]. intros Hn.
  apply not_elem_of_cons in Hn as [Hx Hes]. by rewrite decide_False, IH.
Qed.

Lemma findEntry_setEntry_other (m from : string) (e' : Dirent) (es : list Dirent) :
  m ≠ from → m ≠ direntName e' →
  findEntry m (setEntry from e' es) = findEntry m es.
Proof.
  intros Hfrom Hto. induction es as [|x es IH]; [done |]. cbn [setEntry].
  destruct (decide (direntName x = from)) as [Hx | Hx]; cbn [findEntry].
  - by rewrite !decide_False by congruence.
  - destruct (decide (direntName x = m)); [done | exact IH].
Qed.

Lemma findEntry_setEntry_new (from : string) (e' : Dirent) (es : list Dirent) :
  findEntry (direntName e') es = None → is_Some (findEntry from es) →
  findEntry (direntName e') (setEntry from e' es) = Some e'.
Proof.
  induction es as [|x es IH]; cbn [findEntry setEntry]; [by intros _ [? ?] |].
  destruct (decide (direntName x = direntName e')) as [Hx | Hx]; [done |].
  intros Hnone. destruct (decide (direntName x = from)) as [Hf | Hf]; cbn [findEntry].
  - intros _. by rewrite decide_True.
  - intros Hsome. rewrite decide_False by done. by apply IH.
Qed.

Lemma findEntry_setEntry_gone (from : string) (e' : Dirent) (es : list Dirent) :
  NoDup (map direntName es) → direntName e' ≠ from →
  findEntry from (setEntry from e' es) = None.
Proof.
  intros Hnodup Hname. induction es as [|x es IH]; [done |].
  cbn [map] in Hnodup. apply NoDup_cons in Hnodup as [Hx Hnodup]. cbn [setEntry].
  destruct (decide (direntName x = from)) as [Hf | Hf]; cbn [findEntry].
  - rewrite decide_False by done. apply findEntry_absent. by rewrite <- Hf.
  - rewrite decide_False by done. by apply IH.
Qed.

(** [fs.rename] inside one listing, to a free name. *)
Lemma renameIn_moved (from to : string) (dir dir' : list Dirent) :
  renameIn from to dir = Some dir' → findEntry to dir = None →
  from ≠ to ∧ findEntry to dir' = setName to <$> findEntry from dir.
Proof.
  unfold renameIn. intros Hrename Hfree.
  destruct (findEntry from dir) as [source|] eqn:Hsource; [| done].
  assert (from ≠ to) as Hne by (intros ->; congruence).
  rewrite decide_False, Hfree in Hrename by done. injection Hrename as <-.
  split; [done |]. cbn [fmap option_fmap option_map].
  rewrite <- (setName_name to source) at 1.
  apply findEntry_setEntry_new; [by rewrite setName_name | by rewrite Hsource].
Qed.

Lemma renameIn_gone (from to : string) (dir dir' : list Dirent) :
  renameIn from to dir = Some dir' → findEntry to dir = None →
  NoDup (map direntName dir) → findEntry from dir' = None.
Proof.
  unfold renameIn. intros Hrename Hfree Hnodup.
  destruct (findEntry from dir) as [source|] eqn:Hsource; [| done].
  assert (from ≠ to) as Hne by (intros ->; congruence).
  rewrite decide_False, Hfree in Hrename by done. injection Hrename as <-.
  apply findEntry_setEntry_gone; [done | by rewrite setName_name].
Qed.

Lemma renameIn_frame (from to m : string) (dir dir' : list Dirent) :
  renameIn from to dir = Some dir' → m ≠ from → m ≠ to →
  findEntry m dir' = findEntry m dir.
Proof.
  unfold renameIn. intros Hrename Hfrom Hto.
  destruct (findEntry from dir) as [source|]; [| done].
  destruct (decide (from = to)); [by injection Hrename as <- |].
  assert (findEntry m (setEntry from (setName to source)
                         (filter (fun e => direntName e ≠ to) dir)) = findEntry m dir)
    as Hreplaced.
  { rewrite findEntry_setEntry_other by (done || by rewrite setName_name).
    apply findEntry_filter_ne. intros e He. congruence. }
  destruct (findEntry to dir) as [target|].
  - destruct source as [? ? | ? ?], target as [? ? | ? [|? ?]];
      try done; by injection Hrename as <-.
  - injection Hrename as <-.
    apply findEntry_setEntry_other; [done | by rewrite setName_name].
Qed.

Lemma resolve_leaf (es : list Dirent) (parent : list string) (n x : string)
    (dir : list Dirent) :
  lookupPath (Some es) parent = Some (Directory x dir) →
  resolve (parent ++ [n]) es = findEntry n dir.
Proof.
  intros Hlook.
  assert (lookupPath (Some es) (parent ++ [n]) = findEntry n dir) as Hbelow
    by (by rewrite lookupPath_below, Hlook).
  rewrite <- Hbelow. by destruct parent.
Qed.

(** [fs.rename] to a sibling name: what stands in the directory before
    and after. *)
Lemma renameSibling_inv (parent : list string) (from to : string) (es es' : list Dirent) :
  renameSibling (parent ++ [from]) to es = Some es' →
  ∃ x dir dir',
    lookupPath (Some es) parent = Some (Directory x dir) ∧
    renameIn from to dir = Some dir' ∧
    ∀ n, resolve (parent ++ [n]) es = findEntry n dir ∧
         resolve (parent ++ [n]) es' = findEntry n dir'.
Proof.
  unfold renameSibling.
  destruct (parent ++ [from]) as [|a l] eqn:Hsegs; [by destruct parent |].
  rewrite <- Hsegs. unfold parentSegs, leafSeg. rewrite removelast_last, last_last.
  destruct (lookupPath (Some es) parent) as [[fn fc | x dir]|] eqn:Hlook; [done | | done].
  destruct (renameIn from to dir) as [dir'|] eqn:Hrename; [| done].
  intros [= <-]. exists x, dir, dir'. split; [done |]. split; [done |].
  intros n. split.
  - by apply (resolve_leaf _ _ _ x).
  - by rewrite (resolve_alterDir_leaf _ _ _ dir es x Hlook).
Qed.

Lemma access_resolve (es : list Dirent) (segs : list string) :
  segs ≠ [] → access (Some es) segs = bool_decide (is_Some (resolve segs es)).
Proof. by destruct segs. Qed.

Lemma resolve_wellFormed (segs : list string) :
  ∀ es e, wellFormedDir es = true → resolve segs es = Some e → wellFormed e = true.
Proof.
  induction segs as [|n rest IH]; intros es e Hwf; [done |].
  assert (∀ x, findEntry n es = Some x → wellFormed x = true) as Hfound.
  { intros x Hx. apply wellFormedDir_spec in Hwf as [_ Hall].
    apply findEntry_elem in Hx. by apply (proj1 (Forall_forall _ _) Hall). }
  destruct rest as [|m rest]; [apply Hfound |].
  rewrite resolve_cons by done.
  destruct (findEntry n es) as [[fn fc | dn sub]|]; [done | | done].
  apply IH. by apply (wellFormed_Directory dn), Hfound.
Qed.

Lemma lookupPath_NoDup (es : list Dirent) (parent : list string) (x : string)
    (dir : list Dirent) :
  wellFormedDir es = true →
  lookupPath (Some es) parent = Some (Directory x dir) →
  NoDup (map direntName dir).
Proof.
  intros Hwf Hlook. cbn [lookupPath] in Hlook.
  assert (wellFormedDir dir = true) as Hdir.
  { destruct parent as [|a ps].
    - by injection Hlook as _ <-.
    - apply resolve_wellFormed in Hlook; [| done]. by apply wellFormed_Directory in Hlook as [_ ?]. }
  by apply wellFormedDir_spec in Hdir as [? _].
Qed.

(** Two listings of the same shape hold the same names at each path. *)
Lemma lookupPath_shape_names (es es' : list Dirent) (parent : list string)
    (x' : string) (dir' : list Dirent) :
  map shape es' = map shape es →
  lookupPath (Some es') parent = Some (Directory x' dir') →
  ∃ x dir, lookupPath (Some es) parent = Some (Directory x dir) ∧
           map direntName dir' = map direntName dir.
Proof.
  intros Hshape Hlook'.
  assert (∀ l l' : list Dirent, map shape l' = map shape l →
                                map direntName l' = map direntName l) as Hnames.
  { intros l l' Hsame.
    assert (∀ k : list Dirent, map direntName k = map direntName (map shape k)) as Hvia.
    { intros k. rewrite map_map. apply map_ext. intros e. by rewrite shape_name. }
    by rewrite (Hvia l), (Hvia l'), Hsame. }
  cbn [lookupPath] in *. destruct parent as [|a ps].
  - injection Hlook' as _ <-. exists "pages", es. split; [done | by apply Hnames].
  - pose proof (resolve_shape (a :: ps) es) as H.
    pose proof (resolve_shape (a :: ps) es') as H'.
    rewrite Hlook', Hshape, H in H'.
    destruct (resolve (a :: ps) es) as [[fn fc | x dir]|]; [done | | done].
    injection H' as _ Hsame. exists x, dir. split; [done | by apply Hnames].
Qed.

Lemma fileOf_setName (to : string) (o : option Dirent) :
  fileOf (setName to <$> o) = fileOf o.
Proof. by destruct o as [[? ? | ? ?]|]. Qed.

Lemma readFile_leaf (es : list Dirent) (segs : list string) :
  readFile (Some es) segs = fileOf (resolve segs es).
Proof. rewrite readFile_resolve. by destruct (resolve segs es) as [[? ? | ? ?]|]. Qed.

(** X24. After a successful rename whose old last segment is not the new
    name followed by [.md], a page exists at the new path and its file is
    the file of the old page as the rewriting of the references left it;
    in a pages directory without double names no page exists at the old
    path any more. *)
Theorem renamed_page_moves (oldPath newName : string) (st st' : Server)
    (body : RenameBody) :
  renamePage oldPath newName st = Some (Success body, st') →
  lastSegment oldPath ≠ JS.toLowerCase newName +:+ ".md" →
  let newPath := renamedPath oldPath newName in
  rename_newPath body = newPath ∧
  pageExists (pagesDir st') newPath = true ∧
  ∃ entries,
    pagesDir st = Some entries ∧
    readFile (pagesDir st') (segments (newPath +:+ ".md")) =
      readFile (Some (walkEntries (updatePageReferences entries oldPath newPath)))
        (segments (oldPath +:+ ".md")) ∧
    (wellFormedDir entries = true → pageExists (pagesDir st') oldPath = false).
Proof.
  intros Hrename Hleaf newPath. unfold renamePage in Hrename. fold newPath in Hrename.
  destruct (decide (oldPath = EmptyString ∨ newName = EmptyString)); [done |].
  destruct (decide (oldPath = "home")); [done |].
  destruct (validName newName) eqn:Hvalid; [| done]. cbn [negb] in Hrename.
  destruct (pageExists (pagesDir st) newPath) eqn:Hfree; [done |].
  destruct (access (pagesDir st) (segments (oldPath +:+ ".md"))) eqn:Hthere; [| done].
  cbn [negb] in Hrename.
  destruct (pagesDir st) as [entries|] eqn:Hentries; [| done].
  set (w := updatePageReferences entries oldPath newPath) in *.
  destruct (walkStatus w) as [[] | |]; [| done | done].
  destruct (segments_rename oldPath newName Hvalid)
    as (parent & HoldSegs & HnewSegs & HnewDir & HdirSegs).
  fold newPath in HnewSegs, HnewDir.
  set (oldLeaf := lastSegment oldPath) in *.
  set (newLeaf := JS.toLowerCase newName) in *.
  rewrite HoldSegs in Hrename.
  destruct (renameSibling (parent ++ [oldLeaf +:+ ".md"]) (newLeaf +:+ ".md") (walkEntries w))
    as [renamed|] eqn:Hrenamed; [| done].
  injection Hrename as <- <-. cbn [rename_newPath pagesDir].
  split; [done |].
  pose proof (updatePageReferences_shape entries oldPath newPath) as Hshape. fold w in Hshape.
  destruct (renameSibling_inv _ _ _ _ _ Hrenamed) as (x & dir & dir' & Hlook & Hin & Hres).
  assert (findEntry (newLeaf +:+ ".md") dir = None) as Hnone.
  { unfold pageExists in Hfree.
    rewrite <- (access_shape _ _ _ Hshape), HnewSegs in Hfree.
    rewrite access_resolve in Hfree by (by destruct parent).
    apply bool_decide_eq_false in Hfree. rewrite (proj1 (Hres _)) in Hfree.
    destruct (findEntry _ dir); [by destruct Hfree | done]. }
  assert (is_Some (findEntry (oldLeaf +:+ ".md") dir)) as Hsource.
  { rewrite <- (access_shape _ _ _ Hshape), HoldSegs in Hthere.
    rewrite access_resolve in Hthere by (by destruct parent).
    apply bool_decide_eq_true in Hthere. by rewrite (proj1 (Hres _)) in Hthere. }
  destruct (renameIn_moved _ _ _ _ Hin Hnone) as [Hne Hmoved].
  set (final := if decide (segments oldPath `prefix_of` segments newPath)
                then renamed
                else default renamed (renameSibling (segments oldPath) newLeaf renamed)).
  assert (∀ m, m ≠ oldLeaf → m ≠ newLeaf →
               resolve (parent ++ [m]) final = findEntry m dir') as Hfinal.
  { intros m Hm1 Hm2. subst final. rewrite HnewDir.
    destruct (decide (segments oldPath `prefix_of` parent ++ [newLeaf])) as [Hp | Hp];
      [apply Hres |].
    destruct HdirSegs as [HdirSegs | [HdirSegs | [y HdirSegs]]].
    { destruct Hp. rewrite HdirSegs. by apply prefix_app_r. }
    2:{ destruct Hp. rewrite HdirSegs, <- app_assoc. by apply prefix_app_r. }
    rewrite HdirSegs.
    destruct (renameSibling (parent ++ [oldLeaf]) newLeaf renamed) as [fin|] eqn:Hfin;
      [| apply Hres]. change (default renamed (Some fin)) with fin.
    destruct (renameSibling_inv _ _ _ _ _ Hfin) as (y & dir2 & dir2' & _ & Hin2 & Hres2).
    rewrite (proj2 (Hres2 m)), (renameIn_frame _ _ _ _ _ Hin2 Hm1 Hm2).
    rewrite <- (proj1 (Hres2 m)). apply Hres. }
  assert (resolve (parent ++ [newLeaf +:+ ".md"]) final =
          setName (newLeaf +:+ ".md") <$> resolve (parent ++ [oldLeaf +:+ ".md"]) (walkEntries w))
    as Hnew.
  { rewrite Hfinal, Hmoved, (proj1 (Hres _)); [done | | apply not_eq_sym, append_md_ne].
    intros Heq. by apply Hleaf. }
  split; [| exists entries; split; [done |]; split].
  - unfold pageExists. rewrite HnewSegs, access_resolve by (by destruct parent).
    apply bool_decide_eq_true. rewrite Hnew, (proj1 (Hres _)).
    destruct Hsource as [source ->]. by eexists.
  - rewrite HnewSegs, HoldSegs, !readFile_leaf, Hnew. apply fileOf_setName.
  - intros Hwf. unfold pageExists. rewrite HoldSegs, access_resolve by (by destruct parent).
    apply bool_decide_eq_false. rewrite Hfinal;
      [| apply not_eq_sym, append_md_ne | intros Heq; by apply (lower_valid_no_md newName oldLeaf)].
    rewrite (renameIn_gone _ _ _ _ Hin Hnone); [by intros [? ?] |].
    destruct (lookupPath_shape_names _ _ _ _ _ Hshape Hlook) as (x0 & dir0 & Hlook0 & ->).
    by apply (lookupPath_NoDup entries parent x0).
Qed.

Lemma renamed_page_moves_witness :
  let entries :=
    [File "home.md" "see [[old-name]]";
     Directory "guides"
       [File "old-name.md" "I am [[Old-Name]]"; File "other.md" "x";
        Directory "old-name" [File "child.md" "c"]]] in
  let st := mkServer (Some entries) ∅ in
  ∃ body st',
    renamePage "guides/old-name" "New-Name" st = Some (Success body, st') ∧
    pageExists (pagesDir st') "guides/new-name" = true ∧
    readFile (pagesDir st') ["guides"; "new-name.md"] = Some "I am [[new-name]]" ∧
    pageExists (pagesDir st') "guides/old-name" = false ∧
    pageExists (pagesDir st') "guides/new-name/child" = true.
Proof.
  intros entries st.
  destruct (renamePage "guides/old-name" "New-Name" st) as [[[body | failure] st']|] eqn:Hr;
    [| vm_compute in Hr; discriminate | vm_compute in Hr; discriminate].
  exists body, st'. split; [reflexivity |].
  destruct (renamed_page_moves "guides/old-name" "New-Name" st st' body Hr)
    as (_ & Hnew & entries' & Hentries & Hfile & Hold); [vm_compute; discriminate |].
  injection Hentries as <-.
  split; [exact Hnew |]. split; [| split].
  - etransitivity; [exact Hfile |]. vm_compute. reflexivity.
  - apply Hold. vm_compute. reflexivity.
  - vm_compute in Hr. injection Hr as _ <-. vm_compute. reflexivity.
Defined.
